(** * PlaygroundStandardPacketEncoder: a shallow embedding and its properties

    The development follows
    [playground/network/packet/encoders/PlaygroundStandardPacketEncoder.py].
    Python generators that yield [DECODE_WAITING_FOR_STREAM] become trees of
    suspension points ([Gen]); a stream adapter is a record with a byte
    buffer, a read/write position and the per-packet read cap; exceptions
    are values of [exn]. *)

From Stdlib Require Import ZArith List String Ascii Strings.Byte Bool Lia Floats.
From stdpp Require Import gmap strings.

Local Open Scope Z_scope.
Set Warnings "-register-all".

(** ** Exceptions *)

(** The text of an exception, kept structured: the format arguments of the
    Python message are the constructor arguments. *)
Inductive message : Type :=
| UnpackSizeExceedsLimit (unpackSize limit : Z)
| UnpackFailed
| CannotEncodeFieldsOfType
| CannotDecodeFieldsOfType
| CannotEncodeUintOfSize (maxValue : Z)
| CannotEncodeStringLongerThan (strLen : Z)
| CannotEncodeBufferLongerThan (bufLen : Z)
| DuplicateField
| DuplicateExplicitTag
| FieldUnsetNotOptional (fieldName : string)
| ErrorEncodingField (fieldName : string)
| ErrorDecodingField (fieldName : string)
| ErrorDecodingIndex (i : nat)
| PacketSizeMismatch (expected actual : Z)
| PacketTypeUnresolved.

(** Python exception classes that the encoder raises or lets through.
    [PacketEncodingError m cause] is [raise PacketEncodingError(m) from cause]. *)
Inductive exn : Type :=
| PacketEncodingError (m : message) (cause : option exn)
| Exception (m : message)
| StructError
| KeyError (key : Z)
| KeyErrorName (key : string)
| TypeError
| AttributeError
| OverflowError
| UnicodeEncodeError
| UnicodeDecodeError.

Inductive res (A : Type) : Type :=
| Ok (a : A)
| Raise (e : exn).
Arguments Ok {A} a.
Arguments Raise {A} e.

(** ** Bytes and big-endian integers ([struct] with the [!] prefix) *)

Definition Z_of_byte (b : byte) : Z := Z.of_N (Byte.to_N b).

Definition byte_of_Z (z : Z) : byte :=
  match Byte.of_N (Z.to_N (z mod 256)) with
  | Some b => b
  | None => x00
  end.

Fixpoint le_bytes (w : nat) (v : Z) : list byte :=
  match w with
  | O => []
  | S w' => byte_of_Z v :: le_bytes w' (v / 256)
  end.

Fixpoint le_value (bs : list byte) : Z :=
  match bs with
  | [] => 0
  | b :: tl => Z_of_byte b + 256 * le_value tl
  end.

Definition be_bytes (w : nat) (v : Z) : list byte := rev (le_bytes w v).
Definition be_value (bs : list byte) : Z := le_value (rev bs).

(** The format characters used by the encoder, all in network order. *)
Inductive packCode : Type :=
| code_B | code_H | code_I | code_Q     (* "!B" "!H" "!I" "!Q" *)
| code_b | code_h | code_i | code_q     (* "!b" "!h" "!i" "!q" *)
| code_bool                             (* "!?" *)
| code_f | code_d.                      (* "!f" "!d" *)

Definition calcsize (c : packCode) : nat :=
  match c with
  | code_B | code_b | code_bool => 1
  | code_H | code_h => 2
  | code_I | code_i | code_f => 4
  | code_Q | code_q | code_d => 8
  end%nat.

(** [struct.pack] of an unsigned integer of [w] bytes: out of range is
    [struct.error]. *)
Definition pack_unsigned (w : nat) (v : Z) : res (list byte) :=
  if (0 <=? v) && (v <? 256 ^ Z.of_nat w) then Ok (be_bytes w v) else Raise StructError.

Definition pack_signed (w : nat) (v : Z) : res (list byte) :=
  let half := 256 ^ Z.of_nat w / 2 in
  if (- half <=? v) && (v <? half) then Ok (be_bytes w (v mod 256 ^ Z.of_nat w))
  else Raise StructError.

Definition unpack_unsigned (chunk : list byte) : Z := be_value chunk.

Definition unpack_signed (chunk : list byte) : Z :=
  let full := 256 ^ Z.of_nat (length chunk) in
  let u := be_value chunk in
  if u <? full / 2 then u else u - full.

(** [struct.pack("{n}s", data)]: the bytes are cut or padded with zero bytes
    to exactly [n]. *)
Definition pack_s (n : nat) (data : list byte) : list byte :=
  take n data ++ replicate (n - length data)%nat x00.

(** ** Floats: IEEE 754 interchange formats over [spec_float] *)

(** The bit pattern of a float of precision [prec] and exponent bound
    [emax] (binary64: 53 and 1024; binary32: 24 and 128). A NaN is packed as
    the positive quiet NaN. *)
Definition ieee_bits (prec emax : Z) (x : spec_float) : Z :=
  let mw := prec - 1 in
  let sign (s : bool) := if s then 2 ^ mw * (2 * emax) else 0 in
  match x with
  | S754_zero s => sign s
  | S754_infinity s => sign s + (2 * emax - 1) * 2 ^ mw
  | S754_nan => (2 * emax - 1) * 2 ^ mw + 2 ^ (mw - 1)
  | S754_finite s m e =>
      if Zpos m <? 2 ^ mw then sign s + Zpos m
      else sign s + (e - SpecFloat.emin prec emax + 1) * 2 ^ mw + (Zpos m - 2 ^ mw)
  end.

Definition ieee_of_bits (prec emax : Z) (z : Z) : spec_float :=
  let mw := prec - 1 in
  let s := 2 ^ mw * (2 * emax) <=? z in
  let bexp := (z / 2 ^ mw) mod (2 * emax) in
  let mant := z mod 2 ^ mw in
  if bexp =? 0 then
    match mant with
    | Zpos m => S754_finite s m (SpecFloat.emin prec emax)
    | _ => S754_zero s
    end
  else if bexp =? 2 * emax - 1 then
    if mant =? 0 then S754_infinity s else S754_nan
  else
    match mant + 2 ^ mw with
    | Zpos m => S754_finite s m (bexp + SpecFloat.emin prec emax - 1)
    | _ => S754_nan
    end.

(** The C conversion [(float)x] of a double, to nearest even. *)
Definition round_binary32 (x : spec_float) : spec_float :=
  match x with
  | S754_finite s m e => binary_round 24 128 s m e
  | o => o
  end.

Definition is_infinity (x : spec_float) : bool :=
  match x with S754_infinity _ => true | _ => false end.

(** [struct.pack("!d", x)] and [struct.pack("!f", x)]; a finite double too
    large for binary32 is [OverflowError]. *)
Definition pack_float (c : packCode) (x : float) : res (list byte) :=
  match c with
  | code_d => Ok (be_bytes 8 (ieee_bits 53 1024 (Prim2SF x)))
  | code_f =>
      let y := round_binary32 (Prim2SF x) in
      if is_infinity y && negb (is_infinity (Prim2SF x)) then Raise OverflowError
      else Ok (be_bytes 4 (ieee_bits 24 128 y))
  | _ => Raise StructError
  end.

Definition unpack_float (c : packCode) (chunk : list byte) : float :=
  match c with
  | code_f => SF2Prim (ieee_of_bits 24 128 (be_value chunk))
  | _ => SF2Prim (ieee_of_bits 53 1024 (be_value chunk))
  end.

(** ** Text: Python [str] as a list of code points, and UTF-8 *)

Definition str : Type := list Z.

Definition str_of_string (s : string) : str :=
  map (fun a => Z.of_N (N_of_ascii a)) (list_ascii_of_string s).

Definition utf8_encode_char (c : Z) : res (list byte) :=
  if c <? 0 then Raise UnicodeEncodeError
  else if c <? 128 then Ok [byte_of_Z c]
  else if c <? 2048 then Ok [byte_of_Z (192 + c / 64); byte_of_Z (128 + c mod 64)]
  else if c <? 65536 then
    if (55296 <=? c) && (c <=? 57343) then Raise UnicodeEncodeError
    else Ok [byte_of_Z (224 + c / 4096); byte_of_Z (128 + (c / 64) mod 64);
             byte_of_Z (128 + c mod 64)]
  else if c <? 1114112 then
    Ok [byte_of_Z (240 + c / 262144); byte_of_Z (128 + (c / 4096) mod 64);
        byte_of_Z (128 + (c / 64) mod 64); byte_of_Z (128 + c mod 64)]
  else Raise UnicodeEncodeError.

(** [s.encode("utf-8")] *)
Fixpoint utf8_encode (s : str) : res (list byte) :=
  match s with
  | [] => Ok []
  | c :: tl =>
      match utf8_encode_char c, utf8_encode tl with
      | Ok bs, Ok rest => Ok (bs ++ rest)
      | Raise e, _ => Raise e
      | _, Raise e => Raise e
      end
  end.

Definition continuation (b : byte) : option Z :=
  let z := Z_of_byte b in
  if (128 <=? z) && (z <? 192) then Some (z - 128) else None.

Definition cons_char (c : Z) (r : res str) : res str :=
  match r with
  | Ok s => Ok (c :: s)
  | Raise e => Raise e
  end.

(** [bs.decode("utf-8")], strict: overlong forms, surrogates, stray
    continuation bytes and truncated sequences are [UnicodeDecodeError]. *)
Fixpoint utf8_decode (bs : list byte) : res str :=
  match bs with
  | [] => Ok []
  | b0 :: tl =>
      let z0 := Z_of_byte b0 in
      if z0 <? 128 then cons_char z0 (utf8_decode tl)
      else if (194 <=? z0) && (z0 <? 224) then
        match tl with
        | b1 :: tl1 =>
            match continuation b1 with
            | Some c1 => cons_char ((z0 - 192) * 64 + c1) (utf8_decode tl1)
            | None => Raise UnicodeDecodeError
            end
        | _ => Raise UnicodeDecodeError
        end
      else if (224 <=? z0) && (z0 <? 240) then
        match tl with
        | b1 :: b2 :: tl2 =>
            match continuation b1, continuation b2 with
            | Some c1, Some c2 =>
                let c := (z0 - 224) * 4096 + c1 * 64 + c2 in
                if (c <? 2048) || ((55296 <=? c) && (c <=? 57343))
                then Raise UnicodeDecodeError
                else cons_char c (utf8_decode tl2)
            | _, _ => Raise UnicodeDecodeError
            end
        | _ => Raise UnicodeDecodeError
        end
      else if (240 <=? z0) && (z0 <? 245) then
        match tl with
        | b1 :: b2 :: b3 :: tl3 =>
            match continuation b1, continuation b2, continuation b3 with
            | Some c1, Some c2, Some c3 =>
                let c := (z0 - 240) * 262144 + c1 * 4096 + c2 * 64 + c3 in
                if (c <? 65536) || (1114112 <=? c)
                then Raise UnicodeDecodeError
                else cons_char c (utf8_decode tl3)
            | _, _, _ => Raise UnicodeDecodeError
            end
        | _ => Raise UnicodeDecodeError
        end
      else Raise UnicodeDecodeError
  end.

(** ** The stream adapter *)

(** [EncoderStreamAdapter] over an in-memory stream: the bytes, the stream
    position and [_max_size]. *)
Record EncoderStreamAdapter : Type := mkAdapter {
  stream_bytes : list byte;
  stream_pos : nat;
  _max_size : option Z
}.

(** Modelled from the spec: [AbstractStreamAdapter] is not part of the
    source file; section 4.1 gives [available()], [tell()], [seek(abs_pos)]
    and [read(n)] over the underlying byte stream. *)
Definition available (st : EncoderStreamAdapter) : nat :=
  (length (stream_bytes st) - stream_pos st)%nat.

Definition tell (st : EncoderStreamAdapter) : nat := stream_pos st.

Definition seek (p : nat) (st : EncoderStreamAdapter) : EncoderStreamAdapter :=
  mkAdapter (stream_bytes st) p (_max_size st).

Definition set_max_size (n : Z) (st : EncoderStreamAdapter) : EncoderStreamAdapter :=
  mkAdapter (stream_bytes st) (stream_pos st) (Some n).

(** [read(n)] returns at most [n] bytes; a negative [n] reads to the end. *)
Definition read (n : Z) (st : EncoderStreamAdapter) : list byte * EncoderStreamAdapter :=
  let rest := drop (stream_pos st) (stream_bytes st) in
  let chunk := if n <? 0 then rest else take (Z.to_nat n) rest in
  (chunk, mkAdapter (stream_bytes st) (stream_pos st + length chunk)%nat (_max_size st)).

(** [write(bs)] at the current position: overwrites what is there, extends
    the stream at its end, and fills a gap before the position with zeros. *)
Definition write (bs : list byte) (st : EncoderStreamAdapter) : EncoderStreamAdapter :=
  let p := stream_pos st in
  let old := stream_bytes st in
  mkAdapter (take p old ++ replicate (p - length old)%nat x00 ++ bs
               ++ drop (p + length bs)%nat old)
            (p + length bs)%nat (_max_size st).

Definition empty_stream : EncoderStreamAdapter := mkAdapter [] 0%nat None.

(** A stream holding [bs], positioned at its start, with no read cap. *)
Definition stream_of (bs : list byte) : EncoderStreamAdapter := mkAdapter bs 0%nat None.

(** More bytes arriving on the underlying stream. *)
Definition feed (more : list byte) (st : EncoderStreamAdapter) : EncoderStreamAdapter :=
  mkAdapter (stream_bytes st ++ more) (stream_pos st) (_max_size st).

(** ** Field values *)

(** The attribute set of a field type: [MaxValue], [Bits], [Optional] and
    [ExplicitTag], each present or absent. *)
Record attributes : Type := mkAttrs {
  MaxValue : option Z;
  Bits : option Z;
  Optional : option bool;
  ExplicitTag : option Z
}.

Definition no_attributes : attributes := mkAttrs None None None None.

(** [PacketFieldType.GetAttribute(fieldType, attr, default)] *)
Definition GetAttribute {A : Type} (attr : option A) (default : A) : A :=
  match attr with
  | Some v => v
  | None => default
  end.

(** A field value: its category, its attributes and its data slot, where
    [None] is [PacketFieldType.UNSET]. A [LIST] carries its declared element
    type [elem] as an UNSET field; a [GROUP] is a [ComplexFieldType] over a
    [PacketFields] class with the raw fields of its [FIELDS] declaration,
    and [set = false] when its data slot is UNSET. *)
Inductive field : Type :=
| UINT (a : attributes) (d : option Z)
| INT (a : attributes) (d : option Z)
| BOOL (a : attributes) (d : option bool)
| FLOAT (a : attributes) (d : option float)
| STRING (a : attributes) (d : option str)
| BUFFER (a : attributes) (d : option (list byte))
| LIST (a : attributes) (elem : field) (d : option (list field))
| GROUP (a : attributes) (set : bool) (FIELDS : list (string * field)).

Definition attrs_of (f : field) : attributes :=
  match f with
  | UINT a _ | INT a _ | BOOL a _ | FLOAT a _ | STRING a _ | BUFFER a _
  | LIST a _ _ | GROUP a _ _ => a
  end.

(** [fieldType.data() == PacketFieldType.UNSET] *)
Definition is_unset (f : field) : bool :=
  match f with
  | UINT _ None | INT _ None | BOOL _ None | FLOAT _ None | STRING _ None
  | BUFFER _ None | LIST _ _ None | GROUP _ false _ => true
  | _ => false
  end.

(** A field of the same category and attributes with every data slot
    UNSET: what the caller hands to decode. *)
Fixpoint unset (f : field) : field :=
  match f with
  | UINT a _ => UINT a None
  | INT a _ => INT a None
  | BOOL a _ => BOOL a None
  | FLOAT a _ => FLOAT a None
  | STRING a _ => STRING a None
  | BUFFER a _ => BUFFER a None
  | LIST a elem _ => LIST a (unset elem) None
  | GROUP a _ FIELDS => GROUP a false (map (fun nf => (fst nf, unset (snd nf))) FIELDS)
  end.

(** ** Encoding: state and exceptions over the adapter *)

Definition M (A : Type) : Type := EncoderStreamAdapter -> res A * EncoderStreamAdapter.

Definition ret {A : Type} (a : A) : M A := fun st => (Ok a, st).

Definition bind {A B : Type} (m : M A) (k : A -> M B) : M B :=
  fun st =>
    match m st with
    | (Ok a, st') => k a st'
    | (Raise e, st') => (Raise e, st')
    end.

Definition lift {A : Type} (r : res A) : M A := fun st => (r, st).

(** [try: m except Exception as e: raise handler(e)] *)
Definition try_except {A : Type} (m : M A) (handler : exn -> exn) : M A :=
  fun st =>
    match m st with
    | (Raise e, st') => (Raise (handler e), st')
    | r => r
    end.

Declare Scope enc_scope.
Delimit Scope enc_scope with enc.
Notation "x <- m ;; k" := (bind m (fun x => k))
  (at level 100, m at next level, k at level 200, right associativity) : enc_scope.
Notation "m ;; k" := (bind m (fun _ => k))
  (at level 100, k at level 200, right associativity) : enc_scope.

(** [stream.pack(packCode, *args)]: [struct.pack] runs first, so nothing is
    written when it raises. *)
Definition pack (packed : res (list byte)) : M unit :=
  fun st =>
    match packed with
    | Ok bs => (Ok tt, write bs st)
    | Raise e => (Raise e, st)
    end.

Definition concat_packed (r1 r2 : res (list byte)) : res (list byte) :=
  match r1, r2 with
  | Ok b1, Ok b2 => Ok (b1 ++ b2)
  | Raise e, _ => Raise e
  | _, Raise e => Raise e
  end.

(** [struct.pack(code, v)] for the integer codes; UNSET is not an integer. *)
Definition struct_pack_int (c : packCode) (d : option Z) : res (list byte) :=
  match d with
  | None => Raise StructError
  | Some v =>
      match c with
      | code_B | code_H | code_I | code_Q => pack_unsigned (calcsize c) v
      | code_b | code_h | code_i | code_q => pack_signed (calcsize c) v
      | _ => Raise StructError
      end
  end.

Definition struct_unpack_int (c : packCode) (chunk : list byte) : Z :=
  match c with
  | code_b | code_h | code_i | code_q => unpack_signed chunk
  | _ => unpack_unsigned chunk
  end.

(** [PacketFieldType.UNSET] is an ordinary object, and Python objects are
    true unless they say otherwise: ["!?"] packs it as [True]. *)
Definition UNSET_truth : bool := true.

Definition struct_pack_bool (d : option bool) : res (list byte) :=
  Ok [if GetAttribute d UNSET_truth then x01 else x00].

Definition struct_unpack_bool (chunk : list byte) : bool :=
  negb (be_value chunk =? 0).

Definition struct_pack_float (c : packCode) (d : option float) : res (list byte) :=
  match d with
  | None => Raise StructError
  | Some x => pack_float c x
  end.

Module IntrinsicTypeStandardEncoder.
Definition encode (_getPackCode : res packCode) (packed : packCode -> res (list byte))
  : M unit :=
  (packCode <- lift _getPackCode ;; pack (packed packCode))%enc.
End IntrinsicTypeStandardEncoder.

Module FloatEncoder.
Definition SIZE_TO_PACKCODE : list (Z * packCode) := [(32, code_f); (64, code_d)].
Definition DEFAULT_BITS : Z := 32.

(** [SIZE_TO_PACKCODE_MAP[bits]]: a missing key is [KeyError]. *)
Fixpoint SIZE_TO_PACKCODE_MAP (table : list (Z * packCode)) (bits : Z) : res packCode :=
  match table with
  | [] => Raise (KeyError bits)
  | (size, packCode) :: rest =>
      if bits =? size then Ok packCode else SIZE_TO_PACKCODE_MAP rest bits
  end.

Definition _getPackCode (a : attributes) : res packCode :=
  let maxValue := GetAttribute (Bits a) DEFAULT_BITS in
  SIZE_TO_PACKCODE_MAP SIZE_TO_PACKCODE maxValue.
End FloatEncoder.

Module UintEncoder.
Definition SIZE_TO_PACKCODE : list (Z * packCode) :=
  [(2 ^ 8, code_B); (2 ^ 16, code_H); (2 ^ 32, code_I); (2 ^ 64, code_Q)].

Definition DEFAULT_MAXVALUE : Z := 2 ^ 32 - 1.

(** The [for ... break] loop: the loop variables as they stand when the
    loop is left, by [break] or at the end of the table. *)
Fixpoint for_break (maxValue : Z) (last : Z * packCode) (table : list (Z * packCode))
  : Z * packCode :=
  match table with
  | [] => last
  | (packMaxValue, packCode) :: rest =>
      if maxValue <? packMaxValue then (packMaxValue, packCode)
      else for_break maxValue (packMaxValue, packCode) rest
  end.

Definition _maxValueToPackCode (table : list (Z * packCode)) (maxValue : Z) : res packCode :=
  match table with
  | [] => Raise TypeError
  | first :: _ =>
      let '(packMaxValue, packCode) := for_break maxValue first table in
      if maxValue >=? packMaxValue then
        Raise (PacketEncodingError (CannotEncodeUintOfSize maxValue) None)
      else Ok packCode
  end.

Definition _getPackCode (table : list (Z * packCode)) (a : attributes) : res packCode :=
  let maxValue := GetAttribute (MaxValue a) DEFAULT_MAXVALUE in
  _maxValueToPackCode table maxValue.
End UintEncoder.

Module IntEncoder.
Definition SIZE_TO_PACKCODE : list (Z * packCode) :=
  [(2 ^ 8, code_b); (2 ^ 16, code_h); (2 ^ 32, code_i); (2 ^ 64, code_q)].
End IntEncoder.

Module StringEncoder.
Definition STRING_LENGTH_BYTES : Z := 2.
Definition MAX_LENGTH : Z := 2 ^ (8 * STRING_LENGTH_BYTES).

(** [strLen] is [len] of the [str], its number of code points, taken
    before the text is turned into UTF-8. *)
Definition encode (d : option str) : M unit :=
  match d with
  | None => lift (Raise TypeError)
  | Some data =>
      let strLen := length data in
      if Z.of_nat (length data) >? MAX_LENGTH then
        lift (Raise (PacketEncodingError (CannotEncodeStringLongerThan (Z.of_nat strLen)) None))
      else
        (strEncoded <- lift (utf8_encode data) ;;
         pack (concat_packed (pack_unsigned 2 (Z.of_nat strLen))
                             (Ok (pack_s strLen strEncoded))))%enc
  end.
End StringEncoder.

Module BufferEncoder.
Definition BUFFER_LENGTH_BYTES : Z := 8.
Definition MAX_LENGTH : Z := 2 ^ (8 * BUFFER_LENGTH_BYTES).

Definition encode (d : option (list byte)) : M unit :=
  match d with
  | None => lift (Raise TypeError)
  | Some data =>
      let bufLen := length data in
      if Z.of_nat bufLen >? MAX_LENGTH then
        lift (Raise (PacketEncodingError (CannotEncodeBufferLongerThan (Z.of_nat bufLen)) None))
      else
        pack (concat_packed (pack_unsigned 8 (Z.of_nat bufLen)) (Ok (pack_s bufLen data)))
  end.
End BufferEncoder.

(** ** Field groups: tags *)

(** Modelled from the spec: [Bijection] ([playground.common.datastructures])
    is not part of the source file; section 9 describes it as paired
    dictionaries with forward and inverse lookup, and a dictionary raises
    [KeyError] on a key it does not hold. *)
Record Bijection : Type := mkBijection {
  forward : gmap string Z;
  inverse : gmap Z string
}.

Definition Bijection_empty : Bijection := mkBijection ∅ ∅.

(** [fieldToTag[fieldName] = tag] *)
Definition Bijection_set (fieldName : string) (tag : Z) (b : Bijection) : Bijection :=
  mkBijection (<[fieldName := tag]> (forward b)) (<[tag := fieldName]> (inverse b)).

(** [fieldToTag[fieldName]] *)
Definition Bijection_get (b : Bijection) (fieldName : string) : res Z :=
  match forward b !! fieldName with
  | Some tag => Ok tag
  | None => Raise (KeyErrorName fieldName)
  end.

(** [fieldToTag.inverse()[fieldID]] *)
Definition Bijection_inverse_get (b : Bijection) (fieldID : Z) : res string :=
  match inverse b !! fieldID with
  | Some fieldName => Ok fieldName
  | None => Raise (KeyError fieldID)
  end.

Module PacketFieldsEncoder.

(** [while autoTag in fieldToTag.inverse(): autoTag += 1], run for at most
    [fuel] steps. *)
Fixpoint while_autoTag (fuel : nat) (inv : gmap Z string) (autoTag : Z) : Z :=
  match fuel with
  | O => autoTag
  | S fuel' =>
      match inv !! autoTag with
      | Some _ => while_autoTag fuel' inv (autoTag + 1)
      | None => autoTag
      end
  end.

Fixpoint _processFields_loop (fields : list (string * field)) (autoTag : Z)
    (fieldToTag : Bijection) : res Bijection :=
  match fields with
  | [] => Ok fieldToTag
  | (fieldName, fieldType) :: rest =>
      match forward fieldToTag !! fieldName with
      | Some _ => Raise (Exception DuplicateField)
      | None =>
          match ExplicitTag (attrs_of fieldType) with
          | Some tag =>
              match inverse fieldToTag !! tag with
              | Some _ => Raise (Exception DuplicateExplicitTag)
              | None => _processFields_loop rest autoTag (Bijection_set fieldName tag fieldToTag)
              end
          | None =>
              let autoTag' :=
                while_autoTag (S (size (inverse fieldToTag))) (inverse fieldToTag) autoTag in
              _processFields_loop rest autoTag' (Bijection_set fieldName autoTag' fieldToTag)
          end
      end
  end.

Definition _processFields (fields : list (string * field)) : res Bijection :=
  _processFields_loop fields 0 Bijection_empty.

(** The first loop of [encode]: the fields that have data, in declaration
    order. Each raw field comes with its encoding action [topEncoder.encode
    (stream, rawField)], which the second loop runs. *)
Fixpoint collect (raw : list (string * field * M unit)) : res (list (string * M unit)) :=
  match raw with
  | [] => Ok []
  | (fieldName, rawField, action) :: rest =>
      if is_unset rawField then
        if bool_decide (GetAttribute (Optional (attrs_of rawField)) false = true)
        then collect rest
        else Raise (PacketEncodingError (FieldUnsetNotOptional fieldName) None)
      else
        match collect rest with
        | Ok encodeFields => Ok ((fieldName, action) :: encodeFields)
        | Raise e => Raise e
        end
  end.

Fixpoint write_fields (fieldToTag : Bijection) (encodeFields : list (string * M unit))
  : M unit :=
  match encodeFields with
  | [] => ret tt
  | (fieldName, action) :: rest =>
      (try_except
         (tag <- lift (Bijection_get fieldToTag fieldName) ;;
          pack (pack_unsigned 2 tag) ;;
          action)
         (fun encodingException =>
            PacketEncodingError (ErrorEncodingField fieldName) (Some encodingException)) ;;
       write_fields fieldToTag rest)%enc
  end.

Definition encode (topEncoder : field -> M unit) (FIELDS : list (string * field)) : M unit :=
  (fieldToTag <- lift (_processFields FIELDS) ;;
   encodeFields <-
     lift (collect (map (fun nf => (fst nf, snd nf, topEncoder (snd nf))) FIELDS)) ;;
   pack (pack_unsigned 2 (Z.of_nat (length encodeFields))) ;;
   write_fields fieldToTag encodeFields)%enc.

End PacketFieldsEncoder.

Module ListEncoder.
Fixpoint encode_items (actions : list (M unit)) : M unit :=
  match actions with
  | [] => ret tt
  | action :: rest => (action ;; encode_items rest)%enc
  end.

Definition encode (topEncoder : field -> M unit) (items : list field) : M unit :=
  (pack (pack_unsigned 2 (Z.of_nat (length items))) ;;
   encode_items (map topEncoder items))%enc.
End ListEncoder.

(** [PlaygroundStandardPacketEncoder.encode]: [GetTypeEncoder] finds the
    encoder registered for the category of the field, and the encoder gets
    the top-level encoder back for the nested fields. Every category of
    [field] has a registered encoder, so "Cannot encode fields of type" does
    not arise here. *)
Fixpoint encode (fieldType : field) : M unit :=
  match fieldType with
  | UINT a d =>
      IntrinsicTypeStandardEncoder.encode
        (UintEncoder._getPackCode UintEncoder.SIZE_TO_PACKCODE a)
        (fun packCode => struct_pack_int packCode d)
  | INT a d =>
      IntrinsicTypeStandardEncoder.encode
        (UintEncoder._getPackCode IntEncoder.SIZE_TO_PACKCODE a)
        (fun packCode => struct_pack_int packCode d)
  | BOOL a d =>
      IntrinsicTypeStandardEncoder.encode (Ok code_bool) (fun _ => struct_pack_bool d)
  | FLOAT a d =>
      IntrinsicTypeStandardEncoder.encode
        (FloatEncoder._getPackCode a)
        (fun packCode => struct_pack_float packCode d)
  | STRING a d => StringEncoder.encode d
  | BUFFER a d => BufferEncoder.encode d
  | LIST a elem d =>
      match d with
      | Some items => ListEncoder.encode encode items
      | None => lift (Raise TypeError)
      end
  | GROUP a set FIELDS =>
      if set then PacketFieldsEncoder.encode encode FIELDS
      else lift (Raise AttributeError)
  end.

(** The bytes that [encode] leaves on a fresh stream. *)
Definition encoded (fieldType : field) : res (list byte) :=
  match encode fieldType empty_stream with
  | (Ok _, st) => Ok (stream_bytes st)
  | (Raise e, _) => Raise e
  end.

(** ** Decoding: generators that wait for the stream *)

(** A decoding generator, as the tree of what it may still do. [Unpack] is
    a call of [unpackIterator]: [wrap] is what the enclosing [try] blocks
    make of an exception raised there. [Await] is the same call suspended in
    its [while self.available() < unpackSize] loop, after the size check.
    [ReadAndRaise n e] is [stream.read(n)] followed by [raise e]. [OutOfFuel]
    stands for a loop that was cut off by its bound. *)
Inductive Gen (A : Type) : Type :=
| Return (a : A)
| Fail (e : exn)
| Unpack (unpackSize : nat) (wrap : exn -> exn) (k : list byte -> Gen A)
| Await (unpackSize : nat) (k : list byte -> Gen A)
| Tell (k : nat -> Gen A)
| Seek (p : nat) (k : Gen A)
| SetMaxSize (n : Z) (k : Gen A)
| ReadAndRaise (n : Z) (e : exn)
| OutOfFuel.
Arguments Return {A} a.
Arguments Fail {A} e.
Arguments Unpack {A} unpackSize wrap k.
Arguments Await {A} unpackSize k.
Arguments Tell {A} k.
Arguments Seek {A} p k.
Arguments SetMaxSize {A} n k.
Arguments ReadAndRaise {A} n e.
Arguments OutOfFuel {A}.

(** [b = yield from a; ...] *)
Fixpoint bindG {A B : Type} (g : Gen A) (f : A -> Gen B) : Gen B :=
  match g with
  | Return a => f a
  | Fail e => Fail e
  | Unpack n wrap k => Unpack n wrap (fun chunk => bindG (k chunk) f)
  | Await n k => Await n (fun chunk => bindG (k chunk) f)
  | Tell k => Tell (fun p => bindG (k p) f)
  | Seek p k => Seek p (bindG k f)
  | SetMaxSize n k => SetMaxSize n (bindG k f)
  | ReadAndRaise n e => ReadAndRaise n e
  | OutOfFuel => OutOfFuel
  end.

(** [try: yield from g except Exception as e: raise handler(e)] *)
Fixpoint try_exceptG {A : Type} (g : Gen A) (handler : exn -> exn) : Gen A :=
  match g with
  | Return a => Return a
  | Fail e => Fail (handler e)
  | Unpack n wrap k =>
      Unpack n (fun e => handler (wrap e)) (fun chunk => try_exceptG (k chunk) handler)
  | Await n k => Await n (fun chunk => try_exceptG (k chunk) handler)
  | Tell k => Tell (fun p => try_exceptG (k p) handler)
  | Seek p k => Seek p (try_exceptG k handler)
  | SetMaxSize n k => SetMaxSize n (try_exceptG k handler)
  | ReadAndRaise n e => ReadAndRaise n (handler e)
  | OutOfFuel => OutOfFuel
  end.

Definition liftG {A : Type} (r : res A) : Gen A :=
  match r with
  | Ok a => Return a
  | Raise e => Fail e
  end.

Declare Scope gen_scope.
Delimit Scope gen_scope with gen.
Notation "x <- m ;; k" := (bindG m (fun x => k))
  (at level 100, m at next level, k at level 200, right associativity) : gen_scope.
Notation "m ;; k" := (bindG m (fun _ => k))
  (at level 100, k at level 200, right associativity) : gen_scope.

(** What a generator does when it is run, or resumed, on a stream: it
    returns, raises, or yields [DECODE_WAITING_FOR_STREAM] and stays
    suspended as [g]. *)
Inductive outcome (A : Type) : Type :=
| Done (a : A) (st : EncoderStreamAdapter)
| Raised (e : exn) (st : EncoderStreamAdapter)
| Waiting (g : Gen A) (st : EncoderStreamAdapter)
| Diverged.
Arguments Done {A} a st.
Arguments Raised {A} e st.
Arguments Waiting {A} g st.
Arguments Diverged {A}.

(** [if self._max_size and unpackSize > self._max_size] *)
Definition exceeds_max_size (st : EncoderStreamAdapter) (unpackSize : nat) : bool :=
  match _max_size st with
  | None => false
  | Some m => negb (m =? 0) && (Z.of_nat unpackSize >? m)
  end.

Fixpoint run {A : Type} (g : Gen A) (st : EncoderStreamAdapter) : outcome A :=
  match g with
  | Return a => Done a st
  | Fail e => Raised e st
  | Unpack n wrap k =>
      if exceeds_max_size st n then
        Raised (wrap (Exception (UnpackSizeExceedsLimit (Z.of_nat n)
                                   (GetAttribute (_max_size st) 0)))) st
      else if (available st <? n)%nat then Waiting (Await n k) st
      else let '(unpackChunk, st') := read (Z.of_nat n) st in run (k unpackChunk) st'
  | Await n k =>
      if (available st <? n)%nat then Waiting (Await n k) st
      else let '(unpackChunk, st') := read (Z.of_nat n) st in run (k unpackChunk) st'
  | Tell k => run (k (tell st)) st
  | Seek p k => run k (seek p st)
  | SetMaxSize n k => run k (set_max_size n st)
  | ReadAndRaise n e => Raised e (snd (read n st))
  | OutOfFuel => Diverged
  end.

(** [EncoderStreamAdapter.unpackIterator(packCode)], by the size of the
    code; [struct.unpack] cannot fail on a chunk of exactly that size. *)
Definition unpackIterator (unpackSize : nat) : Gen (list byte) :=
  Unpack unpackSize (fun e => e) Return.

Definition unpack_int (c : packCode) : Gen Z :=
  (chunk <- unpackIterator (calcsize c) ;; Return (struct_unpack_int c chunk))%gen.

Module IntrinsicTypeStandardDecoder.
Definition decodeIterator {D : Type} (_getPackCode : res packCode)
    (unpacked : packCode -> list byte -> D) (setData : D -> field) : Gen field :=
  (packCode <- liftG _getPackCode ;;
   chunk <- unpackIterator (calcsize packCode) ;;
   Return (setData (unpacked packCode chunk)))%gen.
End IntrinsicTypeStandardDecoder.

Module StringDecoder.
Definition decodeIterator (setData : str -> field) : Gen field :=
  (strLen <- unpack_int code_H ;;
   strEncoded <- unpackIterator (Z.to_nat strLen) ;;
   strDecoded <- liftG (utf8_decode strEncoded) ;;
   Return (setData strDecoded))%gen.
End StringDecoder.

Module BufferDecoder.
Definition decodeIterator (setData : list byte -> field) : Gen field :=
  (bufLen <- unpack_int code_Q ;;
   bufData <- unpackIterator (Z.to_nat bufLen) ;;
   Return (setData bufData))%gen.
End BufferDecoder.

Module ListDecoder.
(** [for i in range(listSize)] from index [i], with the items decoded so
    far; [item] decodes into the raw item that [append(UNSET)] created. *)
Fixpoint decode_items (item : Gen field) (count : nat) (i : nat) (items : list field)
  : Gen (list field) :=
  match count with
  | O => Return items
  | S count' =>
      (rawListData <-
         try_exceptG item (fun _ => PacketEncodingError (ErrorDecodingIndex i) None) ;;
       decode_items item count' (S i) (items ++ [rawListData]))%gen
  end.

Definition decodeIterator (item : Gen field) (setData : list field -> field) : Gen field :=
  (listSize <- unpack_int code_H ;;
   items <- decode_items item (Z.to_nat listSize) 0%nat [] ;;
   Return (setData items))%gen.
End ListDecoder.

(** [packetFields.__getrawfield__(fieldName)], read and written back. *)
Fixpoint get_raw {V : Type} (fieldName : string) (raw : list (string * V)) : res V :=
  match raw with
  | [] => Raise AttributeError
  | (n, v) :: rest => if String.eqb n fieldName then Ok v else get_raw fieldName rest
  end.

Fixpoint set_raw {V : Type} (fieldName : string) (v : V) (raw : list (string * V))
  : list (string * V) :=
  match raw with
  | [] => []
  | (n, old) :: rest =>
      if String.eqb n fieldName then (n, v) :: rest else (n, old) :: set_raw fieldName v rest
  end.

Module PacketFieldsDecoder.
(** Modelled from the spec: [initializeData()] is not part of the source
    file; section 4.5: "Initialize the inner data slot so its fields are
    addressable", for a target that section 3 has initially UNSET. *)
Definition initializeData (FIELDS : list (string * field)) : list (string * field) :=
  map (fun nf => (fst nf, unset (snd nf))) FIELDS.

(** [for i in range(fieldCount)], with the raw fields as filled so far;
    [decoders] holds [topDecoder.decodeIterator(stream, rawField)] for each
    declared field. *)
Fixpoint decode_fields (fieldToTag : Bijection) (decoders : list (string * Gen field))
    (count : nat) (raw : list (string * field)) : Gen (list (string * field)) :=
  match count with
  | O => Return raw
  | S count' =>
      (fieldID <- unpack_int code_H ;;
       fieldName <- liftG (Bijection_inverse_get fieldToTag fieldID) ;;
       decoder <- liftG (get_raw fieldName decoders) ;;
       rawField <-
         try_exceptG decoder
           (fun encodingException =>
              PacketEncodingError (ErrorDecodingField fieldName) (Some encodingException)) ;;
       decode_fields fieldToTag decoders count' (set_raw fieldName rawField raw))%gen
  end.

Definition decodeIterator (topDecoder : field -> Gen field) (FIELDS : list (string * field))
  : Gen (list (string * field)) :=
  (fieldToTag <- liftG (PacketFieldsEncoder._processFields FIELDS) ;;
   fieldCount <- unpack_int code_H ;;
   decode_fields fieldToTag (map (fun nf => (fst nf, topDecoder (snd nf))) FIELDS)
     (Z.to_nat fieldCount) (initializeData FIELDS))%gen.
End PacketFieldsDecoder.

(** [PlaygroundStandardPacketEncoder.decodeIterator]: the decoder of the
    category fills the field that the caller supplies. *)
Fixpoint decodeIterator (fieldType : field) : Gen field :=
  match fieldType with
  | UINT a _ =>
      IntrinsicTypeStandardDecoder.decodeIterator
        (UintEncoder._getPackCode UintEncoder.SIZE_TO_PACKCODE a)
        struct_unpack_int (fun data => UINT a (Some data))
  | INT a _ =>
      IntrinsicTypeStandardDecoder.decodeIterator
        (UintEncoder._getPackCode IntEncoder.SIZE_TO_PACKCODE a)
        struct_unpack_int (fun data => INT a (Some data))
  | BOOL a _ =>
      IntrinsicTypeStandardDecoder.decodeIterator
        (Ok code_bool) (fun _ => struct_unpack_bool) (fun data => BOOL a (Some data))
  | FLOAT a _ =>
      IntrinsicTypeStandardDecoder.decodeIterator
        (FloatEncoder._getPackCode a) unpack_float (fun data => FLOAT a (Some data))
  | STRING a _ => StringDecoder.decodeIterator (fun data => STRING a (Some data))
  | BUFFER a _ => BufferDecoder.decodeIterator (fun data => BUFFER a (Some data))
  | LIST a elem _ =>
      ListDecoder.decodeIterator (decodeIterator elem) (fun items => LIST a elem (Some items))
  | GROUP a _ FIELDS =>
      (raw <- PacketFieldsDecoder.decodeIterator decodeIterator FIELDS ;;
       Return (GROUP a true raw))%gen
  end.

(** [PlaygroundStandardPacketEncoder.decode] drives the generator on the
    stream as it is. *)
Definition decode (fieldType : field) (st : EncoderStreamAdapter) : outcome field :=
  run (decodeIterator fieldType) st.

(** ** Framed packets *)

(** A [NamedPacketType] instance: its definition identifier and version,
    and the raw fields of its [FIELDS] declaration. *)
Record Packet : Type := mkPacket {
  DEFINITION_IDENTIFIER : str;
  DEFINITION_VERSION : str;
  packet_FIELDS : list (string * field)
}.

Definition tellM : M nat := fun st => (Ok (tell st), st).
Definition seekM (p : nat) : M unit := fun st => (Ok tt, seek p st).

Definition LENGTH_CHECK_MASK : Z := 18446744073709551615. (* 0xFFFFFFFFFFFFFFFF *)

Section NamedPackets.
(** [playground.common.Version] is outside the source file: the type of
    parsed versions and [Version.FromString] are parameters. *)
Variable Version : Type.
Variable FromString : str -> res Version.

(** A [ComplexFieldType] over a [NamedPacketType]: the definitions store
    of its base packet type, and its data slot. *)
Record PacketField : Type := mkPacketField {
  getDefinition : str -> Version -> option Packet;
  packet_data : option Packet
}.

Definition setData (complexType : PacketField) (packet : Packet) : PacketField :=
  mkPacketField (getDefinition complexType) (Some packet).

Definition PacketEncoder_encode (complexType : PacketField) : M unit :=
  (packetStartPosition <- tellM ;;
   packet <- lift (match packet_data complexType with
                   | Some packet => Ok packet
                   | None => Raise AttributeError
                   end) ;;
   packetDefEncoded <- lift (utf8_encode (DEFINITION_IDENTIFIER packet)) ;;
   packetVerEncoded <- lift (utf8_encode (DEFINITION_VERSION packet)) ;;
   pack (concat_packed (pack_unsigned 8 0)
        (concat_packed (pack_unsigned 8 0)
        (concat_packed (pack_unsigned 1 (Z.of_nat (length packetDefEncoded)))
        (concat_packed (Ok (pack_s (length packetDefEncoded) packetDefEncoded))
        (concat_packed (pack_unsigned 1 (Z.of_nat (length packetVerEncoded)))
                       (Ok (pack_s (length packetVerEncoded) packetVerEncoded))))))) ;;
   PacketFieldsEncoder.encode encode (packet_FIELDS packet) ;;
   packetEndPosition <- tellM ;;
   let packetLength := Z.of_nat packetEndPosition - Z.of_nat packetStartPosition in
   seekM packetStartPosition ;;
   pack (pack_unsigned 8 packetLength) ;;
   pack (pack_unsigned 8 (Z.lxor packetLength LENGTH_CHECK_MASK)) ;;
   seekM packetEndPosition)%enc.

(** [while not packetLengthFound], for at most [fuel] rounds: the loop
    returns the length it locked on and the start position it found. *)
Fixpoint resync (fuel : nat) (packetStartPosition : nat) : Gen (Z * nat) :=
  match fuel with
  | O => OutOfFuel
  | S fuel' =>
      (packetLength <- unpack_int code_Q ;;
       packetLengthCompare <- unpack_int code_Q ;;
       let packetLengthCompare := Z.lxor packetLengthCompare LENGTH_CHECK_MASK in
       if negb (packetLength =? packetLengthCompare) then
         let packetStartPosition := S packetStartPosition in
         Seek packetStartPosition (resync fuel' packetStartPosition)
       else Return (packetLength, packetStartPosition))%gen
  end.

(** The part of [decodeIterator] between the lock and the frame tail: the
    read cap, the identifier and the version, the lookup of the definition
    and the body. It returns [packetType] and the filled field. *)
Definition decode_locked (complexType : PacketField) (packetLength : Z)
  : Gen (option Packet * PacketField) :=
  (SetMaxSize packetLength (Return tt) ;;
   nameLen <- unpack_int code_B ;;
   name <- unpackIterator (Z.to_nat nameLen) ;;
   name <- liftG (utf8_decode name) ;;
   versionLen <- unpack_int code_B ;;
   version <- unpackIterator (Z.to_nat versionLen) ;;
   version <- liftG (utf8_decode version) ;;
   version <- liftG (FromString version) ;;
   let packetType := getDefinition complexType name version in
   match packetType with
   | None => Return (packetType, complexType)
   | Some packet =>
       raw <- PacketFieldsDecoder.decodeIterator decodeIterator (packet_FIELDS packet) ;;
       Return (packetType,
               setData complexType
                 (mkPacket (DEFINITION_IDENTIFIER packet) (DEFINITION_VERSION packet) raw))
   end)%gen.

(** The frame tail: [bytesUsed], [unreadBytes] and the two error exits. *)
Definition frame_tail (packetLength : Z) (packetStartPosition : nat)
    (packetType : option Packet) (decoded : PacketField) : Gen PacketField :=
  Tell (fun position =>
    let bytesUsed := Z.of_nat position - Z.of_nat packetStartPosition in
    let unreadBytes := packetLength - bytesUsed in
    if negb (unreadBytes =? 0) then
      ReadAndRaise unreadBytes (Exception (PacketSizeMismatch packetLength bytesUsed))
    else
      match packetType with
      | None => Fail (Exception PacketTypeUnresolved)
      | Some _ => Return decoded
      end).

Definition PacketEncoder_decodeIterator (fuel : nat) (complexType : PacketField)
  : Gen PacketField :=
  Tell (fun packetStartPosition =>
    (locked <- resync fuel packetStartPosition ;;
     result <- decode_locked complexType (fst locked) ;;
     frame_tail (fst locked) (snd locked) (fst result) (snd result))%gen).
End NamedPackets.

Arguments mkPacketField {Version} getDefinition packet_data.
Arguments getDefinition {Version} p.
Arguments packet_data {Version} p.
Arguments setData {Version} complexType packet.
Arguments PacketEncoder_encode {Version} complexType.
Arguments decode_locked {Version} FromString complexType packetLength.
Arguments frame_tail {Version} packetLength packetStartPosition packetType decoded.
Arguments PacketEncoder_decodeIterator {Version} FromString fuel complexType.

(** ** Classes and the registry of type encoders *)

(** A Python class, as far as the registry looks at it: its name, which
    stands for its identity, and its [__bases__]. A class has finitely many
    ancestors and is not its own ancestor, so a class with its ancestry is a
    tree; a class that is reached along two lines of inheritance stands in
    the tree twice, as [iterateClassAncestors], which keeps no record of the
    classes it has seen, meets it twice. *)
Inductive class : Type :=
| Class (name : string) (bases : list class).

Definition __name__ (cls : class) : string :=
  match cls with Class name _ => name end.

Definition __bases__ (cls : class) : list class :=
  match cls with Class _ bases => bases end.

(** [cls in classes] *)
Definition class_in (cls : class) (classes : list class) : bool :=
  bool_decide (__name__ cls ∈ map __name__ classes).

(** The number of classes in the tree of a class. *)
Fixpoint class_size (cls : class) : nat :=
  match cls with
  | Class _ bases => S (list_sum (map class_size bases))
  end.

(** [while queue:] of [iterateClassAncestors], with the classes it yields
    in the order in which it yields them, for at most [fuel] rounds. *)
Fixpoint iterateClassAncestors_loop (fuel : nat) (terminals queue : list class)
  : list class :=
  match fuel with
  | O => []
  | S fuel' =>
      match queue with
      | [] => []
      | nextClass :: queue =>
          let queue :=
            if negb (class_in nextClass terminals) then queue ++ __bases__ nextClass
            else queue in
          nextClass :: iterateClassAncestors_loop fuel' terminals queue
      end
  end.

(** [iterateClassAncestors(cls, terminals)]: each round takes one class
    from the queue, and the queue never holds more classes than the tree of
    [cls] has left, so that [class_size cls] rounds empty it. *)
Definition iterateClassAncestors (cls : class) (terminals : option (list class))
  : list class :=
  let terminals := match terminals with None => [] | Some terminals => terminals end in
  iterateClassAncestors_loop (class_size cls) terminals [cls].

(** [issubclass(cls, base)] *)
Definition issubclass (cls base : class) : bool :=
  class_in base (iterateClassAncestors cls None).

(** What the registry is asked about: a class; an instance of
    [ComplexFieldType], of class [cls] and with what its [dataType()]
    returns; or an instance of any other class. *)
Inductive object : Type :=
| class_object (cls : class)
| complex_instance (cls : class) (dataType : object)
| instance (cls : class).

(** The keys of [__TypeEncoders]: a class, or a pair of classes. *)
Definition typeKey : Type := string * option string.
Definition class_key (cls : class) : typeKey := (__name__ cls, None).
Definition pair_key (cls specific : class) : typeKey := (__name__ cls, Some (__name__ specific)).

(** The exceptions of the registry: [Exception("Playground Standard Packet
    Encoder only registers proper PacketFieldType's")], the [AttributeError]
    of [__bases__] on an object that is not a class, and the [StopIteration]
    of [next] on a generator that has nothing to yield. *)
Inductive registry_error : Type :=
| OnlyProperPacketFieldTypes
| NoBases
| StopIteration.

Section Registry.
(** The two root classes of [playground.network.packet.fieldtypes], and the
    type of the encoders that are registered. *)
Variable PacketFieldType ComplexFieldType : class.
Variable Encoder : Type.

(** [_GetTypeKey(encodingType)], with the keys in the order in which the
    generator yields them. An exception is raised before the first key, if
    at all. The [raise] inside the [try] is caught by the bare [except], so
    that the one message leaves the function for a class that is no
    [PacketFieldType] and for an object that is no class. An instance
    counts as true, as Python objects do unless they say otherwise. *)
Definition _GetTypeKey (encodingType : object) : registry_error + list typeKey :=
  let specificEncodingType : option object :=
    match encodingType with
    | complex_instance _ dataType =>
        match dataType with
        | class_object _ => Some dataType
        | complex_instance cls _ | instance cls =>
            if issubclass cls PacketFieldType then Some (class_object cls) else Some dataType
        end
    | _ => None
    end in
  let encodingType :=
    match encodingType with
    | complex_instance cls _ => class_object cls
    | instance cls =>
        if issubclass cls PacketFieldType then class_object cls else encodingType
    | class_object _ => encodingType
    end in
  match encodingType with
  | class_object encodingType =>
      if issubclass encodingType PacketFieldType then
        let outer :=
          iterateClassAncestors encodingType (Some [PacketFieldType; ComplexFieldType]) in
        match specificEncodingType with
        | None => inr (map class_key outer)
        | Some (class_object specificEncodingType) =>
            inr (flat_map
                   (fun encodingTypeClass =>
                      map (pair_key encodingTypeClass)
                          (iterateClassAncestors specificEncodingType
                             (Some [PacketFieldType])))
                   outer)
        | Some _ => inl NoBases
        end
      else inl OnlyProperPacketFieldTypes
  | _ => inl OnlyProperPacketFieldTypes
  end.

(** [RegisterTypeEncoder(encodingType, encoder)] on the dictionary
    [__TypeEncoders]. *)
Definition RegisterTypeEncoder (encodingType : object) (encoder : Encoder)
    (__TypeEncoders : gmap typeKey Encoder) : registry_error + gmap typeKey Encoder :=
  match _GetTypeKey encodingType with
  | inl e => inl e
  | inr [] => inl StopIteration
  | inr (key :: _) => inr (<[key := encoder]> __TypeEncoders)
  end.

(** The loop of [GetTypeEncoder]: the first key that has an encoder. *)
Fixpoint first_encoder (__TypeEncoders : gmap typeKey Encoder) (keys : list typeKey)
  : option Encoder :=
  match keys with
  | [] => None
  | encodingKey :: rest =>
      match __TypeEncoders !! encodingKey with
      | Some encoder => Some encoder
      | None => first_encoder __TypeEncoders rest
      end
  end.

Definition GetTypeEncoder (encodingType : object) (__TypeEncoders : gmap typeKey Encoder)
  : registry_error + option Encoder :=
  match _GetTypeKey encodingType with
  | inl e => inl e
  | inr keys => inr (first_encoder __TypeEncoders keys)
  end.
End Registry.

Arguments RegisterTypeEncoder PacketFieldType ComplexFieldType {Encoder}
  encodingType encoder __TypeEncoders.
Arguments first_encoder {Encoder} __TypeEncoders keys.
Arguments GetTypeEncoder PacketFieldType ComplexFieldType {Encoder}
  encodingType __TypeEncoders.

(** ** Vocabulary of the properties *)

(** The width that the spec gives for a declared [MaxValue]: the smallest
    of 1, 2, 4 and 8 bytes whose range exceeds it. *)
Definition smallest_width (maxValue : Z) : nat :=
  if maxValue <? 2 ^ 8 then 1
  else if maxValue <? 2 ^ 16 then 2
  else if maxValue <? 2 ^ 32 then 4
  else 8.

Definition declared_MaxValue (a : attributes) : Z :=
  GetAttribute (MaxValue a) UintEncoder.DEFAULT_MAXVALUE.

(** The adapter after [n] more bytes have been consumed. *)
Definition advance (n : nat) (st : EncoderStreamAdapter) : EncoderStreamAdapter :=
  mkAdapter (stream_bytes st) (stream_pos st + n)%nat (_max_size st).

(** The bytes from the stream position on. *)
Definition remaining (st : EncoderStreamAdapter) : list byte :=
  drop (stream_pos st) (stream_bytes st).

(** [st] holds [bs] at its position, followed by [tail]. *)
Definition holds (st : EncoderStreamAdapter) (bs tail : list byte) : Prop :=
  remaining st = bs ++ tail.

Definition int_field (signed : bool) (a : attributes) (d : option Z) : field :=
  if signed then INT a d else UINT a d.

Definition int_table (signed : bool) : list (Z * packCode) :=
  if signed then IntEncoder.SIZE_TO_PACKCODE else UintEncoder.SIZE_TO_PACKCODE.

(** The values that [struct] packs in [w] bytes. *)
Definition representable (signed : bool) (w : nat) (v : Z) : Prop :=
  if signed then - (256 ^ Z.of_nat w / 2) <= v < 256 ^ Z.of_nat w / 2
  else 0 <= v < 256 ^ Z.of_nat w.

(** The assignment that section 4.5 describes, as a relation between the
    tags given so far, the declarations still to come and the final tags:
    a name may not repeat; an explicit tag may not be taken; a field
    without one gets the smallest nonnegative integer not yet used. *)
Inductive assigns : list (string * Z) -> list (string * field) -> list (string * Z) -> Prop :=
| assigns_done acc : assigns acc [] acc
| assigns_explicit acc fieldName fieldType tag rest out :
    fieldName ∉ map fst acc ->
    ExplicitTag (attrs_of fieldType) = Some tag ->
    tag ∉ map snd acc ->
    assigns (acc ++ [(fieldName, tag)]) rest out ->
    assigns acc ((fieldName, fieldType) :: rest) out
| assigns_auto acc fieldName fieldType tag rest out :
    fieldName ∉ map fst acc ->
    ExplicitTag (attrs_of fieldType) = None ->
    0 <= tag ->
    tag ∉ map snd acc ->
    (forall t, 0 <= t < tag -> t ∈ map snd acc) ->
    assigns (acc ++ [(fieldName, tag)]) rest out ->
    assigns acc ((fieldName, fieldType) :: rest) out.

(** The bijection holds exactly the pairs of [acc]. *)
Definition represents (acc : list (string * Z)) (b : Bijection) : Prop :=
  (forall n t, forward b !! n = Some t <-> (n, t) ∈ acc) /\
  (forall t n, inverse b !! t = Some n <-> (n, t) ∈ acc).

(** The declaration of a raw field: its name and its type with the data
    slot left out. *)
Definition declaration (nf : string * field) : string * field := (fst nf, unset (snd nf)).

(** A generator run to its outcome, then continued: what [run] makes of
    [bindG]. *)
Definition bind_outcome {A B : Type} (o : outcome A) (f : A -> Gen B) : outcome B :=
  match o with
  | Done a st => run (f a) st
  | Raised e st => Raised e st
  | Waiting g st => Waiting (bindG g f) st
  | Diverged => Diverged
  end.

Definition try_outcome {A : Type} (o : outcome A) (handler : exn -> exn) : outcome A :=
  match o with
  | Done a st => Done a st
  | Raised e st => Raised (handler e) st
  | Waiting g st => Waiting (try_exceptG g handler) st
  | Diverged => Diverged
  end.

(** The exception is of the class [PacketEncodingError]. *)
Definition is_PacketEncodingError (e : exn) : bool :=
  match e with
  | PacketEncodingError _ _ => true
  | _ => false
  end.

(** The generator never asks for the stream position and never moves it
    other than by reading. *)
Fixpoint position_free {A : Type} (g : Gen A) : Prop :=
  match g with
  | Unpack _ _ k | Await _ k => forall chunk, position_free (k chunk)
  | Tell _ | Seek _ _ => False
  | SetMaxSize _ k => position_free k
  | _ => True
  end.

(** The generator, started at position [pos] of a stream of at least [hw]
    bytes, never seeks beyond the bytes it has seen. *)
Fixpoint tracks {A : Type} (g : Gen A) (pos hw : nat) : Prop :=
  match g with
  | Unpack n _ k | Await n k => forall chunk, tracks (k chunk) (pos + n) (Nat.max hw (pos + n))
  | Tell k => tracks (k pos) pos hw
  | Seek p k => (p <= hw)%nat /\ tracks k p hw
  | SetMaxSize _ k => tracks k pos hw
  | _ => True
  end.

(** The stream position is within the stream. *)
Definition in_range (st : EncoderStreamAdapter) : Prop :=
  (stream_pos st <= length (stream_bytes st))%nat.

(** Whenever the action succeeds, what it did to the stream is one write
    at the position. *)
Definition appends {A : Type} (m : M A) : Prop :=
  forall st a st', in_range st -> m st = (Ok a, st') -> exists bs, st' = write bs st.

(** The action succeeds on every stream and writes [bs] at the position. *)
Definition emits (m : M unit) (bs : list byte) : Prop :=
  forall st, in_range st -> m st = (Ok tt, write bs st).

(** The frame that an encoder left on the stream between the position it
    started from and the position it ended at. *)
Definition frame_between (st st' : EncoderStreamAdapter) : list byte :=
  take (stream_pos st' - stream_pos st) (drop (stream_pos st) (stream_bytes st')).

(** The packet of the spec's scenario 6: identifier "demo", version
    "1.0.0", no fields. *)
Definition demo_packet : Packet :=
  mkPacket (str_of_string "demo") (str_of_string "1.0.0") [].

Definition demo_field : PacketField unit :=
  mkPacketField (fun _ _ => None) (Some demo_packet).

(** Reads of up to [n] bytes pass the size check of [unpackIterator]. *)
Definition fits (st : EncoderStreamAdapter) (n : nat) : Prop :=
  match _max_size st with
  | None => True
  | Some m => m = 0 \/ Z.of_nat n <= m
  end.

(** On every stream that holds [bs] at its position, the generator
    returns [v] and leaves the position behind [bs]. *)
Definition decodes {A : Type} (g : Gen A) (bs : list byte) (v : A) : Prop :=
  forall st tail, holds st bs tail -> fits st (length bs) ->
                  run g st = Done v (advance (length bs) st).

(** The floats that a pack code carries without loss: every double under
    ["!d"], and under ["!f"] the doubles that are binary32 numbers. *)
Definition exact_float (c : packCode) (x : float) : Prop :=
  match c with
  | code_d => True
  | code_f => SpecFloat.valid_binary 24 128 (Prim2SF x) = true
  | _ => False
  end.

(** The values whose encoding the codec can give back: data slots are
    set and within what the declared attributes can carry; text is ASCII
    (one byte per code point) and at most 65535 long; the items of a LIST
    have its declared element type; the declaration of a GROUP gets its
    tags, the tags on the wire fit two bytes, and a member is either valid
    itself or UNSET, [Optional] and empty throughout. *)
Inductive valid : field -> Prop :=
| valid_UINT a v :
    declared_MaxValue a < 2 ^ 64 ->
    representable false (smallest_width (declared_MaxValue a)) v ->
    valid (UINT a (Some v))
| valid_INT a v :
    declared_MaxValue a < 2 ^ 64 ->
    representable true (smallest_width (declared_MaxValue a)) v ->
    valid (INT a (Some v))
| valid_BOOL a b : valid (BOOL a (Some b))
| valid_FLOAT a c x :
    FloatEncoder._getPackCode a = Ok c ->
    exact_float c x ->
    valid (FLOAT a (Some x))
| valid_STRING a s :
    Z.of_nat (length s) <= 65535 ->
    Forall (fun c => 0 <= c < 128) s ->
    valid (STRING a (Some s))
| valid_BUFFER a bs :
    Z.of_nat (length bs) < 2 ^ 64 ->
    valid (BUFFER a (Some bs))
| valid_LIST a elem items :
    Z.of_nat (length items) <= 65535 ->
    unset elem = elem ->
    Forall (fun x => valid x /\ unset x = elem) items ->
    valid (LIST a elem (Some items))
| valid_GROUP a FIELDS fieldToTag :
    PacketFieldsEncoder._processFields FIELDS = Ok fieldToTag ->
    (forall n f t, (n, f) ∈ FIELDS -> is_unset f = false ->
                   forward fieldToTag !! n = Some t -> 0 <= t < 65536) ->
    Z.of_nat (length (filter (fun nf => is_unset (snd nf) = false) FIELDS)) <= 65535 ->
    Forall (fun nf => valid (snd nf) \/
                      (is_unset (snd nf) = true /\
                       Optional (attrs_of (snd nf)) = Some true /\
                       unset (snd nf) = snd nf)) FIELDS ->
    valid (GROUP a true FIELDS).

(** The field is encoded on every stream as the same bytes, and decoding
    them into an UNSET field of its category and attributes gives the field
    back. *)
Definition round_trips (f : field) : Prop :=
  exists bs, emits (encode f) bs /\ decodes (decodeIterator (unset f)) bs f.

(** A member of a GROUP as it goes on the wire: its name, its raw field,
    its tag and the bytes of its value. *)
Record entry : Type := mkEntry {
  entry_name : string;
  entry_field : field;
  entry_tag : Z;
  entry_wire : list byte
}.

Definition entry_bytes (e : entry) : list byte :=
  be_bytes 2 (entry_tag e) ++ entry_wire e.

Definition entry_ok (FIELDS : list (string * field)) (fieldToTag : Bijection) (e : entry)
  : Prop :=
  (entry_name e, entry_field e) ∈ FIELDS /\
  forward fieldToTag !! entry_name e = Some (entry_tag e) /\
  inverse fieldToTag !! entry_tag e = Some (entry_name e) /\
  0 <= entry_tag e < 65536 /\
  emits (encode (entry_field e)) (entry_wire e) /\
  decodes (decodeIterator (unset (entry_field e))) (entry_wire e) (entry_field e).

(** The raw fields of a GROUP under decode: the members named in [done]
    are filled, the others are still UNSET. *)
Definition fill (done : list string) (FIELDS : list (string * field))
  : list (string * field) :=
  map (fun nf => if bool_decide (fst nf ∈ done) then nf else (fst nf, unset (snd nf))) FIELDS.

(** A GROUP with a UINT, an UNSET optional STRING, a 64-bit FLOAT, a
    STRING and a LIST of one-byte UINTs. *)
Definition sample_group : field :=
  GROUP no_attributes true
    [("field1"%string, UINT no_attributes (Some 50));
     ("note"%string, STRING (mkAttrs None None (Some true) None) None);
     ("ratio"%string, FLOAT (mkAttrs None (Some 64) None None) (Some 0x1.999999999999ap-4%float));
     ("name"%string, STRING no_attributes (Some (str_of_string "demo")));
     ("list1"%string,
      LIST no_attributes (UINT (mkAttrs (Some 255) None None None) None)
        (Some [UINT (mkAttrs (Some 255) None None None) (Some 0);
               UINT (mkAttrs (Some 255) None None None) (Some 255)]))].

(** The length check on the two u64s at offset [i] of [bs]. *)
Definition window_ok (bs : list byte) (i : nat) : bool :=
  be_value (take 8 (drop i bs)) =?
  Z.lxor (be_value (take 8 (drop (i + 8) bs))) LENGTH_CHECK_MASK.

(** The adapter of a stream that has [pre] in front of it. *)
Definition shift (pre : list byte) (st : EncoderStreamAdapter) : EncoderStreamAdapter :=
  mkAdapter (pre ++ stream_bytes st) (length pre + stream_pos st)%nat (_max_size st).

(** A packet field whose definitions store knows the "demo" packet, with
    versions kept as text. *)
Definition demo_registry_field : PacketField str :=
  mkPacketField
    (fun name version =>
       if bool_decide (name = str_of_string "demo" /\ version = str_of_string "1.0.0")
       then Some demo_packet else None)
    None.

(** The frame of the "demo" packet, as [PacketEncoder.encode] writes it on
    an empty stream. *)
Definition demo_frame : list byte :=
  Eval vm_compute in stream_bytes (snd (PacketEncoder_encode demo_field empty_stream)).

(** The frame of a packet on the wire: the length of the whole frame, that
    length XOR 0xFFFFFFFFFFFFFFFF, the identifier and the version in UTF-8,
    each behind one byte with its length, and the body. *)
Definition frame_bytes (nb vb body : list byte) : list byte :=
  let packetLength := Z.of_nat (16 + (1 + length nb) + (1 + length vb) + length body) in
  be_bytes 8 packetLength ++ be_bytes 8 (Z.lxor packetLength LENGTH_CHECK_MASK) ++
  be_bytes 1 (Z.of_nat (length nb)) ++ nb ++
  be_bytes 1 (Z.of_nat (length vb)) ++ vb ++ body.

(** The type of a packet as the definitions store holds it: the packet
    with every data slot UNSET. *)
Definition packet_type (packet : Packet) : Packet :=
  mkPacket (DEFINITION_IDENTIFIER packet) (DEFINITION_VERSION packet)
           (map declaration (packet_FIELDS packet)).

(** A packet "sample" of version "1.0" with the members of [sample_group],
    a sender that holds it, and a receiver whose definitions store knows its
    type, with versions kept as text. *)
Definition sample_packet : Packet :=
  mkPacket (str_of_string "sample") (str_of_string "1.0")
           (match sample_group with GROUP _ _ FIELDS => FIELDS | _ => [] end).

Definition sample_sender : PacketField str :=
  mkPacketField (fun _ _ => None) (Some sample_packet).

Definition sample_receiver : PacketField str :=
  mkPacketField
    (fun name version =>
       if bool_decide (name = str_of_string "sample" /\ version = str_of_string "1.0")
       then Some (packet_type sample_packet)
       else if bool_decide (name = str_of_string "demo" /\ version = str_of_string "1.0.0")
       then Some (packet_type demo_packet)
       else None)
    None.

(** The frame of the "sample" packet, as [PacketEncoder.encode] writes it on
    an empty stream. *)
Definition sample_frame : list byte :=
  Eval vm_compute in stream_bytes (snd (PacketEncoder_encode sample_sender empty_stream)).

(** [frame] is the frame of [packet] and [receiver] can read it: the fields
    of the packet are valid, its identifier and version have at most 255
    UTF-8 bytes each, the frame is shorter than 2^64 bytes, and the
    definitions store of the receiver resolves the identifier and the parsed
    version to the type of the packet. *)
Definition frame_of {Version : Type} (FromString : str -> res Version)
    (receiver : PacketField Version) (packet : Packet) (frame : list byte) : Prop :=
  exists (version : Version) (nb vb body : list byte),
    valid (GROUP no_attributes true (packet_FIELDS packet)) /\
    encoded (GROUP no_attributes true (packet_FIELDS packet)) = Ok body /\
    utf8_encode (DEFINITION_IDENTIFIER packet) = Ok nb /\ (length nb <= 255)%nat /\
    utf8_encode (DEFINITION_VERSION packet) = Ok vb /\ (length vb <= 255)%nat /\
    FromString (DEFINITION_VERSION packet) = Ok version /\
    getDefinition receiver (DEFINITION_IDENTIFIER packet) version = Some (packet_type packet) /\
    frame = frame_bytes nb vb body /\
    Z.of_nat (length frame) < 2 ^ 64.

(** Whatever the action returns, what it did to the stream is one write at
    the position. *)
Definition writes_forward {A : Type} (m : M A) : Prop :=
  forall st r st', in_range st -> m st = (r, st') -> exists bs, st' = write bs st.

(** The header of a frame as [PacketEncoder.encode] first writes it, with
    zeros where the length and its check will go. *)
Definition blank_header (nb vb : list byte) : list byte :=
  be_bytes 8 0 ++ be_bytes 8 0 ++
  be_bytes 1 (Z.of_nat (length nb)) ++ nb ++ be_bytes 1 (Z.of_nat (length vb)) ++ vb.

(** A GROUP whose second member does not fit the four bytes of its type. *)
Definition overflowing_group : field :=
  GROUP no_attributes true
    [("a"%string, UINT no_attributes (Some 5));
     ("b"%string, UINT no_attributes (Some (2 ^ 40)))].

(** A sender whose packet "demo" has the members of [overflowing_group]. *)
Definition overflowing_sender : PacketField unit :=
  mkPacketField (fun _ _ => None)
    (Some (mkPacket (str_of_string "demo") (str_of_string "1.0.0")
             (match overflowing_group with GROUP _ _ FIELDS => FIELDS | _ => [] end))).

(** The members of a GROUP whose data slot is set: those that go on the
    wire. *)
Definition present (FIELDS : list (string * field)) : list (string * field) :=
  filter (fun nf => is_unset (snd nf) = false) FIELDS.

(** A stream on which the second of two STRING items is not UTF-8. *)
Definition bad_list_wire : list byte := [x00; x02; x00; x01; x61; x00; x01; xff].

(** A stream on which the one member of a GROUP, a STRING, is not UTF-8. *)
Definition bad_group_wire : list byte := [x00; x01; x00; x00; x00; x01; xff].

(** A declaration with an explicit tag in front of two automatic ones. *)
Definition tagged_FIELDS : list (string * field) :=
  [("a"%string, UINT (mkAttrs None None None (Some 1)) None);
   ("b"%string, UINT no_attributes None);
   ("c"%string, BOOL no_attributes None)].

(** [x] is met on the way up from [cls]: it is [cls], or it is met on the
    way up from a base of [cls], provided [cls] is not a terminal class. *)
Inductive reaches (terminals : list class) : class -> class -> Prop :=
| reaches_self cls : reaches terminals cls cls
| reaches_base cls base x :
    class_in cls terminals = false ->
    base ∈ __bases__ cls ->
    reaches terminals base x ->
    reaches terminals cls x.

(** The class of an object, and the class object itself for a class. *)
Definition own_class (o : object) : class :=
  match o with
  | class_object cls | complex_instance cls _ | instance cls => cls
  end.

(** The key under which an encoder for [encodingType] is stored. *)
Definition most_specific_key (encodingType : object) : typeKey :=
  match encodingType with
  | complex_instance cls dataType => pair_key cls (own_class dataType)
  | _ => class_key (own_class encodingType)
  end.

(** A small hierarchy in the style of [playground.network.packet.fieldtypes]. *)
Definition class_object_ : class := Class "object" [].
Definition class_PacketFieldType : class := Class "PacketFieldType" [class_object_].
Definition class_ComplexFieldType : class := Class "ComplexFieldType" [class_PacketFieldType].
Definition class_UINT : class := Class "UINT" [class_PacketFieldType].
Definition class_Counter : class := Class "Counter" [class_UINT].
Definition class_ListFieldType : class := Class "ListFieldType" [class_ComplexFieldType].

(** The generator does nothing to the stream but read it with
    [unpackIterator], and has not been suspended yet. *)
Fixpoint reads_only {A : Type} (g : Gen A) : Prop :=
  match g with
  | Return _ | Fail _ => True
  | Unpack _ _ k => forall chunk, reads_only (k chunk)
  | _ => False
  end.

(** * Properties *)

(** ** Bytes and big-endian integers *)

Lemma Z_of_byte_range (b : byte) : 0 <= Z_of_byte b < 256.
Proof.
  unfold Z_of_byte. pose proof (Byte.to_N_bounded b). lia.
Qed.

Lemma byte_of_Z_of_byte (b : byte) : byte_of_Z (Z_of_byte b) = b.
Proof.
  unfold byte_of_Z. pose proof (Z_of_byte_range b) as Hr.
  rewrite Z.mod_small by lia. unfold Z_of_byte. rewrite N2Z.id.
  now rewrite Byte.of_to_N.
Qed.

Lemma Z_of_byte_of_Z (z : Z) : Z_of_byte (byte_of_Z z) = z mod 256.
Proof.
  unfold byte_of_Z, Z_of_byte.
  pose proof (Z.mod_pos_bound z 256 ltac:(lia)) as Hr.
  destruct (Byte.of_N (Z.to_N (z mod 256))) as [b|] eqn:Hb.
  - apply Byte.to_of_N in Hb. rewrite Hb. lia.
  - apply Byte.of_N_None_iff in Hb. lia.
Qed.

Lemma le_bytes_length (w : nat) (v : Z) : length (le_bytes w v) = w.
Proof. revert v. induction w as [|w IH]; intros v; simpl; [reflexivity|]. now rewrite IH. Qed.

Lemma le_value_range (bs : list byte) : 0 <= le_value bs < 256 ^ Z.of_nat (length bs).
Proof.
  induction bs as [|b bs IH]; [simpl; lia|].
  cbn [le_value length]. rewrite Nat2Z.inj_succ, Z.pow_succ_r by lia.
  pose proof (Z_of_byte_range b). lia.
Qed.

Lemma le_value_bytes (w : nat) (v : Z) : le_value (le_bytes w v) = v mod 256 ^ Z.of_nat w.
Proof.
  revert v. induction w as [|w IH]; intros v.
  - simpl. now rewrite Z.mod_1_r.
  - cbn [le_bytes le_value]. rewrite IH, Z_of_byte_of_Z.
    rewrite Nat2Z.inj_succ, Z.pow_succ_r by lia.
    rewrite Z.rem_mul_r by lia. lia.
Qed.

Lemma le_bytes_value (bs : list byte) : le_bytes (length bs) (le_value bs) = bs.
Proof.
  induction bs as [|b bs IH]; [reflexivity|].
  cbn [length le_bytes le_value]. pose proof (Z_of_byte_range b) as Hb.
  assert (Hm : (Z_of_byte b + 256 * le_value bs) mod 256 = Z_of_byte b).
  { symmetry. apply Z.mod_unique with (q := le_value bs); lia. }
  assert (Hd : (Z_of_byte b + 256 * le_value bs) / 256 = le_value bs).
  { symmetry. apply Z.div_unique with (r := Z_of_byte b); lia. }
  rewrite Hd, IH. f_equal.
  rewrite <- (byte_of_Z_of_byte b) at 2. unfold byte_of_Z.
  rewrite Hm. now rewrite (Z.mod_small (Z_of_byte b)) by lia.
Qed.

Lemma be_bytes_length (w : nat) (v : Z) : length (be_bytes w v) = w.
Proof. unfold be_bytes. now rewrite length_rev, le_bytes_length. Qed.

Lemma be_value_bytes (w : nat) (v : Z) : be_value (be_bytes w v) = v mod 256 ^ Z.of_nat w.
Proof. unfold be_value, be_bytes. now rewrite rev_involutive, le_value_bytes. Qed.

Lemma be_value_range (bs : list byte) : 0 <= be_value bs < 256 ^ Z.of_nat (length bs).
Proof. unfold be_value. rewrite <- length_rev. apply le_value_range. Qed.

Lemma be_bytes_value (bs : list byte) : be_bytes (length bs) (be_value bs) = bs.
Proof.
  unfold be_value, be_bytes. rewrite <- length_rev, le_bytes_value. apply rev_involutive.
Qed.

Lemma pack_unsigned_ok (w : nat) (v : Z) :
  0 <= v < 256 ^ Z.of_nat w -> pack_unsigned w v = Ok (be_bytes w v).
Proof.
  intros H. unfold pack_unsigned.
  destruct (0 <=? v) eqn:H1; [|lia]. destruct (v <? 256 ^ Z.of_nat w) eqn:H2; [|lia].
  reflexivity.
Qed.

Lemma pack_unsigned_inv (w : nat) (v : Z) (bs : list byte) :
  pack_unsigned w v = Ok bs -> 0 <= v < 256 ^ Z.of_nat w /\ bs = be_bytes w v.
Proof.
  unfold pack_unsigned.
  destruct (0 <=? v) eqn:H1; destruct (v <? 256 ^ Z.of_nat w) eqn:H2; simpl;
    intros H; inversion H; subst. split; [lia|reflexivity].
Qed.

Lemma pack_unsigned_fail (w : nat) (v : Z) :
  ~ (0 <= v < 256 ^ Z.of_nat w) -> pack_unsigned w v = Raise StructError.
Proof.
  intros H. unfold pack_unsigned.
  destruct (0 <=? v) eqn:H1; destruct (v <? 256 ^ Z.of_nat w) eqn:H2; simpl;
    try reflexivity. lia.
Qed.

Lemma unpack_pack_unsigned (w : nat) (v : Z) :
  0 <= v < 256 ^ Z.of_nat w -> unpack_unsigned (be_bytes w v) = v.
Proof.
  intros H. unfold unpack_unsigned. rewrite be_value_bytes. now apply Z.mod_small.
Qed.

Lemma pow256_even (w : nat) : (0 < w)%nat -> 256 ^ Z.of_nat w = 2 * (256 ^ Z.of_nat w / 2).
Proof.
  intros Hw. destruct w as [|w]; [lia|].
  rewrite Nat2Z.inj_succ, Z.pow_succ_r by lia.
  replace (256 * 256 ^ Z.of_nat w) with ((128 * 256 ^ Z.of_nat w) * 2) by lia.
  rewrite Z.div_mul by lia. lia.
Qed.

Lemma pack_signed_ok (w : nat) (v : Z) :
  - (256 ^ Z.of_nat w / 2) <= v < 256 ^ Z.of_nat w / 2 ->
  pack_signed w v = Ok (be_bytes w (v mod 256 ^ Z.of_nat w)).
Proof.
  intros H. unfold pack_signed.
  destruct (- (256 ^ Z.of_nat w / 2) <=? v) eqn:H1; [|lia].
  destruct (v <? 256 ^ Z.of_nat w / 2) eqn:H2; [|lia]. reflexivity.
Qed.

Lemma pack_signed_fail (w : nat) (v : Z) :
  ~ (- (256 ^ Z.of_nat w / 2) <= v < 256 ^ Z.of_nat w / 2) ->
  pack_signed w v = Raise StructError.
Proof.
  intros H. unfold pack_signed.
  destruct (- (256 ^ Z.of_nat w / 2) <=? v) eqn:H1;
    destruct (v <? 256 ^ Z.of_nat w / 2) eqn:H2; simpl; try reflexivity. lia.
Qed.

Lemma unpack_pack_signed (w : nat) (v : Z) :
  (0 < w)%nat ->
  - (256 ^ Z.of_nat w / 2) <= v < 256 ^ Z.of_nat w / 2 ->
  unpack_signed (be_bytes w (v mod 256 ^ Z.of_nat w)) = v.
Proof.
  intros Hw H. unfold unpack_signed. rewrite be_bytes_length, be_value_bytes.
  pose proof (pow256_even w Hw) as He.
  set (full := 256 ^ Z.of_nat w) in *.
  assert (Hfull : 0 < full) by (unfold full; lia).
  rewrite Z.mod_mod by lia.
  destruct (Z.ltb_spec v 0) as [Hneg|Hpos].
  - assert (Hm : v mod full = v + full).
    { symmetry. apply Z.mod_unique with (q := -1); lia. }
    rewrite Hm. destruct (Z.ltb_spec (v + full) (full / 2)); lia.
  - rewrite Z.mod_small by lia. destruct (Z.ltb_spec v (full / 2)); lia.
Qed.

(** ** Widths of UINT and INT (C5, C10) *)

Lemma write_empty_stream (bs : list byte) : stream_bytes (write bs empty_stream) = bs.
Proof. unfold write, empty_stream. simpl. now rewrite drop_nil, app_nil_r. Qed.

Lemma smallest_width_spec (maxValue : Z) :
  maxValue < 2 ^ 64 ->
  In (smallest_width maxValue) [1; 2; 4; 8]%nat /\
  maxValue < 256 ^ Z.of_nat (smallest_width maxValue) /\
  forall w, In w [1; 2; 4; 8]%nat -> maxValue < 256 ^ Z.of_nat w ->
            (smallest_width maxValue <= w)%nat.
Proof.
  intros Hlt. unfold smallest_width.
  destruct (Z.ltb_spec maxValue (2 ^ 8)) as [H8|H8];
    [|destruct (Z.ltb_spec maxValue (2 ^ 16)) as [H16|H16];
      [|destruct (Z.ltb_spec maxValue (2 ^ 32)) as [H32|H32]]].
  all: (split; [simpl; tauto|]).
  all: (split; [simpl Z.of_nat; lia|]).
  all: intros w [<-|[<-|[<-|[<-|[]]]]]; simpl Z.of_nat; lia.
Qed.

Lemma _maxValueToPackCode_cases (signed : bool) (maxValue : Z) :
  UintEncoder._maxValueToPackCode
    (if signed then IntEncoder.SIZE_TO_PACKCODE else UintEncoder.SIZE_TO_PACKCODE) maxValue =
  if maxValue <? 2 ^ 8 then Ok (if signed then code_b else code_B)
  else if maxValue <? 2 ^ 16 then Ok (if signed then code_h else code_H)
  else if maxValue <? 2 ^ 32 then Ok (if signed then code_i else code_I)
  else if maxValue <? 2 ^ 64 then Ok (if signed then code_q else code_Q)
  else Raise (PacketEncodingError (CannotEncodeUintOfSize maxValue) None).
Proof.
  unfold UintEncoder._maxValueToPackCode, IntEncoder.SIZE_TO_PACKCODE,
    UintEncoder.SIZE_TO_PACKCODE.
  destruct signed; cbn [UintEncoder.for_break].
  all: destruct (Z.ltb_spec maxValue (2 ^ 8)) as [H8|H8];
    [|destruct (Z.ltb_spec maxValue (2 ^ 16)) as [H16|H16];
      [|destruct (Z.ltb_spec maxValue (2 ^ 32)) as [H32|H32];
        [|destruct (Z.ltb_spec maxValue (2 ^ 64)) as [H64|H64]]]].
  all: match goal with
       | |- context [?m >=? ?p] => destruct (Z.geb_spec m p); [lia || reflexivity|lia || reflexivity]
       end.
Qed.

Lemma _getPackCode_width (signed : bool) (a : attributes) :
  declared_MaxValue a < 2 ^ 64 ->
  exists packCode,
    UintEncoder._getPackCode
      (if signed then IntEncoder.SIZE_TO_PACKCODE else UintEncoder.SIZE_TO_PACKCODE) a
    = Ok packCode /\
    calcsize packCode = smallest_width (declared_MaxValue a) /\
    packCode = nth (Nat.log2 (calcsize packCode))
                 (if signed then [code_b; code_h; code_i; code_q]
                  else [code_B; code_H; code_I; code_Q]) code_bool.
Proof.
  intros Hlt. unfold UintEncoder._getPackCode. fold (declared_MaxValue a).
  rewrite _maxValueToPackCode_cases. unfold smallest_width.
  destruct (declared_MaxValue a <? 2 ^ 8); [destruct signed; eexists; repeat split|].
  destruct (declared_MaxValue a <? 2 ^ 16); [destruct signed; eexists; repeat split|].
  destruct (declared_MaxValue a <? 2 ^ 32); [destruct signed; eexists; repeat split|].
  destruct (Z.ltb_spec (declared_MaxValue a) (2 ^ 64)); [|lia].
  destruct signed; eexists; repeat split.
Qed.

Lemma _getPackCode_too_large (signed : bool) (a : attributes) :
  2 ^ 64 <= declared_MaxValue a ->
  UintEncoder._getPackCode
    (if signed then IntEncoder.SIZE_TO_PACKCODE else UintEncoder.SIZE_TO_PACKCODE) a
  = Raise (PacketEncodingError (CannotEncodeUintOfSize (declared_MaxValue a)) None).
Proof.
  intros Hge. unfold UintEncoder._getPackCode. fold (declared_MaxValue a).
  rewrite _maxValueToPackCode_cases.
  destruct (Z.ltb_spec (declared_MaxValue a) (2 ^ 8)); [lia|].
  destruct (Z.ltb_spec (declared_MaxValue a) (2 ^ 16)); [lia|].
  destruct (Z.ltb_spec (declared_MaxValue a) (2 ^ 32)); [lia|].
  destruct (Z.ltb_spec (declared_MaxValue a) (2 ^ 64)); [lia|]. reflexivity.
Qed.

(** ** Reading from the stream *)

Lemma available_remaining (st : EncoderStreamAdapter) : available st = length (remaining st).
Proof. unfold available, remaining. now rewrite length_drop. Qed.

Lemma read_enough (n : nat) (st : EncoderStreamAdapter) :
  (n <= available st)%nat ->
  read (Z.of_nat n) st = (take n (remaining st), advance n st).
Proof.
  intros H. unfold read, advance. fold (remaining st).
  destruct (Z.ltb_spec (Z.of_nat n) 0); [lia|]. rewrite Nat2Z.id.
  rewrite length_take, <- available_remaining. now rewrite Nat.min_l by lia.
Qed.

Lemma remaining_advance (n : nat) (st : EncoderStreamAdapter) :
  remaining (advance n st) = drop n (remaining st).
Proof. unfold remaining, advance. simpl. rewrite drop_drop. reflexivity. Qed.

Lemma run_Await (A : Type) (n : nat) (k : list byte -> Gen A) (st : EncoderStreamAdapter) :
  (n <= available st)%nat ->
  run (Await n k) st = run (k (take n (remaining st))) (advance n st).
Proof.
  intros H. cbn [run]. destruct (Nat.ltb_spec (available st) n); [lia|].
  now rewrite read_enough.
Qed.

Lemma run_Unpack (A : Type) (n : nat) (wrap : exn -> exn) (k : list byte -> Gen A)
    (st : EncoderStreamAdapter) :
  exceeds_max_size st n = false ->
  (n <= available st)%nat ->
  run (Unpack n wrap k) st = run (k (take n (remaining st))) (advance n st).
Proof.
  intros Hm H. cbn [run]. rewrite Hm. destruct (Nat.ltb_spec (available st) n); [lia|].
  now rewrite read_enough.
Qed.

Lemma holds_stream_of (bs : list byte) : holds (stream_of bs) bs [].
Proof. unfold holds, remaining, stream_of. simpl. now rewrite app_nil_r. Qed.

Lemma holds_advance (st : EncoderStreamAdapter) (bs tail : list byte) :
  holds st bs tail -> remaining (advance (length bs) st) = tail.
Proof.
  unfold holds. intros H. rewrite remaining_advance, H. now rewrite drop_app_length.
Qed.

Lemma holds_take (st : EncoderStreamAdapter) (bs tail : list byte) :
  holds st bs tail -> take (length bs) (remaining st) = bs.
Proof. unfold holds. intros ->. now rewrite take_app_length. Qed.

Lemma holds_available (st : EncoderStreamAdapter) (bs tail : list byte) :
  holds st bs tail -> (length bs <= available st)%nat.
Proof.
  unfold holds. intros H. rewrite available_remaining, H, length_app. lia.
Qed.

(** ** UINT and INT fields *)

Lemma encode_int_field (signed : bool) (a : attributes) (d : option Z)
    (st : EncoderStreamAdapter) :
  encode (int_field signed a d) st =
  match UintEncoder._getPackCode (int_table signed) a with
  | Ok packCode => pack (struct_pack_int packCode d) st
  | Raise e => (Raise e, st)
  end.
Proof.
  destruct signed; cbn [int_field encode int_table];
    unfold IntrinsicTypeStandardEncoder.encode, bind, lift;
    destruct (UintEncoder._getPackCode _ a); reflexivity.
Qed.

Lemma struct_pack_int_width (signed : bool) (a : attributes) (packCode : packCode)
    (v : Z) :
  declared_MaxValue a < 2 ^ 64 ->
  UintEncoder._getPackCode (int_table signed) a = Ok packCode ->
  calcsize packCode = smallest_width (declared_MaxValue a) /\
  struct_pack_int packCode (Some v) =
    (if signed then pack_signed else pack_unsigned) (calcsize packCode) v /\
  struct_unpack_int packCode = if signed then unpack_signed else unpack_unsigned.
Proof.
  intros Hlt Hc. destruct (_getPackCode_width signed a Hlt) as (c & Hc' & Hw & Hnth).
  unfold int_table in Hc. rewrite Hc in Hc'. injection Hc' as <-.
  split; [exact Hw|]. rewrite Hnth.
  pose proof (smallest_width_spec _ Hlt) as (Hin & _). rewrite <- Hw in Hin.
  destruct Hin as [Hin|[Hin|[Hin|[Hin|[]]]]]; rewrite <- Hin; destruct signed;
    split; reflexivity.
Qed.

Lemma encoded_int_field (signed : bool) (a : attributes) (d : option Z) :
  encoded (int_field signed a d) =
  match UintEncoder._getPackCode (int_table signed) a with
  | Ok packCode => struct_pack_int packCode d
  | Raise e => Raise e
  end.
Proof.
  unfold encoded. rewrite encode_int_field.
  destruct (UintEncoder._getPackCode _ a) as [c|e]; [|reflexivity].
  unfold pack. destruct (struct_pack_int c d) as [bs|e]; [|reflexivity].
  now rewrite write_empty_stream.
Qed.

Lemma packed_int_length (signed : bool) (w : nat) (v : Z) (bs : list byte) :
  (if signed then pack_signed else pack_unsigned) w v = Ok bs -> length bs = w.
Proof.
  destruct signed; unfold pack_signed, pack_unsigned;
    match goal with |- context [if ?b then _ else _] => destruct b end;
    intros H; inversion H; apply be_bytes_length.
Qed.

(** C5: the encoded width of a UINT or an INT is the smallest of 1, 2, 4
    and 8 bytes whose unsigned range exceeds the declared [MaxValue]
    (2^32-1 when it is not declared), whatever the value; and a declared
    [MaxValue] of 2^64 or more fails with [PacketEncodingError]. *)
Theorem C5_width_from_MaxValue (signed : bool) (a : attributes) :
  (declared_MaxValue a < 2 ^ 64 ->
   In (smallest_width (declared_MaxValue a)) [1; 2; 4; 8]%nat /\
   declared_MaxValue a < 256 ^ Z.of_nat (smallest_width (declared_MaxValue a)) /\
   (forall w, In w [1; 2; 4; 8]%nat -> declared_MaxValue a < 256 ^ Z.of_nat w ->
              (smallest_width (declared_MaxValue a) <= w)%nat) /\
   (forall d bs, encoded (int_field signed a d) = Ok bs ->
                 length bs = smallest_width (declared_MaxValue a)) /\
   (exists bs, encoded (int_field signed a (Some 0)) = Ok bs)) /\
  (2 ^ 64 <= declared_MaxValue a ->
   forall d, encoded (int_field signed a d) =
             Raise (PacketEncodingError (CannotEncodeUintOfSize (declared_MaxValue a)) None)).
Proof.
  split.
  - intros Hlt. pose proof (smallest_width_spec _ Hlt) as (Hin & Hex & Hmin).
    repeat split; try assumption.
    + intros d bs. rewrite encoded_int_field.
      destruct (UintEncoder._getPackCode (int_table signed) a) as [c|e] eqn:Hc; [|discriminate].
      destruct d as [v|]; [|discriminate].
      destruct (struct_pack_int_width signed a c v Hlt Hc) as (Hw & Hp & _).
      rewrite Hp, <- Hw. apply packed_int_length.
    + rewrite encoded_int_field.
      destruct (_getPackCode_width signed a Hlt) as (c & Hc & Hw & _).
      fold (int_table signed) in Hc. rewrite Hc.
      destruct (struct_pack_int_width signed a c 0 Hlt Hc) as (_ & Hp & _).
      rewrite Hp. assert (Hpos : 0 < 256 ^ Z.of_nat (calcsize c) / 2).
      { rewrite Hw. destruct Hin as [Hi|[Hi|[Hi|[Hi|[]]]]]; rewrite <- Hi; reflexivity. }
      destruct signed; eexists;
        [apply pack_signed_ok | apply pack_unsigned_ok]; lia.
  - intros Hge d. rewrite encoded_int_field. unfold int_table.
    now rewrite _getPackCode_too_large.
Qed.

Lemma run_intrinsic (D : Type) (code : packCode) (unpacked : packCode -> list byte -> D)
    (setData : D -> field) (st : EncoderStreamAdapter) (bs tail : list byte) :
  exceeds_max_size st (calcsize code) = false ->
  holds st bs tail ->
  length bs = calcsize code ->
  run (IntrinsicTypeStandardDecoder.decodeIterator (Ok code) unpacked setData) st =
  Done (setData (unpacked code bs)) (advance (length bs) st).
Proof.
  intros Hm Hh Hl. unfold IntrinsicTypeStandardDecoder.decodeIterator, unpackIterator.
  cbn [liftG bindG]. rewrite run_Unpack; [|exact Hm|rewrite <- Hl; eapply holds_available; eauto].
  rewrite <- Hl, (holds_take _ _ _ Hh). reflexivity.
Qed.

Lemma exceeds_max_size_None (st : EncoderStreamAdapter) (n : nat) :
  _max_size st = None -> exceeds_max_size st n = false.
Proof. unfold exceeds_max_size. now intros ->. Qed.

Lemma decodeIterator_int_field (signed : bool) (a : attributes) (d : option Z) :
  decodeIterator (int_field signed a d) =
  IntrinsicTypeStandardDecoder.decodeIterator
    (UintEncoder._getPackCode (int_table signed) a) struct_unpack_int
    (fun data => int_field signed a (Some data)).
Proof. destruct signed; reflexivity. Qed.

(** C10: encoding a UINT or an INT never compares the value with the
    declared [MaxValue]. Every value that the width selected from [MaxValue]
    can represent, also one above [MaxValue], is encoded in that width and
    decoded back; a value outside the width's range is a [struct.error]. *)
Theorem C10_value_not_compared_with_MaxValue (signed : bool) (a : attributes) (v : Z) :
  declared_MaxValue a < 2 ^ 64 ->
  (representable signed (smallest_width (declared_MaxValue a)) v ->
   exists bs,
     encoded (int_field signed a (Some v)) = Ok bs /\
     length bs = smallest_width (declared_MaxValue a) /\
     decode (unset (int_field signed a (Some v))) (stream_of bs) =
       Done (int_field signed a (Some v)) (advance (length bs) (stream_of bs))) /\
  (~ representable signed (smallest_width (declared_MaxValue a)) v ->
   encoded (int_field signed a (Some v)) = Raise StructError).
Proof.
  intros Hlt.
  destruct (_getPackCode_width signed a Hlt) as (c & Hc & Hw & _).
  fold (int_table signed) in Hc.
  destruct (struct_pack_int_width signed a c v Hlt Hc) as (_ & Hp & Hu).
  pose proof (smallest_width_spec _ Hlt) as (Hin & _).
  assert (Hpos : (0 < calcsize c)%nat).
  { rewrite Hw. destruct Hin as [Hi|[Hi|[Hi|[Hi|[]]]]]; rewrite <- Hi; lia. }
  rewrite encoded_int_field, Hc, Hp, <- Hw. split.
  - intros Hr.
    assert (Hdec : forall bs, length bs = calcsize c ->
              decode (unset (int_field signed a (Some v))) (stream_of bs) =
              Done (int_field signed a (Some (struct_unpack_int c bs)))
                   (advance (length bs) (stream_of bs))).
    { intros bs Hl. unfold decode.
      replace (unset (int_field signed a (Some v))) with (int_field signed a None)
        by (destruct signed; reflexivity).
      rewrite decodeIterator_int_field, Hc.
      rewrite (run_intrinsic Z c struct_unpack_int
                 (fun data => int_field signed a (Some data)) (stream_of bs) bs []);
        [reflexivity | now apply exceeds_max_size_None | apply holds_stream_of | exact Hl]. }
    destruct signed; unfold representable in Hr.
    + rewrite pack_signed_ok by exact Hr. eexists. split; [reflexivity|].
      split; [apply be_bytes_length|].
      rewrite Hdec by apply be_bytes_length. rewrite Hu.
      now rewrite unpack_pack_signed.
    + rewrite pack_unsigned_ok by exact Hr. eexists. split; [reflexivity|].
      split; [apply be_bytes_length|].
      rewrite Hdec by apply be_bytes_length. rewrite Hu.
      now rewrite unpack_pack_unsigned.
  - intros Hn. destruct signed; unfold representable in Hn.
    + now apply pack_signed_fail.
    + now apply pack_unsigned_fail.
Qed.

(** A UINT declared with [MaxValue = 100] carries 200, in one byte. *)
Lemma C10_witness :
  100 < 200 /\
  exists bs,
    encoded (UINT (mkAttrs (Some 100) None None None) (Some 200)) = Ok bs /\
    length bs = 1%nat /\
    decode (UINT (mkAttrs (Some 100) None None None) None) (stream_of bs) =
      Done (UINT (mkAttrs (Some 100) None None None) (Some 200))
           (advance (length bs) (stream_of bs)).
Proof.
  split; [lia|].
  destruct (C10_value_not_compared_with_MaxValue false
              (mkAttrs (Some 100) None None None) 200) as [H _].
  - vm_compute; reflexivity.
  - apply H. vm_compute. split; [discriminate | reflexivity].
Defined.

(** ** Tag assignment (C6) *)

Section TagAssignment.
Import PacketFieldsEncoder.

(** The loop stops within its bound, on the first tag at or after
    [autoTag] that is not in use. *)
Lemma while_autoTag_spec (fuel : nat) (inv : gmap Z string) (autoTag : Z) :
  let t := while_autoTag fuel inv autoTag in
  autoTag <= t <= autoTag + Z.of_nat fuel /\
  (forall t', autoTag <= t' < t -> is_Some (inv !! t')) /\
  (t < autoTag + Z.of_nat fuel -> inv !! t = None).
Proof.
  revert autoTag. induction fuel as [|fuel IH]; intros autoTag; cbn zeta.
  - simpl. repeat split; intros; lia.
  - cbn [while_autoTag]. destruct (inv !! autoTag) as [n|] eqn:Hl.
    + specialize (IH (autoTag + 1)). cbn zeta in IH.
      destruct IH as (Hr & Hused & Hfree). repeat split; try lia.
      * intros t' Ht'. destruct (decide (t' = autoTag)) as [->|Hne].
        -- rewrite Hl. eauto.
        -- apply Hused. lia.
      * intros Hlt. apply Hfree. lia.
    + repeat split; try lia. intros. exact Hl.
Qed.

Lemma while_autoTag_free (inv : gmap Z string) (autoTag : Z) :
  inv !! while_autoTag (S (size inv)) inv autoTag = None.
Proof.
  pose proof (while_autoTag_spec (S (size inv)) inv autoTag) as H. cbn zeta in H.
  destruct H as (Hr & Hused & Hfree).
  set (t := while_autoTag (S (size inv)) inv autoTag) in *.
  destruct (decide (t < autoTag + Z.of_nat (S (size inv)))) as [Hlt|Hge];
    [now apply Hfree|].
  exfalso.
  assert (Hsub : (list_to_set (seqZ autoTag (Z.of_nat (S (size inv)))) : gset Z) ⊆ dom inv).
  { intros k Hk. apply elem_of_list_to_set, elem_of_seqZ in Hk.
    apply elem_of_dom, Hused. lia. }
  apply subseteq_size in Hsub.
  rewrite size_list_to_set in Hsub by apply NoDup_seqZ.
  rewrite length_seqZ, size_dom in Hsub. lia.
Qed.

Lemma represents_empty : represents [] Bijection_empty.
Proof.
  split; intros; simpl; rewrite lookup_empty; split; intros H;
    [discriminate | inversion H | discriminate | inversion H].
Qed.

Lemma represents_forward_None acc b n :
  represents acc b -> forward b !! n = None <-> n ∉ map fst acc.
Proof.
  intros [Hf _]. split.
  - intros Hn Hin. apply list_elem_of_fmap in Hin as ([n' t] & -> & Hin).
    apply Hf in Hin. simpl in *. congruence.
  - intros Hnin. destruct (forward b !! n) as [t|] eqn:Hl; [|reflexivity].
    exfalso. apply Hnin. apply Hf in Hl.
    apply list_elem_of_fmap. exists (n, t). auto.
Qed.

Lemma represents_inverse_None acc b t :
  represents acc b -> inverse b !! t = None <-> t ∉ map snd acc.
Proof.
  intros [_ Hi]. split.
  - intros Hn Hin. apply list_elem_of_fmap in Hin as ([n t'] & -> & Hin).
    apply Hi in Hin. simpl in *. congruence.
  - intros Hnin. destruct (inverse b !! t) as [n|] eqn:Hl; [|reflexivity].
    exfalso. apply Hnin. apply Hi in Hl.
    apply list_elem_of_fmap. exists (n, t). auto.
Qed.

Lemma represents_set acc b n t :
  represents acc b -> n ∉ map fst acc -> t ∉ map snd acc ->
  represents (acc ++ [(n, t)]) (Bijection_set n t b).
Proof.
  intros Hrep Hn Ht. pose proof Hrep as [Hf Hi]. split; simpl.
  - intros n' t'. rewrite lookup_insert_Some, elem_of_app, list_elem_of_singleton, Hf.
    split.
    + intros [[-> ->]|[_ H]]; auto.
    + intros [H|H].
      * right. split; [|exact H]. intros ->. apply Hn.
        apply list_elem_of_fmap. exists (n', t'). auto.
      * injection H as -> ->. auto.
  - intros t' n'. rewrite lookup_insert_Some, elem_of_app, list_elem_of_singleton, Hi.
    split.
    + intros [[-> ->]|[_ H]]; auto.
    + intros [H|H].
      * right. split; [|exact H]. intros ->. apply Ht.
        apply list_elem_of_fmap. exists (n', t'). auto.
      * injection H as -> ->. auto.
Qed.
End TagAssignment.

Section TagAssignmentLoop.
Import PacketFieldsEncoder.

Lemma _processFields_loop_spec (fields : list (string * field)) :
  forall acc autoTag b,
    represents acc b -> 0 <= autoTag ->
    (forall t, 0 <= t < autoTag -> t ∈ map snd acc) ->
    match _processFields_loop fields autoTag b with
    | Ok b' => exists out, assigns acc fields out /\ represents out b'
    | Raise e =>
        (forall out, ~ assigns acc fields out) /\
        (e = Exception DuplicateField \/ e = Exception DuplicateExplicitTag)
    end.
Proof.
  induction fields as [|[n f] rest IH]; intros acc autoTag b Hrep Hpos Hbelow.
  - simpl. exists acc. split; [constructor|exact Hrep].
  - cbn [_processFields_loop].
    destruct (forward b !! n) as [t0|] eqn:Hfwd.
    { split; [|now left]. intros out Hass.
      assert (n ∉ map fst acc) as Hn by (inversion Hass; assumption).
      apply (represents_forward_None _ _ _ Hrep) in Hn. congruence. }
    apply (represents_forward_None _ _ _ Hrep) in Hfwd.
    destruct (ExplicitTag (attrs_of f)) as [tag|] eqn:Htag.
    + destruct (inverse b !! tag) as [n0|] eqn:Hinv.
      { split; [|now right]. intros out Hass. inversion Hass; subst; [|congruence].
        assert (tag0 = tag) as -> by congruence.
        match goal with H : tag ∉ _ |- _ =>
          apply (represents_inverse_None _ _ _ Hrep) in H end. congruence. }
      apply (represents_inverse_None _ _ _ Hrep) in Hinv.
      specialize (IH (acc ++ [(n, tag)]) autoTag (Bijection_set n tag b)
                    (represents_set _ _ _ _ Hrep Hfwd Hinv) Hpos).
      assert (Hb : forall t, 0 <= t < autoTag -> t ∈ map snd (acc ++ [(n, tag)])).
      { intros t Ht. rewrite map_app, elem_of_app. left. now apply Hbelow. }
      specialize (IH Hb).
      destruct (_processFields_loop rest autoTag (Bijection_set n tag b)) as [b'|e].
      * destruct IH as (out & Hass & Hout). exists out. split; [|exact Hout].
        eapply assigns_explicit; eauto.
      * destruct IH as [Hno He]. split; [|exact He].
        intros out Hass. inversion Hass; subst; [|congruence].
        assert (tag0 = tag) as -> by congruence. eapply Hno; eauto.
    + pose proof (while_autoTag_spec (S (size (inverse b))) (inverse b) autoTag) as Hw.
      pose proof (while_autoTag_free (inverse b) autoTag) as Hfree.
      cbn zeta in Hw. destruct Hw as (Hr & Hused & _).
      set (t := while_autoTag (S (size (inverse b))) (inverse b) autoTag) in *.
      apply (represents_inverse_None _ _ _ Hrep) in Hfree.
      assert (Hall : forall t', 0 <= t' < t -> t' ∈ map snd acc).
      { intros t' Ht'. destruct (decide (t' < autoTag)) as [Hlt|Hge].
        - apply Hbelow. lia.
        - destruct (Hused t' ltac:(lia)) as [n' Hn'].
          destruct Hrep as [_ Hi]. apply Hi in Hn'.
          apply list_elem_of_fmap. exists (n', t'). auto. }
      specialize (IH (acc ++ [(n, t)]) t (Bijection_set n t b)
                    (represents_set _ _ _ _ Hrep Hfwd Hfree) ltac:(lia)).
      assert (Hb : forall t', 0 <= t' < t -> t' ∈ map snd (acc ++ [(n, t)])).
      { intros t' Ht'. rewrite map_app, elem_of_app. left. now apply Hall. }
      specialize (IH Hb).
      destruct (_processFields_loop rest t (Bijection_set n t b)) as [b'|e].
      * destruct IH as (out & Hass & Hout). exists out. split; [|exact Hout].
        apply assigns_auto with (tag := t);
          [exact Hfwd | exact Htag | lia | exact Hfree | exact Hall | exact Hass].
      * destruct IH as [Hno He]. split; [|exact He].
        intros out Hass. inversion Hass; subst; [congruence|].
        assert (tag = t) as ->.
        { destruct (Z.lt_trichotomy tag t) as [Hlt|[Heq|Hgt]]; [|exact Heq|].
          - exfalso. match goal with H : tag ∉ _ |- _ => apply H end. apply Hall. lia.
          - exfalso. apply Hfree.
            match goal with H : forall t, 0 <= t < tag -> _ |- _ => apply H end. lia. }
        eapply Hno; eauto.
Qed.

Lemma NoDup_snoc {A : Type} (l : list A) (x : A) : NoDup l -> x ∉ l -> NoDup (l ++ [x]).
Proof.
  intros Hnd Hx. apply NoDup_app. repeat split; [exact Hnd| |apply NoDup_singleton].
  intros y Hy Hy'. apply list_elem_of_singleton in Hy'. now subst.
Qed.

Lemma assigns_extends acc fields out :
  assigns acc fields out ->
  exists ext,
    out = acc ++ ext /\ map fst ext = map fst fields /\
    (NoDup (map fst acc) -> NoDup (map fst out)) /\
    (NoDup (map snd acc) -> NoDup (map snd out)) /\
    (forall i n f tag, fields !! i = Some (n, f) ->
       ExplicitTag (attrs_of f) = Some tag -> ext !! i = Some (n, tag)).
Proof.
  induction 1 as [acc
                 |acc n f tag rest out Hn Htag Ht Hass IH
                 |acc n f tag rest out Hn Htag Hpos Ht Hleast Hass IH].
  - exists []. rewrite app_nil_r. repeat split; auto. intros i n f tag Hi. inversion Hi.
  - destruct IH as (ext & -> & Hnames & Hnd1 & Hnd2 & Hexp).
    assert (Heq : (acc ++ [(n, tag)]) ++ ext = acc ++ (n, tag) :: ext)
      by (now rewrite <- app_assoc).
    rewrite Heq in *. rewrite map_app in Hnd1, Hnd2. simpl in Hnd1, Hnd2.
    exists ((n, tag) :: ext). cbn [map fst].
    split; [reflexivity|]. split; [now rewrite Hnames|].
    split; [|split].
    + intros Hnd. apply Hnd1. now apply NoDup_snoc.
    + intros Hnd. apply Hnd2. now apply NoDup_snoc.
    + intros [|i] n' f' tag' Hi Ht'; simpl in *.
      * injection Hi as -> ->. congruence.
      * eapply Hexp; eauto.
  - destruct IH as (ext & -> & Hnames & Hnd1 & Hnd2 & Hexp).
    assert (Heq : (acc ++ [(n, tag)]) ++ ext = acc ++ (n, tag) :: ext)
      by (now rewrite <- app_assoc).
    rewrite Heq in *. rewrite map_app in Hnd1, Hnd2. simpl in Hnd1, Hnd2.
    exists ((n, tag) :: ext). cbn [map fst].
    split; [reflexivity|]. split; [now rewrite Hnames|].
    split; [|split].
    + intros Hnd. apply Hnd1. now apply NoDup_snoc.
    + intros Hnd. apply Hnd2. now apply NoDup_snoc.
    + intros [|i] n' f' tag' Hi Ht'; simpl in *.
      * injection Hi as -> ->. congruence.
      * eapply Hexp; eauto.
Qed.

Lemma attrs_of_unset (f : field) : attrs_of (unset f) = attrs_of f.
Proof. destruct f; reflexivity. Qed.

(** The tags depend on the declaration alone: the names and the
    attributes, not the data. *)
Lemma _processFields_loop_declaration (F1 : list (string * field)) :
  forall F2 autoTag b,
    map (fun nf => (fst nf, unset (snd nf))) F1 = map (fun nf => (fst nf, unset (snd nf))) F2 ->
    _processFields_loop F1 autoTag b = _processFields_loop F2 autoTag b.
Proof.
  induction F1 as [|[n1 f1] F1 IH]; intros [|[n2 f2] F2] autoTag b Heq;
    try discriminate; [reflexivity|].
  cbn [map fst snd] in Heq. injection Heq as -> Hf Hrest.
  cbn [_processFields_loop].
  assert (Ha : attrs_of f1 = attrs_of f2)
    by (rewrite <- (attrs_of_unset f1), <- (attrs_of_unset f2); now rewrite Hf).
  rewrite Ha. destruct (forward b !! n2); [reflexivity|].
  destruct (ExplicitTag (attrs_of f2)).
  - destruct (inverse b !! z); [reflexivity|]. now apply IH.
  - now apply IH.
Qed.
End TagAssignmentLoop.

Lemma _processFields_spec (FIELDS : list (string * field)) :
  match PacketFieldsEncoder._processFields FIELDS with
  | Ok fieldToTag =>
      exists out,
        assigns [] FIELDS out /\ represents out fieldToTag /\
        map fst out = map fst FIELDS /\ NoDup (map fst out) /\ NoDup (map snd out) /\
        (forall i n f tag, FIELDS !! i = Some (n, f) ->
           ExplicitTag (attrs_of f) = Some tag -> out !! i = Some (n, tag))
  | Raise e =>
      (forall out, ~ assigns [] FIELDS out) /\
      (e = Exception DuplicateField \/ e = Exception DuplicateExplicitTag)
  end.
Proof.
  unfold PacketFieldsEncoder._processFields.
  pose proof (_processFields_loop_spec FIELDS [] 0 Bijection_empty represents_empty
                ltac:(lia)) as H.
  specialize (H ltac:(intros; lia)).
  destruct (PacketFieldsEncoder._processFields_loop FIELDS 0 Bijection_empty) as [b|e];
    [|exact H].
  destruct H as (out & Hass & Hrep). exists out.
  destruct (assigns_extends _ _ _ Hass) as (ext & Hout & Hnames & Hnd1 & Hnd2 & Hexp).
  simpl in Hout. subst ext.
  split; [exact Hass|]. split; [exact Hrep|]. split; [exact Hnames|].
  split; [apply Hnd1; constructor|]. split; [apply Hnd2; constructor|exact Hexp].
Qed.

(** C6: tag assignment fails on a duplicate field name or a duplicate
    explicit tag; when it succeeds, the bijection is the assignment of
    section 4.5, where each field without [ExplicitTag] gets the smallest
    nonnegative integer not used so far in declaration order; and the
    bijection depends on the declaration alone, so that encode and decode of
    the same declaration compute the same one. *)
Theorem C6_tag_assignment (FIELDS : list (string * field)) :
  match PacketFieldsEncoder._processFields FIELDS with
  | Ok fieldToTag =>
      exists out,
        assigns [] FIELDS out /\ represents out fieldToTag /\
        map fst out = map fst FIELDS /\ NoDup (map fst out) /\ NoDup (map snd out)
  | Raise e =>
      (forall out, ~ assigns [] FIELDS out) /\
      (e = Exception DuplicateField \/ e = Exception DuplicateExplicitTag)
  end /\
  (~ NoDup (map fst FIELDS) ->
   exists e, PacketFieldsEncoder._processFields FIELDS = Raise e) /\
  (forall i j n1 f1 n2 f2 tag,
     i <> j -> FIELDS !! i = Some (n1, f1) -> FIELDS !! j = Some (n2, f2) ->
     ExplicitTag (attrs_of f1) = Some tag -> ExplicitTag (attrs_of f2) = Some tag ->
     exists e, PacketFieldsEncoder._processFields FIELDS = Raise e) /\
  (forall FIELDS',
     map declaration FIELDS' = map declaration FIELDS ->
     PacketFieldsEncoder._processFields FIELDS' = PacketFieldsEncoder._processFields FIELDS).
Proof.
  pose proof (_processFields_spec FIELDS) as Hmain.
  split; [|split; [|split]].
  - destruct (PacketFieldsEncoder._processFields FIELDS) as [b|e]; [|exact Hmain].
    destruct Hmain as (out & H1 & H2 & H3 & H4 & H5 & _). exists out. auto.
  - intros Hdup. destruct (PacketFieldsEncoder._processFields FIELDS) as [b|e]; [|eauto].
    destruct Hmain as (out & _ & _ & Hnames & Hnd & _). rewrite Hnames in Hnd. contradiction.
  - intros i j n1 f1 n2 f2 tag Hij Hi Hj Ht1 Ht2.
    destruct (PacketFieldsEncoder._processFields FIELDS) as [b|e]; [|eauto].
    destruct Hmain as (out & _ & _ & _ & _ & Hnd & Hexp). exfalso. apply Hij.
    apply (NoDup_lookup (map snd out) i j tag Hnd).
    + change (snd <$> out) with (map snd out). rewrite list_lookup_fmap.
      now rewrite (Hexp _ _ _ _ Hi Ht1).
    + change (snd <$> out) with (map snd out). rewrite list_lookup_fmap.
      now rewrite (Hexp _ _ _ _ Hj Ht2).
  - intros FIELDS' Heq. unfold PacketFieldsEncoder._processFields.
    now apply _processFields_loop_declaration.
Qed.

(** Two automatic tags around an explicit one. *)
Example tags_around_explicit :
  match PacketFieldsEncoder._processFields
          [("a"%string, UINT (mkAttrs None None None (Some 1)) None);
           ("b"%string, UINT no_attributes None);
           ("c"%string, BOOL no_attributes None)] with
  | Ok fieldToTag =>
      (forward fieldToTag !! "a"%string, forward fieldToTag !! "b"%string,
       forward fieldToTag !! "c"%string) = (Some 1, Some 0, Some 2)
  | Raise _ => False
  end.
Proof. vm_compute. reflexivity. Qed.

(** ** Running composed generators *)

Lemma run_bindG (A B : Type) (g : Gen A) (f : A -> Gen B) (st : EncoderStreamAdapter) :
  run (bindG g f) st = bind_outcome (run g st) f.
Proof.
  revert st. induction g as [a|e|n wrap k IH|n k IH|k IH|p k IH|n k IH|n e|]; intros st;
    cbn [bindG run bind_outcome]; try reflexivity.
  - destruct (exceeds_max_size st n); [reflexivity|].
    destruct (available st <? n)%nat; [reflexivity|].
    destruct (read (Z.of_nat n) st) as [chunk st']. apply IH.
  - destruct (available st <? n)%nat; [reflexivity|].
    destruct (read (Z.of_nat n) st) as [chunk st']. apply IH.
  - apply IH.
  - apply IH.
  - apply IH.
Qed.

Lemma run_try_exceptG (A : Type) (g : Gen A) (handler : exn -> exn)
    (st : EncoderStreamAdapter) :
  run (try_exceptG g handler) st = try_outcome (run g st) handler.
Proof.
  revert st. induction g as [a|e|n wrap k IH|n k IH|k IH|p k IH|n k IH|n e|]; intros st;
    cbn [try_exceptG run try_outcome]; try reflexivity.
  - destruct (exceeds_max_size st n); [reflexivity|].
    destruct (available st <? n)%nat; [reflexivity|].
    destruct (read (Z.of_nat n) st) as [chunk st']. apply IH.
  - destruct (available st <? n)%nat; [reflexivity|].
    destruct (read (Z.of_nat n) st) as [chunk st']. apply IH.
  - apply IH.
  - apply IH.
  - apply IH.
Qed.

Lemma run_unpack_int (c : packCode) (st : EncoderStreamAdapter) (bs tail : list byte) :
  exceeds_max_size st (calcsize c) = false ->
  holds st bs tail ->
  length bs = calcsize c ->
  run (unpack_int c) st = Done (struct_unpack_int c bs) (advance (length bs) st).
Proof.
  intros Hm Hh Hl. unfold unpack_int, unpackIterator. cbn [bindG].
  rewrite run_Unpack; [|exact Hm|rewrite <- Hl; eapply holds_available; eauto].
  rewrite <- Hl, (holds_take _ _ _ Hh). reflexivity.
Qed.

(** ** Unknown tags (C9) *)

(** C9, as the code has it: when a tag read from the wire has no field in
    the inverse of the bijection, the lookup [fieldToTag.inverse()[fieldID]]
    raises [KeyError], outside the [try] block of the loop, so the GROUP
    decoder fails with that [KeyError]; an enclosing decoder's [except]
    clause is what turns it into a [PacketEncodingError]. *)
Theorem C9_unknown_tag_raises (fieldToTag : Bijection) (decoders : list (string * Gen field))
    (count : nat) (raw : list (string * field)) (st : EncoderStreamAdapter)
    (tag tail : list byte) :
  exceeds_max_size st 2 = false ->
  holds st tag tail ->
  length tag = 2%nat ->
  inverse fieldToTag !! be_value tag = None ->
  run (PacketFieldsDecoder.decode_fields fieldToTag decoders (S count) raw) st =
    Raised (KeyError (be_value tag)) (advance 2 st) /\
  forall fieldName,
    run (try_exceptG (PacketFieldsDecoder.decode_fields fieldToTag decoders (S count) raw)
           (fun e => PacketEncodingError (ErrorDecodingField fieldName) (Some e))) st =
    Raised (PacketEncodingError (ErrorDecodingField fieldName)
              (Some (KeyError (be_value tag)))) (advance 2 st).
Proof.
  intros Hm Hh Hl Hinv.
  assert (Hrun : run (PacketFieldsDecoder.decode_fields fieldToTag decoders (S count) raw) st =
                 Raised (KeyError (be_value tag)) (advance 2 st)).
  { cbn [PacketFieldsDecoder.decode_fields]. rewrite run_bindG.
    rewrite (run_unpack_int code_H st tag tail Hm Hh Hl). cbn [bind_outcome].
    unfold Bijection_inverse_get. cbn [struct_unpack_int]. unfold unpack_unsigned.
    rewrite Hinv, Hl. reflexivity. }
  split; [exact Hrun|]. intros fieldName. now rewrite run_try_exceptG, Hrun.
Qed.

(** A group declared with the single field [a] (tag 0) is sent one entry
    with tag 7. *)
Lemma C9_witness :
  run (PacketFieldsDecoder.decode_fields
         (Bijection_set "a" 0 Bijection_empty)
         [("a"%string, decodeIterator (UINT no_attributes None))] 1
         [("a"%string, UINT no_attributes None)])
      (mkAdapter [x00; x01; x00; x07; x00; x00; x00; x05] 2 None) =
  Raised (KeyError 7) (mkAdapter [x00; x01; x00; x07; x00; x00; x00; x05] 4 None).
Proof.
  apply (C9_unknown_tag_raises (Bijection_set "a" 0 Bijection_empty)
           [("a"%string, decodeIterator (UINT no_attributes None))] 0
           [("a"%string, UINT no_attributes None)]
           (mkAdapter [x00; x01; x00; x07; x00; x00; x00; x05] 2 None)
           [x00; x07] [x00; x00; x00; x05]); reflexivity.
Defined.

(** The claim as stated fails: decoding a top-level GROUP whose only field
    has tag 0 from an entry with tag 7 raises [KeyError], which is not a
    [PacketEncodingError]. *)
Lemma C9_counterexample :
  decode (GROUP no_attributes false [("a"%string, UINT no_attributes None)])
         (stream_of [x00; x01; x00; x07; x00; x00; x00; x05]) =
    Raised (KeyError 7) (mkAdapter [x00; x01; x00; x07; x00; x00; x00; x05] 4 None) /\
  is_PacketEncodingError (KeyError 7) = false.
Proof. split; reflexivity. Qed.

(** ** Strings (C8) *)

Lemma encoded_STRING (a : attributes) (data : str) (strEncoded : list byte) :
  Z.of_nat (length data) <= 65535 ->
  utf8_encode data = Ok strEncoded ->
  encoded (STRING a (Some data)) =
  Ok (be_bytes 2 (Z.of_nat (length data)) ++ pack_s (length data) strEncoded).
Proof.
  intros Hlen Henc. unfold encoded. cbn [encode]. unfold StringEncoder.encode.
  destruct (Z.gtb_spec (Z.of_nat (length data)) StringEncoder.MAX_LENGTH) as [Hgt|_].
  { unfold StringEncoder.MAX_LENGTH, StringEncoder.STRING_LENGTH_BYTES in Hgt.
    simpl in Hgt. lia. }
  unfold bind, lift. rewrite Henc. unfold pack.
  rewrite pack_unsigned_ok by (simpl; lia). cbn [concat_packed].
  now rewrite write_empty_stream.
Qed.

Lemma encoded_STRING_too_long (a : attributes) (data : str) :
  65536 < Z.of_nat (length data) ->
  encoded (STRING a (Some data)) =
  Raise (PacketEncodingError (CannotEncodeStringLongerThan (Z.of_nat (length data))) None).
Proof.
  intros Hlen. unfold encoded. cbn [encode]. unfold StringEncoder.encode.
  destruct (Z.gtb_spec (Z.of_nat (length data)) StringEncoder.MAX_LENGTH) as [_|Hle].
  - reflexivity.
  - unfold StringEncoder.MAX_LENGTH, StringEncoder.STRING_LENGTH_BYTES in Hle.
    simpl in Hle. lia.
Qed.

(** C8, on the code: the length that [StringEncoder.encode] checks, writes
    as the prefix and hands to ["!H{}s"] is [len] of the [str], its number
    of code points, not the number of its UTF-8 bytes. For "éa" (two code
    points, three bytes) the stream gets the prefix 2 and the first two
    bytes, and they decode to "é"; and no string of up to 65535 code points
    is refused, however many bytes it has. *)
Theorem C8_string_length_in_code_points :
  utf8_encode [233; 97] = Ok [xc3; xa9; x61] /\
  encoded (STRING no_attributes (Some [233; 97])) = Ok [x00; x02; xc3; xa9] /\
  decode (STRING no_attributes None) (stream_of [x00; x02; xc3; xa9]) =
    Done (STRING no_attributes (Some [233])) (mkAdapter [x00; x02; xc3; xa9] 4 None) /\
  (forall a data strEncoded,
     Z.of_nat (length data) <= 65535 -> utf8_encode data = Ok strEncoded ->
     encoded (STRING a (Some data)) =
     Ok (be_bytes 2 (Z.of_nat (length data)) ++ pack_s (length data) strEncoded)) /\
  (forall a data,
     65536 < Z.of_nat (length data) ->
     encoded (STRING a (Some data)) =
     Raise (PacketEncodingError (CannotEncodeStringLongerThan (Z.of_nat (length data))) None)).
Proof.
  split; [reflexivity|]. split; [reflexivity|]. split; [reflexivity|].
  split; [exact encoded_STRING | exact encoded_STRING_too_long].
Qed.

(** ** Induction on field values *)

Lemma field_induction (P : field -> Prop) :
  (forall a d, P (UINT a d)) ->
  (forall a d, P (INT a d)) ->
  (forall a d, P (BOOL a d)) ->
  (forall a d, P (FLOAT a d)) ->
  (forall a d, P (STRING a d)) ->
  (forall a d, P (BUFFER a d)) ->
  (forall a elem d, P elem ->
                    match d with Some items => Forall P items | None => True end ->
                    P (LIST a elem d)) ->
  (forall a set FIELDS, Forall (fun nf => P (snd nf)) FIELDS -> P (GROUP a set FIELDS)) ->
  forall f, P f.
Proof.
  intros HU HI HB HF HS HBu HL HG.
  fix IH 1. intros [a d|a d|a d|a d|a d|a d|a elem d|a set FIELDS].
  - apply HU.
  - apply HI.
  - apply HB.
  - apply HF.
  - apply HS.
  - apply HBu.
  - apply HL; [apply IH|]. destruct d as [items|]; [|exact I].
    induction items as [|x items IHitems]; constructor; [apply IH|exact IHitems].
  - apply HG. induction FIELDS as [|[n x] FIELDS IHF]; constructor; [apply IH|exact IHF].
Qed.

(** ** Generators that do not look at the position *)

Lemma position_free_bindG (A B : Type) (g : Gen A) (f : A -> Gen B) :
  position_free g -> (forall a, position_free (f a)) -> position_free (bindG g f).
Proof.
  intros Hg Hf. induction g as [a|e|n wrap k IH|n k IH|k IH|p k IH|n k IH|n e|];
    cbn [bindG position_free] in *; auto; try contradiction.
Qed.

Lemma position_free_try_exceptG (A : Type) (g : Gen A) (handler : exn -> exn) :
  position_free g -> position_free (try_exceptG g handler).
Proof.
  intros Hg. induction g as [a|e|n wrap k IH|n k IH|k IH|p k IH|n k IH|n e|];
    cbn [try_exceptG position_free] in *; auto.
Qed.

Lemma position_free_liftG (A : Type) (r : res A) : position_free (liftG r).
Proof. destruct r; exact I. Qed.

Lemma position_free_unpackIterator (n : nat) : position_free (unpackIterator n).
Proof. intros chunk. exact I. Qed.

Lemma position_free_unpack_int (c : packCode) : position_free (unpack_int c).
Proof. intros chunk. exact I. Qed.

Lemma position_free_decode_items (item : Gen field) (count : nat) :
  position_free item ->
  forall i items, position_free (ListDecoder.decode_items item count i items).
Proof.
  intros Hitem. induction count as [|count IH]; intros i items; [exact I|].
  cbn [ListDecoder.decode_items]. apply position_free_bindG.
  - now apply position_free_try_exceptG.
  - intros a. apply IH.
Qed.

Lemma get_raw_In (V : Type) (fieldName : string) (raw : list (string * V)) (v : V) :
  get_raw fieldName raw = Ok v -> In (fieldName, v) raw.
Proof.
  induction raw as [|[n x] raw IH]; [discriminate|]. cbn [get_raw].
  destruct (String.eqb_spec n fieldName) as [->|Hne].
  - intros H. injection H as ->. now left.
  - intros H. right. now apply IH.
Qed.

Lemma position_free_decode_fields (fieldToTag : Bijection)
    (decoders : list (string * Gen field)) (count : nat) :
  Forall (fun nd => position_free (snd nd)) decoders ->
  forall raw, position_free (PacketFieldsDecoder.decode_fields fieldToTag decoders count raw).
Proof.
  intros Hdec. induction count as [|count IH]; intros raw; [exact I|].
  cbn [PacketFieldsDecoder.decode_fields].
  apply position_free_bindG; [apply position_free_unpack_int|]. intros fieldID.
  apply position_free_bindG; [apply position_free_liftG|]. intros fieldName.
  destruct (get_raw fieldName decoders) as [decoder|e] eqn:Hget; [|exact I].
  cbn [liftG bindG]. apply position_free_bindG.
  - apply position_free_try_exceptG. apply get_raw_In in Hget.
    rewrite <- list_elem_of_In in Hget.
    rewrite Forall_forall in Hdec. apply (Hdec _ Hget).
  - intros a. apply IH.
Qed.

Lemma position_free_PacketFieldsDecoder (topDecoder : field -> Gen field)
    (FIELDS : list (string * field)) :
  Forall (fun nf => position_free (topDecoder (snd nf))) FIELDS ->
  position_free (PacketFieldsDecoder.decodeIterator topDecoder FIELDS).
Proof.
  intros H. unfold PacketFieldsDecoder.decodeIterator.
  apply position_free_bindG; [apply position_free_liftG|]. intros fieldToTag.
  apply position_free_bindG; [apply position_free_unpack_int|]. intros fieldCount.
  apply position_free_decode_fields.
  induction H as [|[n x] FIELDS Hx HF IH]; constructor; auto.
Qed.

Lemma position_free_intrinsic (D : Type) (r : res packCode)
    (unpacked : packCode -> list byte -> D) (setData : D -> field) :
  position_free (IntrinsicTypeStandardDecoder.decodeIterator r unpacked setData).
Proof.
  unfold IntrinsicTypeStandardDecoder.decodeIterator.
  apply position_free_bindG; [apply position_free_liftG|]. intros c.
  intros chunk. exact I.
Qed.

Lemma position_free_decodeIterator (f : field) : position_free (decodeIterator f).
Proof.
  induction f as [a d|a d|a d|a d|a d|a d|a elem d IHelem IHitems|a set FIELDS IH]
    using field_induction; cbn [decodeIterator];
    try apply position_free_intrinsic.
  - unfold StringDecoder.decodeIterator.
    apply position_free_bindG; [apply position_free_unpack_int|]. intros strLen.
    apply position_free_bindG; [apply position_free_unpackIterator|]. intros strEncoded.
    apply position_free_bindG; [apply position_free_liftG|]. intros s. exact I.
  - unfold BufferDecoder.decodeIterator.
    apply position_free_bindG; [apply position_free_unpack_int|]. intros bufLen.
    intros chunk. exact I.
  - unfold ListDecoder.decodeIterator.
    apply position_free_bindG; [apply position_free_unpack_int|]. intros listSize.
    apply position_free_bindG; [now apply position_free_decode_items|]. intros items. exact I.
  - apply position_free_bindG; [|intros raw; exact I].
    now apply position_free_PacketFieldsDecoder.
Qed.

(** ** More bytes on the stream (C4) *)

Lemma exceeds_max_size_feed (more : list byte) (st : EncoderStreamAdapter) (n : nat) :
  exceeds_max_size (feed more st) n = exceeds_max_size st n.
Proof. reflexivity. Qed.

Lemma available_feed (more : list byte) (st : EncoderStreamAdapter) :
  (available st <= available (feed more st))%nat.
Proof. unfold available, feed. simpl. rewrite length_app. lia. Qed.

Lemma take_remaining_feed (more : list byte) (st : EncoderStreamAdapter) (n : nat) :
  (n <= available st)%nat ->
  take n (remaining (feed more st)) = take n (remaining st).
Proof.
  intros H. unfold remaining, feed. simpl. rewrite drop_app.
  apply take_app_le. rewrite length_drop. exact H.
Qed.

Lemma advance_feed (more : list byte) (st : EncoderStreamAdapter) (n : nat) :
  advance n (feed more st) = feed more (advance n st).
Proof. reflexivity. Qed.

(** Whatever a generator did on a stream, it does on the stream with more
    bytes behind, up to the point where it waited; from there it goes on as
    the suspended generator does when it is resumed. *)
Lemma run_feed (A : Type) (g : Gen A) (more : list byte) :
  forall st,
    match run g st with
    | Done a st' => run g (feed more st) = Done a (feed more st')
    | Raised e st' => exists st'', run g (feed more st) = Raised e st''
    | Waiting g' st' => run g (feed more st) = run g' (feed more st')
    | Diverged => run g (feed more st) = Diverged
    end.
Proof.
  induction g as [a|e|n wrap k IH|n k IH|k IH|p k IH|n k IH|n e|]; intros st;
    cbn [run].
  - reflexivity.
  - eauto.
  - rewrite exceeds_max_size_feed. destruct (exceeds_max_size st n); [eauto|].
    destruct (Nat.ltb_spec (available st) n) as [Hlt|Hge]; [reflexivity|].
    pose proof (available_feed more st).
    destruct (Nat.ltb_spec (available (feed more st)) n); [lia|].
    rewrite !read_enough by lia. rewrite take_remaining_feed by exact Hge.
    rewrite advance_feed. apply IH.
  - destruct (Nat.ltb_spec (available st) n) as [Hlt|Hge]; [reflexivity|].
    pose proof (available_feed more st).
    destruct (Nat.ltb_spec (available (feed more st)) n); [lia|].
    rewrite !read_enough by lia. rewrite take_remaining_feed by exact Hge.
    rewrite advance_feed. apply IH.
  - apply (IH (tell st) st).
  - apply (IH (seek p st)).
  - apply (IH (set_max_size n st)).
  - eauto.
  - reflexivity.
Qed.

(** A suspended generator that is resumed on the stream as it was yields
    again. *)
Lemma run_Waiting_again (A : Type) (g : Gen A) :
  forall st g' st', run g st = Waiting g' st' -> run g' st' = Waiting g' st'.
Proof.
  induction g as [a|e|n wrap k IH|n k IH|k IH|p k IH|n k IH|n e|]; intros st g' st';
    cbn [run]; try discriminate.
  - destruct (exceeds_max_size st n); [discriminate|].
    destruct (available st <? n)%nat eqn:Hav.
    + intros H. injection H as <- <-. cbn [run]. now rewrite Hav.
    + destruct (read (Z.of_nat n) st) as [chunk st1]. apply IH.
  - destruct (available st <? n)%nat eqn:Hav.
    + intros H. injection H as <- <-. cbn [run]. now rewrite Hav.
    + destruct (read (Z.of_nat n) st) as [chunk st1]. apply IH.
  - apply IH.
  - apply IH.
  - apply IH.
Qed.

Lemma tracks_run_Done (A : Type) (g : Gen A) :
  forall st hw a st',
    tracks g (stream_pos st) hw ->
    (stream_pos st <= hw)%nat -> (hw <= length (stream_bytes st))%nat ->
    run g st = Done a st' ->
    (stream_pos st' <= length (stream_bytes st'))%nat /\ stream_bytes st' = stream_bytes st.
Proof.
  induction g as [a0|e|n wrap k IH|n k IH|k IH|p k IH|n k IH|n e|];
    intros st hw a st' Ht Hpos Hhw; cbn [run tracks] in *; try discriminate.
  - intros H. injection H as <- <-. split; [lia|reflexivity].
  - destruct (exceeds_max_size st n); [discriminate|].
    destruct (Nat.ltb_spec (available st) n) as [Hlt|Hge]; [discriminate|].
    rewrite read_enough by exact Hge. intros H.
    unfold available in Hge.
    apply (IH _ (advance n st) (Nat.max hw (stream_pos st + n))) in H;
      simpl; try apply Ht; try lia. exact H.
  - destruct (Nat.ltb_spec (available st) n) as [Hlt|Hge]; [discriminate|].
    rewrite read_enough by exact Hge. intros H.
    unfold available in Hge.
    apply (IH _ (advance n st) (Nat.max hw (stream_pos st + n))) in H;
      simpl; try apply Ht; try lia. exact H.
  - intros H. apply (IH _ st hw) in H; auto.
  - destruct Ht as [Hp Ht]. intros H. apply (IH (seek p st) hw) in H; simpl; auto.
  - intros H. apply (IH (set_max_size n st) hw) in H; simpl; auto.
Qed.

Lemma position_free_tracks (A : Type) (g : Gen A) :
  position_free g -> forall pos hw, tracks g pos hw.
Proof.
  induction g as [a0|e|n wrap k IH|n k IH|k IH|p k IH|n k IH|n e|];
    cbn [position_free tracks]; auto; try contradiction.
Qed.

Lemma tracks_bindG (A B : Type) (g : Gen A) (f : A -> Gen B) :
  (forall a pos hw, (pos <= hw)%nat -> tracks (f a) pos hw) ->
  forall pos hw, (pos <= hw)%nat -> tracks g pos hw -> tracks (bindG g f) pos hw.
Proof.
  intros Hf. induction g as [a0|e|n wrap k IH|n k IH|k IH|p k IH|n k IH|n e|];
    intros pos hw Hle Hg; cbn [bindG tracks] in *; auto.
  - intros chunk. apply IH; [lia|apply Hg].
  - intros chunk. apply IH; [lia|apply Hg].
  - destruct Hg as [Hp Hg]. split; [exact Hp|]. now apply IH.
Qed.

Lemma feed_stream_of (bs : list byte) (i : nat) :
  feed (drop i bs) (stream_of (take i bs)) = stream_of bs.
Proof. unfold feed, stream_of. simpl. now rewrite take_drop. Qed.

(** Resumability of any generator that stays within the bytes it has
    seen. *)
Lemma resumable (A : Type) (g : Gen A) (bs : list byte) (i : nat) (v : A)
    (st_end : EncoderStreamAdapter) :
  tracks g 0 0 ->
  run g (stream_of bs) = Done v st_end ->
  stream_pos st_end = length bs ->
  (i < length bs)%nat ->
  exists g' st',
    run g (stream_of (take i bs)) = Waiting g' st' /\
    run g' st' = Waiting g' st' /\
    run g' (feed (drop i bs) st') = Done v st_end.
Proof.
  intros Ht Hdone Hend Hi.
  pose proof (run_feed A g (drop i bs) (stream_of (take i bs))) as Hfeed.
  rewrite feed_stream_of, Hdone in Hfeed.
  destruct (run g (stream_of (take i bs))) as [a st1|e st1|g' st1|] eqn:Hrun.
  - exfalso. injection Hfeed as -> ->.
    apply (tracks_run_Done A g _ 0%nat) in Hrun; simpl; try exact Ht; try lia.
    destruct Hrun as [Hle Hb]. simpl in Hend, Hb. rewrite Hb, length_take in Hle. lia.
  - destruct Hfeed as [st'' Hfeed]. discriminate.
  - exists g', st1. split; [reflexivity|]. split; [|now symmetry].
    eapply run_Waiting_again; eauto.
  - discriminate.
Qed.

Lemma tracks_resync (fuel : nat) :
  forall start hw, (start <= hw)%nat -> tracks (resync fuel start) start hw.
Proof.
  induction fuel as [|fuel IH]; intros start hw Hle; [exact I|].
  cbn [resync unpack_int unpackIterator bindG tracks calcsize]. intros chunk1 chunk2.
  destruct (negb _); [|exact I].
  cbn [tracks]. split; [lia|]. apply IH. lia.
Qed.

Lemma position_free_decode_locked (Version : Type) (FromString : str -> res Version)
    (complexType : PacketField Version) (packetLength : Z) :
  position_free (decode_locked FromString complexType packetLength).
Proof.
  unfold decode_locked. cbn [bindG position_free].
  apply position_free_bindG; [apply position_free_unpack_int|]. intros nameLen.
  apply position_free_bindG; [apply position_free_unpackIterator|]. intros name.
  apply position_free_bindG; [apply position_free_liftG|]. intros name'.
  apply position_free_bindG; [apply position_free_unpack_int|]. intros versionLen.
  apply position_free_bindG; [apply position_free_unpackIterator|]. intros version.
  apply position_free_bindG; [apply position_free_liftG|]. intros version'.
  apply position_free_bindG; [apply position_free_liftG|]. intros version''.
  destruct (getDefinition complexType name' version'') as [packet|]; [|exact I].
  apply position_free_bindG; [|intros raw; exact I].
  apply position_free_PacketFieldsDecoder.
  apply Forall_forall. intros nf _. apply position_free_decodeIterator.
Qed.

Lemma tracks_PacketEncoder_decodeIterator (Version : Type) (FromString : str -> res Version)
    (fuel : nat) (complexType : PacketField Version) (pos hw : nat) :
  (pos <= hw)%nat ->
  tracks (PacketEncoder_decodeIterator FromString fuel complexType) pos hw.
Proof.
  intros Hle. unfold PacketEncoder_decodeIterator. cbn [tracks].
  apply tracks_bindG; [|exact Hle|now apply tracks_resync].
  intros locked pos' hw' Hle'.
  apply tracks_bindG; [|exact Hle'|].
  - intros result pos'' hw'' _. unfold frame_tail. cbn [tracks].
    destruct (negb _); [exact I|]. destruct (fst result); exact I.
  - apply position_free_tracks, position_free_decode_locked.
Qed.

(** C4: a decoder that is run on a proper prefix of a valid encoding
    yields [DECODE_WAITING_FOR_STREAM] without returning a value, yields
    again for as long as nothing arrives, and, resumed once the rest of the
    bytes is on the stream, returns what decoding the complete bytes in one
    pass returns. This holds for the decoder of every field and for the
    decoder of framed packets. *)
Theorem C4_resumable_decoding :
  (forall (f : field) (bs : list byte) (i : nat) (v : field) (st_end : EncoderStreamAdapter),
     decode f (stream_of bs) = Done v st_end ->
     stream_pos st_end = length bs ->
     (i < length bs)%nat ->
     exists g' st',
       run (decodeIterator f) (stream_of (take i bs)) = Waiting g' st' /\
       run g' st' = Waiting g' st' /\
       run g' (feed (drop i bs) st') = Done v st_end) /\
  (forall (Version : Type) (FromString : str -> res Version) (fuel : nat)
          (complexType : PacketField Version) (bs : list byte) (i : nat)
          (v : PacketField Version) (st_end : EncoderStreamAdapter),
     run (PacketEncoder_decodeIterator FromString fuel complexType) (stream_of bs)
       = Done v st_end ->
     stream_pos st_end = length bs ->
     (i < length bs)%nat ->
     exists g' st',
       run (PacketEncoder_decodeIterator FromString fuel complexType) (stream_of (take i bs))
         = Waiting g' st' /\
       run g' st' = Waiting g' st' /\
       run g' (feed (drop i bs) st') = Done v st_end).
Proof.
  split.
  - intros f bs i v st_end Hdone Hend Hi.
    apply resumable; auto. apply position_free_tracks, position_free_decodeIterator.
  - intros Version FromString fuel complexType bs i v st_end Hdone Hend Hi.
    apply resumable; auto. now apply tracks_PacketEncoder_decodeIterator.
Qed.

(** The first three of the four bytes of a UINT. *)
Lemma C4_witness :
  exists g' st',
    run (decodeIterator (UINT no_attributes None)) (stream_of (take 3 [x00; x00; x01; xf4]))
      = Waiting g' st' /\
    run g' st' = Waiting g' st' /\
    run g' (feed (drop 3 [x00; x00; x01; xf4]) st') =
      Done (UINT no_attributes (Some 500)) (mkAdapter [x00; x00; x01; xf4] 4 None).
Proof.
  destruct C4_resumable_decoding as [H _].
  apply (H (UINT no_attributes None) [x00; x00; x01; xf4] 3%nat); [reflexivity|reflexivity|].
  simpl. lia.
Defined.

(** ** Writing to the stream *)

Lemma in_range_write (bs : list byte) (st : EncoderStreamAdapter) : in_range (write bs st).
Proof.
  unfold in_range, write. simpl. rewrite !length_app, length_take, length_replicate. lia.
Qed.

Lemma write_nil (st : EncoderStreamAdapter) : in_range st -> write [] st = st.
Proof.
  unfold in_range, write. intros H. destruct st as [old p m]. simpl in *.
  replace (p - length old)%nat with 0%nat by lia. simpl.
  rewrite Nat.add_0_r, take_drop. reflexivity.
Qed.

Lemma write_write (b1 b2 : list byte) (st : EncoderStreamAdapter) :
  write b2 (write b1 st) = write (b1 ++ b2) st.
Proof.
  unfold write. destruct st as [old p m]. cbn [stream_bytes stream_pos _max_size].
  set (pre := take p old ++ replicate (p - length old) x00).
  assert (Hpre : length pre = p).
  { unfold pre. rewrite length_app, length_take, length_replicate. lia. }
  set (rest := drop (p + length b1) old).
  replace (take p old ++ replicate (p - length old) x00 ++ b1 ++ rest)
    with ((pre ++ b1) ++ rest) by (unfold pre; now rewrite <- !app_assoc).
  assert (Hlen : length (pre ++ b1) = (p + length b1)%nat)
    by (rewrite length_app; lia).
  rewrite <- Hlen at 1. rewrite take_app_length.
  replace (p + length b1 - length ((pre ++ b1) ++ rest))%nat with 0%nat
    by (rewrite length_app; lia).
  rewrite <- Hlen at 1. rewrite drop_app_add'  by reflexivity.
  unfold rest. rewrite drop_drop.
  cbn [replicate app]. rewrite length_app.
  replace (p + (length b1 + length b2))%nat with (p + length b1 + length b2)%nat by lia.
  f_equal. unfold pre. now rewrite <- !app_assoc.
Qed.

Lemma bind_Ok_inv (A B : Type) (m : M A) (k : A -> M B) (st st' : EncoderStreamAdapter)
    (b : B) :
  bind m k st = (Ok b, st') -> exists a st1, m st = (Ok a, st1) /\ k a st1 = (Ok b, st').
Proof.
  unfold bind. destruct (m st) as [[a|e] st1]; [eauto|discriminate].
Qed.

Lemma appends_ret (A : Type) (a : A) : appends (ret a).
Proof.
  intros st a' st' Hr H. injection H as <- <-. exists []. now rewrite write_nil.
Qed.

Lemma appends_lift (A : Type) (r : res A) : appends (lift r).
Proof.
  intros st a' st' Hr H. unfold lift in H. injection H as _ <-.
  exists []. now rewrite write_nil.
Qed.

Lemma appends_pack (r : res (list byte)) : appends (pack r).
Proof.
  intros st a' st' Hr H. unfold pack in H. destruct r as [bs|e]; [|discriminate].
  injection H as _ <-. eauto.
Qed.

Lemma appends_bind (A B : Type) (m : M A) (k : A -> M B) :
  appends m -> (forall a, appends (k a)) -> appends (bind m k).
Proof.
  intros Hm Hk st b st' Hr H. apply bind_Ok_inv in H as (a & st1 & H1 & H2).
  apply Hm in H1 as [b1 ->]; [|exact Hr].
  apply Hk in H2 as [b2 ->]; [|apply in_range_write].
  exists (b1 ++ b2). apply write_write.
Qed.

Lemma appends_try_except (A : Type) (m : M A) (handler : exn -> exn) :
  appends m -> appends (try_except m handler).
Proof.
  intros Hm st a st' Hr H. unfold try_except in H.
  destruct (m st) as [[a0|e] st1] eqn:Hrun; [|discriminate].
  injection H as <- <-. eapply Hm; eauto.
Qed.

Lemma appends_encode_items (actions : list (M unit)) :
  Forall appends actions -> appends (ListEncoder.encode_items actions).
Proof.
  induction 1 as [|m actions Hm _ IH]; cbn [ListEncoder.encode_items].
  - apply appends_ret.
  - apply appends_bind; [exact Hm|]. intros _. exact IH.
Qed.

Lemma appends_write_fields (fieldToTag : Bijection) (encodeFields : list (string * M unit)) :
  Forall (fun na => appends (snd na)) encodeFields ->
  appends (PacketFieldsEncoder.write_fields fieldToTag encodeFields).
Proof.
  induction 1 as [|[n m] encodeFields Hm _ IH]; cbn [PacketFieldsEncoder.write_fields].
  - apply appends_ret.
  - apply appends_bind; [|intros _; exact IH].
    apply appends_try_except. apply appends_bind; [apply appends_lift|]. intros tag.
    apply appends_bind; [apply appends_pack|]. intros _. exact Hm.
Qed.

Lemma collect_Forall (P : M unit -> Prop) (raw : list (string * field * M unit))
    (encodeFields : list (string * M unit)) :
  Forall (fun nfm => P (snd nfm)) raw ->
  PacketFieldsEncoder.collect raw = Ok encodeFields ->
  Forall (fun na => P (snd na)) encodeFields.
Proof.
  intros Hraw. revert encodeFields.
  induction Hraw as [|[[n f] m] raw Hm _ IH]; intros encodeFields;
    cbn [PacketFieldsEncoder.collect].
  - intros H. injection H as <-. constructor.
  - destruct (is_unset f).
    + destruct (bool_decide _); [apply IH|discriminate].
    + destruct (PacketFieldsEncoder.collect raw) as [rest|e]; [|discriminate].
      intros H. injection H as <-. constructor; [exact Hm|now apply IH].
Qed.

Lemma appends_PacketFieldsEncoder (topEncoder : field -> M unit)
    (FIELDS : list (string * field)) :
  Forall (fun nf => appends (topEncoder (snd nf))) FIELDS ->
  appends (PacketFieldsEncoder.encode topEncoder FIELDS).
Proof.
  intros H. unfold PacketFieldsEncoder.encode.
  apply appends_bind; [apply appends_lift|]. intros fieldToTag.
  intros st a st' Hr Hrun. unfold bind at 1 in Hrun. unfold lift at 1 in Hrun.
  destruct (PacketFieldsEncoder.collect _) as [encodeFields|e] eqn:Hc; [|discriminate].
  assert (Happ : appends (bind (pack (pack_unsigned 2 (Z.of_nat (length encodeFields))))
                     (fun _ => PacketFieldsEncoder.write_fields fieldToTag encodeFields))).
  { apply appends_bind; [apply appends_pack|]. intros _.
    apply appends_write_fields.
    apply (collect_Forall appends _ _) in Hc; [exact Hc|].
    clear Hc. induction H as [|[n f] FIELDS Hf _ IH]; constructor; auto. }
  exact (Happ st a st' Hr Hrun).
Qed.

Lemma appends_encode (f : field) : appends (encode f).
Proof.
  induction f as [a d|a d|a d|a d|a d|a d|a elem d IHelem IHitems|a set FIELDS IH]
    using field_induction; cbn [encode].
  1-4: unfold IntrinsicTypeStandardEncoder.encode;
       (apply appends_bind; [apply appends_lift|intros c; apply appends_pack]).
  - unfold StringEncoder.encode. destruct d as [data|]; [|apply appends_lift].
    destruct (_ >? _); [apply appends_lift|].
    apply appends_bind; [apply appends_lift|intros c; apply appends_pack].
  - unfold BufferEncoder.encode. destruct d as [data|]; [|apply appends_lift].
    destruct (_ >? _); [apply appends_lift|apply appends_pack].
  - destruct d as [items|]; [|apply appends_lift]. unfold ListEncoder.encode.
    apply appends_bind; [apply appends_pack|]. intros _.
    apply appends_encode_items. apply Forall_fmap. exact IHitems.
  - destruct set; [|apply appends_lift]. now apply appends_PacketFieldsEncoder.
Qed.

(** ** Frames (C2) *)

Lemma concat_packed_Ok_inv (r1 r2 : res (list byte)) (bs : list byte) :
  concat_packed r1 r2 = Ok bs -> exists b1 b2, r1 = Ok b1 /\ r2 = Ok b2 /\ bs = b1 ++ b2.
Proof.
  destruct r1 as [b1|e1], r2 as [b2|e2]; cbn [concat_packed]; try discriminate.
  intros H. injection H as <-. eauto.
Qed.

Lemma pack_Ok_inv (r : res (list byte)) (st st' : EncoderStreamAdapter) (u : unit) :
  pack r st = (Ok u, st') -> exists bs, r = Ok bs /\ st' = write bs st.
Proof.
  unfold pack. destruct r as [bs|e]; [|discriminate]. intros H. injection H as _ <-. eauto.
Qed.

(** Writing over the start of what an earlier write left. *)
Lemma write_over (h body : list byte) (st : EncoderStreamAdapter) :
  (length h <= length body)%nat ->
  write h (seek (stream_pos st) (write body st)) =
  seek (stream_pos st + length h)%nat (write (h ++ drop (length h) body) st).
Proof.
  intros Hle. unfold write, seek. destruct st as [old p m].
  cbn [stream_bytes stream_pos _max_size].
  set (pre := take p old ++ replicate (p - length old) x00).
  assert (Hpre : p = length pre).
  { unfold pre. rewrite length_app, length_take, length_replicate. lia. }
  replace (take p old ++ replicate (p - length old) x00 ++ body ++ drop (p + length body) old)
    with (pre ++ body ++ drop (p + length body) old)
    by (unfold pre; now rewrite <- !app_assoc).
  rewrite (take_app_length' pre _ p Hpre).
  replace (p - length (pre ++ body ++ drop (p + length body) old))%nat with 0%nat
    by (rewrite !length_app; lia).
  rewrite (drop_app_add' pre _ p (length h) Hpre).
  rewrite drop_app_le by exact Hle.
  rewrite length_app, length_drop.
  replace (p + (length h + (length body - length h)))%nat with (p + length body)%nat by lia.
  cbn [replicate app]. f_equal. unfold pre. rewrite <- !app_assoc. reflexivity.
Qed.

Lemma frame_between_write (body : list byte) (st : EncoderStreamAdapter) (q : nat) :
  q = (stream_pos st + length body)%nat ->
  frame_between st (seek q (write body st)) = body.
Proof.
  intros ->. unfold frame_between, write, seek. destruct st as [old p m].
  cbn [stream_bytes stream_pos _max_size].
  set (pre := take p old ++ replicate (p - length old) x00).
  assert (Hpre : p = length pre).
  { unfold pre. rewrite length_app, length_take, length_replicate. lia. }
  replace (take p old ++ replicate (p - length old) x00 ++ body ++ drop (p + length body) old)
    with (pre ++ body ++ drop (p + length body) old)
    by (unfold pre; now rewrite <- !app_assoc).
  rewrite (drop_app_length' pre _ p Hpre).
  replace (p + length body - p)%nat with (length body) by lia.
  apply take_app_length.
Qed.

Section Frames.
Variable Version : Type.

Lemma PacketEncoder_encode_frame (complexType : PacketField Version)
    (st st' : EncoderStreamAdapter) :
  PacketEncoder_encode complexType st = (Ok tt, st') ->
  exists tail : list byte,
    let packetLength := 16 + Z.of_nat (length tail) in
    0 <= packetLength < 256 ^ 8 /\
    0 <= Z.lxor packetLength LENGTH_CHECK_MASK < 256 ^ 8 /\
    stream_pos st' = (stream_pos st + 16 + length tail)%nat /\
    frame_between st st' =
      be_bytes 8 packetLength ++ be_bytes 8 (Z.lxor packetLength LENGTH_CHECK_MASK) ++ tail.
Proof.
  unfold PacketEncoder_encode. intros H.
  apply bind_Ok_inv in H as (start & s0 & Htell & H).
  unfold tellM in Htell. injection Htell as <- <-.
  apply bind_Ok_inv in H as (packet & s0 & Hp & H).
  unfold lift in Hp. injection Hp as Hp <-.
  apply bind_Ok_inv in H as (packetDefEncoded & s0 & Hd & H).
  unfold lift in Hd. injection Hd as Hd <-.
  apply bind_Ok_inv in H as (packetVerEncoded & s0 & Hv & H).
  unfold lift in Hv. injection Hv as Hv <-.
  apply bind_Ok_inv in H as ([] & s1 & Hhead & H).
  apply pack_Ok_inv in Hhead as (hb & Hhb & ->).
  apply concat_packed_Ok_inv in Hhb as (z1 & hb1 & Hz1 & Hhb & ->).
  apply concat_packed_Ok_inv in Hhb as (z2 & hb2 & Hz2 & Hhb & ->).
  apply pack_unsigned_inv in Hz1 as [_ ->]. apply pack_unsigned_inv in Hz2 as [_ ->].
  clear Hhb.
  apply bind_Ok_inv in H as ([] & s2 & Hbody & H).
  apply appends_PacketFieldsEncoder in Hbody as [bb ->];
    [|apply Forall_forall; intros nf _; apply appends_encode|apply in_range_write].
  rewrite write_write in H.
  remember ((be_bytes 8 0 ++ be_bytes 8 0 ++ hb2) ++ bb) as body eqn:Hbodydef.
  assert (Hbody : length body = (16 + length (hb2 ++ bb))%nat).
  { subst body. rewrite !length_app, !be_bytes_length. lia. }
  apply bind_Ok_inv in H as (packetEndPosition & s3 & Htell & H).
  unfold tellM in Htell.
  assert (HendP : packetEndPosition = (stream_pos st + length body)%nat)
    by (injection Htell as <- _; reflexivity).
  assert (Hs3 : s3 = write body st) by (injection Htell as _ <-; reflexivity).
  clear Htell. subst s3 packetEndPosition.
  apply bind_Ok_inv in H as ([] & s3 & Hseek & H).
  unfold seekM in Hseek.
  assert (Hs3 : s3 = seek (stream_pos st) (write body st))
    by (injection Hseek as <-; reflexivity).
  clear Hseek. subst s3.
  apply bind_Ok_inv in H as ([] & s4 & Hlen & H).
  apply pack_Ok_inv in Hlen as (h1 & Hh1 & ->).
  apply bind_Ok_inv in H as ([] & s5 & Hchk & H).
  apply pack_Ok_inv in Hchk as (h2 & Hh2 & ->).
  unfold seekM in H.
  assert (Hst' : st' = seek (stream_pos st + length body)
                         (write h2 (write h1 (seek (stream_pos st) (write body st)))))
    by (injection H as <-; reflexivity).
  clear H. subst st'.
  change (tell st) with (stream_pos st) in Hh1, Hh2.
  replace (Z.of_nat (stream_pos st + length body) - Z.of_nat (stream_pos st))
    with (16 + Z.of_nat (length (hb2 ++ bb))) in Hh1, Hh2 by lia.
  apply pack_unsigned_inv in Hh1 as [Hr1 ->]. apply pack_unsigned_inv in Hh2 as [Hr2 ->].
  exists (hb2 ++ bb). cbn zeta.
  set (packetLength := 16 + Z.of_nat (length (hb2 ++ bb))) in *.
  split; [exact Hr1|]. split; [exact Hr2|].
  split; [cbn [seek stream_pos]; lia|].
  rewrite write_write.
  set (h := be_bytes 8 packetLength ++ be_bytes 8 (Z.lxor packetLength LENGTH_CHECK_MASK)).
  assert (Hh : length h = 16%nat) by (unfold h; rewrite length_app, !be_bytes_length; lia).
  rewrite write_over by lia.
  replace (seek (stream_pos st + length body)
             (seek (stream_pos st + length h) (write (h ++ drop (length h) body) st)))
    with (seek (stream_pos st + length body) (write (h ++ drop (length h) body) st))
    by reflexivity.
  rewrite frame_between_write by (rewrite length_app, length_drop; lia).
  rewrite Hh. unfold h. subst body. rewrite <- !app_assoc.
  reflexivity.
Qed.
End Frames.

(** C2: in every frame that the packet encoder produces, the first eight
    bytes are the length of the frame, header included, as a big-endian
    u64, and the next eight are that length XOR 0xFFFFFFFFFFFFFFFF. The
    packet "demo" of version "1.0.0" with an empty body is a frame of 29
    bytes that starts with 0x000000000000001D and 0xFFFFFFFFFFFFFFE2. *)
Theorem C2_frame_integrity :
  (forall (Version : Type) (complexType : PacketField Version)
          (st st' : EncoderStreamAdapter),
     PacketEncoder_encode complexType st = (Ok tt, st') ->
     length (frame_between st st') = (stream_pos st' - stream_pos st)%nat /\
     be_value (take 8 (frame_between st st')) = Z.of_nat (length (frame_between st st')) /\
     be_value (take 8 (drop 8 (frame_between st st'))) =
       Z.lxor (Z.of_nat (length (frame_between st st'))) LENGTH_CHECK_MASK) /\
  (exists st',
     PacketEncoder_encode demo_field empty_stream = (Ok tt, st') /\
     frame_between empty_stream st' =
       [x00; x00; x00; x00; x00; x00; x00; x1d;
        xff; xff; xff; xff; xff; xff; xff; xe2;
        x04; x64; x65; x6d; x6f;
        x05; x31; x2e; x30; x2e; x30;
        x00; x00] /\
     length (frame_between empty_stream st') = 29%nat /\
     be_value (take 8 (frame_between empty_stream st')) = 29 /\
     be_value (take 8 (drop 8 (frame_between empty_stream st'))) = 18446744073709551586).
Proof.
  split.
  - intros Version complexType st st' H.
    apply PacketEncoder_encode_frame in H as (tail & Hr1 & Hr2 & Hpos & Hframe).
    cbn zeta in *. rewrite Hframe.
    set (packetLength := 16 + Z.of_nat (length tail)) in *.
    assert (Hlen : length (be_bytes 8 packetLength ++
                           be_bytes 8 (Z.lxor packetLength LENGTH_CHECK_MASK) ++ tail)
                   = (16 + length tail)%nat)
      by (rewrite !length_app, !be_bytes_length; lia).
    rewrite Hlen. split; [lia|].
    replace (Z.of_nat (16 + length tail)) with packetLength by (unfold packetLength; lia).
    split.
    + rewrite take_app_length' by (now rewrite be_bytes_length).
      rewrite be_value_bytes. apply Z.mod_small. exact Hr1.
    + rewrite drop_app_length' by (now rewrite be_bytes_length).
      rewrite take_app_length' by (now rewrite be_bytes_length).
      rewrite be_value_bytes. apply Z.mod_small. exact Hr2.
  - eexists. split; [vm_compute; reflexivity|]. repeat split; vm_compute; reflexivity.
Qed.

(** The frame of the "demo" packet, written behind three bytes that are
    already on the stream. *)
Lemma C2_witness :
  be_value (take 8 (frame_between (mkAdapter [x01; x02; x03] 3 None)
     (snd (PacketEncoder_encode demo_field (mkAdapter [x01; x02; x03] 3 None))))) = 29.
Proof.
  destruct C2_frame_integrity as [H _].
  destruct (H unit demo_field (mkAdapter [x01; x02; x03] 3 None)
              (snd (PacketEncoder_encode demo_field (mkAdapter [x01; x02; x03] 3 None))))
    as (Hlen & Hfirst & _).
  - vm_compute. reflexivity.
  - rewrite Hfirst. vm_compute. reflexivity.
Defined.

(** ** Round trips (C1, C7) *)

Lemma emits_pack (r : res (list byte)) (bs : list byte) : r = Ok bs -> emits (pack r) bs.
Proof. intros -> st _. reflexivity. Qed.

Lemma emits_ret : emits (ret tt) [].
Proof. intros st Hr. unfold ret. now rewrite write_nil. Qed.

Lemma emits_bind (m k : M unit) (b1 b2 : list byte) :
  emits m b1 -> emits k b2 -> emits (bind m (fun _ => k)) (b1 ++ b2).
Proof.
  intros Hm Hk st Hr. unfold bind. rewrite (Hm st Hr).
  rewrite (Hk _ (in_range_write b1 st)). now rewrite write_write.
Qed.

Lemma emits_lift (A : Type) (r : res A) (a : A) (k : A -> M unit) (bs : list byte) :
  r = Ok a -> emits (k a) bs -> emits (bind (lift r) k) bs.
Proof. intros -> Hk st Hr. unfold bind, lift. now apply Hk. Qed.

Lemma emits_try_except (m : M unit) (handler : exn -> exn) (bs : list byte) :
  emits m bs -> emits (try_except m handler) bs.
Proof. intros Hm st Hr. unfold try_except. now rewrite (Hm st Hr). Qed.

Lemma emits_encoded (f : field) (bs : list byte) : emits (encode f) bs -> encoded f = Ok bs.
Proof.
  intros H. unfold encoded. rewrite (H empty_stream) by (unfold in_range; simpl; lia).
  now rewrite write_empty_stream.
Qed.

Lemma fits_exceeds (st : EncoderStreamAdapter) (n k : nat) :
  fits st n -> (k <= n)%nat -> exceeds_max_size st k = false.
Proof.
  unfold fits, exceeds_max_size. destruct (_max_size st) as [m|]; [|reflexivity].
  intros [->|Hle] Hk; [reflexivity|].
  destruct (Z.gtb_spec (Z.of_nat k) m); [lia|]. now rewrite andb_false_r.
Qed.

Lemma fits_le (st : EncoderStreamAdapter) (n k : nat) :
  fits st n -> (k <= n)%nat -> fits st k.
Proof.
  unfold fits. destruct (_max_size st) as [m|]; [|auto]. intros [->|Hle] Hk; [now left|].
  right. lia.
Qed.

Lemma fits_advance (st : EncoderStreamAdapter) (n k : nat) :
  fits (advance k st) n <-> fits st n.
Proof. reflexivity. Qed.

Lemma advance_0 (st : EncoderStreamAdapter) : advance 0 st = st.
Proof. destruct st as [bs p m]. unfold advance. simpl. now rewrite Nat.add_0_r. Qed.

Lemma advance_advance (st : EncoderStreamAdapter) (n k : nat) :
  advance k (advance n st) = advance (n + k) st.
Proof. unfold advance. simpl. f_equal. lia. Qed.

Lemma holds_app (st : EncoderStreamAdapter) (b1 b2 tail : list byte) :
  holds st (b1 ++ b2) tail ->
  holds st b1 (b2 ++ tail) /\ holds (advance (length b1) st) b2 tail.
Proof.
  unfold holds. intros H. rewrite <- app_assoc in H. split; [exact H|].
  rewrite remaining_advance, H. apply drop_app_length.
Qed.

Lemma decodes_Return (A : Type) (v : A) : decodes (Return v) [] v.
Proof. intros st tail _ _. cbn [run length]. now rewrite advance_0. Qed.

Lemma decodes_bindG (A B : Type) (g : Gen A) (f : A -> Gen B) (b1 b2 : list byte)
    (a : A) (v : B) :
  decodes g b1 a -> decodes (f a) b2 v -> decodes (bindG g f) (b1 ++ b2) v.
Proof.
  intros Hg Hf st tail Hh Hfit. rewrite length_app in *.
  apply holds_app in Hh as [H1 H2].
  rewrite run_bindG, (Hg st _ H1) by (eapply fits_le; eauto; lia).
  cbn [bind_outcome]. rewrite (Hf _ _ H2) by (apply fits_advance; eapply fits_le; eauto; lia).
  now rewrite advance_advance.
Qed.

Lemma decodes_liftG (A B : Type) (r : res A) (a : A) (f : A -> Gen B) (bs : list byte)
    (v : B) :
  r = Ok a -> decodes (f a) bs v -> decodes (bindG (liftG r) f) bs v.
Proof. intros -> H. exact H. Qed.

Lemma decodes_try_exceptG (A : Type) (g : Gen A) (handler : exn -> exn) (bs : list byte)
    (v : A) :
  decodes g bs v -> decodes (try_exceptG g handler) bs v.
Proof.
  intros Hg st tail Hh Hfit. now rewrite run_try_exceptG, (Hg st tail Hh Hfit).
Qed.

Lemma decodes_unpackIterator (bs : list byte) : decodes (unpackIterator (length bs)) bs bs.
Proof.
  intros st tail Hh Hfit. unfold unpackIterator.
  rewrite run_Unpack;
    [|eapply fits_exceeds; eauto|eapply holds_available; eauto].
  now rewrite (holds_take _ _ _ Hh).
Qed.

Lemma decodes_unpack_int (c : packCode) (bs : list byte) :
  length bs = calcsize c -> decodes (unpack_int c) bs (struct_unpack_int c bs).
Proof.
  intros Hl st tail Hh Hfit. apply run_unpack_int with (tail := tail); auto.
  rewrite <- Hl. eapply fits_exceeds; eauto.
Qed.

Lemma decodes_unsigned (c : packCode) (v : Z) :
  In c [code_B; code_H; code_I; code_Q] ->
  0 <= v < 256 ^ Z.of_nat (calcsize c) ->
  decodes (unpack_int c) (be_bytes (calcsize c) v) v.
Proof.
  intros Hc Hv.
  replace v with (struct_unpack_int c (be_bytes (calcsize c) v)) at 2.
  - apply decodes_unpack_int, be_bytes_length.
  - destruct Hc as [<-|[<-|[<-|[<-|[]]]]]; cbn [struct_unpack_int];
      now apply unpack_pack_unsigned.
Qed.

Lemma decodes_map (A B : Type) (g : Gen A) (h : A -> B) (bs : list byte) (a : A) :
  decodes g bs a -> decodes (bindG g (fun x => Return (h x))) bs (h a).
Proof.
  intros Hg. rewrite <- (app_nil_r bs). eapply decodes_bindG; [exact Hg|].
  apply decodes_Return.
Qed.

Lemma round_trips_int_field (signed : bool) (a : attributes) (v : Z) :
  declared_MaxValue a < 2 ^ 64 ->
  representable signed (smallest_width (declared_MaxValue a)) v ->
  round_trips (int_field signed a (Some v)).
Proof.
  intros Hlt Hr.
  destruct (_getPackCode_width signed a Hlt) as (c & Hc & Hw & _).
  fold (int_table signed) in Hc.
  destruct (struct_pack_int_width signed a c v Hlt Hc) as (_ & Hp & Hu).
  pose proof (smallest_width_spec _ Hlt) as (Hin & _).
  assert (Hpos : (0 < calcsize c)%nat).
  { rewrite Hw. destruct Hin as [Hi|[Hi|[Hi|[Hi|[]]]]]; rewrite <- Hi; lia. }
  rewrite <- Hw in Hr.
  assert (Hpk : exists bs, struct_pack_int c (Some v) = Ok bs /\ length bs = calcsize c /\
                           struct_unpack_int c bs = v).
  { rewrite Hp, Hu. destruct signed; unfold representable in Hr.
    - rewrite pack_signed_ok by exact Hr. eexists. split; [reflexivity|].
      split; [apply be_bytes_length|now apply unpack_pack_signed].
    - rewrite pack_unsigned_ok by exact Hr. eexists. split; [reflexivity|].
      split; [apply be_bytes_length|now apply unpack_pack_unsigned]. }
  destruct Hpk as (bs & Hpk & Hl & Hv). exists bs. split.
  - intros st Hst. rewrite encode_int_field, Hc. unfold pack. now rewrite Hpk.
  - replace (unset (int_field signed a (Some v))) with (int_field signed a None)
      by (destruct signed; reflexivity).
    rewrite decodeIterator_int_field, Hc.
    unfold IntrinsicTypeStandardDecoder.decodeIterator. cbn [liftG bindG].
    rewrite <- Hv, <- Hl.
    apply (decodes_map _ _ (unpackIterator (length bs))
             (fun chunk => int_field signed a (Some (struct_unpack_int c chunk)))).
    apply decodes_unpackIterator.
Qed.

Lemma round_trips_BOOL (a : attributes) (b : bool) : round_trips (BOOL a (Some b)).
Proof.
  exists [if b then x01 else x00]. split.
  - intros st Hst. reflexivity.
  - cbn [unset decodeIterator]. unfold IntrinsicTypeStandardDecoder.decodeIterator.
    cbn [liftG bindG].
    replace (BOOL a (Some b))
      with ((fun chunk => BOOL a (Some (struct_unpack_bool chunk))) [if b then x01 else x00])
      by (destruct b; reflexivity).
    apply (decodes_map _ _ (unpackIterator 1)
             (fun chunk => BOOL a (Some (struct_unpack_bool chunk)))).
    apply (decodes_unpackIterator [if b then x01 else x00]).
Qed.

Lemma utf8_encode_ascii (s : str) :
  Forall (fun c => 0 <= c < 128) s -> utf8_encode s = Ok (map byte_of_Z s).
Proof.
  induction 1 as [|c s Hc _ IH]; [reflexivity|].
  cbn [utf8_encode map]. rewrite IH. unfold utf8_encode_char.
  destruct (Z.ltb_spec c 0); [lia|]. destruct (Z.ltb_spec c 128); [|lia]. reflexivity.
Qed.

Lemma utf8_decode_ascii (s : str) :
  Forall (fun c => 0 <= c < 128) s -> utf8_decode (map byte_of_Z s) = Ok s.
Proof.
  induction 1 as [|c s Hc _ IH]; [reflexivity|].
  cbn [utf8_decode map]. rewrite IH, Z_of_byte_of_Z, Z.mod_small by lia.
  destruct (Z.ltb_spec c 128); [|lia]. reflexivity.
Qed.

Lemma pack_s_exact (bs : list byte) : pack_s (length bs) bs = bs.
Proof.
  unfold pack_s. rewrite firstn_all, Nat.sub_diag. cbn [replicate]. apply app_nil_r.
Qed.

Lemma round_trips_STRING (a : attributes) (s : str) :
  Z.of_nat (length s) <= 65535 ->
  Forall (fun c => 0 <= c < 128) s ->
  round_trips (STRING a (Some s)).
Proof.
  intros Hlen Hascii.
  pose proof (utf8_encode_ascii s Hascii) as Henc.
  pose proof (utf8_decode_ascii s Hascii) as Hdec.
  assert (Hl : length (map byte_of_Z s) = length s) by apply length_map.
  exists (be_bytes 2 (Z.of_nat (length s)) ++ map byte_of_Z s). split.
  - intros st Hst. cbn [encode]. unfold StringEncoder.encode.
    destruct (Z.gtb_spec (Z.of_nat (length s)) StringEncoder.MAX_LENGTH) as [Hgt|_].
    { unfold StringEncoder.MAX_LENGTH, StringEncoder.STRING_LENGTH_BYTES in Hgt.
      simpl in Hgt. lia. }
    unfold bind, lift. rewrite Henc. unfold pack.
    rewrite pack_unsigned_ok by (simpl; lia). cbn [concat_packed].
    rewrite <- Hl at 2. now rewrite pack_s_exact.
  - cbn [unset decodeIterator]. unfold StringDecoder.decodeIterator.
    eapply decodes_bindG.
    + apply (decodes_unsigned code_H); [simpl; tauto|simpl; lia].
    + rewrite Nat2Z.id, <- Hl.
      rewrite <- (app_nil_r (map byte_of_Z s)) at 2.
      eapply decodes_bindG; [apply decodes_unpackIterator|].
      eapply decodes_liftG; [exact Hdec|]. apply decodes_Return.
Qed.

Lemma round_trips_BUFFER (a : attributes) (data : list byte) :
  Z.of_nat (length data) < 2 ^ 64 ->
  round_trips (BUFFER a (Some data)).
Proof.
  intros Hlen.
  exists (be_bytes 8 (Z.of_nat (length data)) ++ data). split.
  - intros st Hst. cbn [encode]. unfold BufferEncoder.encode.
    destruct (Z.gtb_spec (Z.of_nat (length data)) BufferEncoder.MAX_LENGTH) as [Hgt|_].
    { unfold BufferEncoder.MAX_LENGTH, BufferEncoder.BUFFER_LENGTH_BYTES in Hgt.
      simpl in Hgt. lia. }
    unfold pack. rewrite pack_unsigned_ok by (simpl; lia). cbn [concat_packed].
    now rewrite pack_s_exact.
  - cbn [unset decodeIterator]. unfold BufferDecoder.decodeIterator.
    eapply decodes_bindG.
    + apply (decodes_unsigned code_Q); [simpl; tauto|simpl; lia].
    + rewrite Nat2Z.id.
      apply (decodes_map _ _ (unpackIterator (length data))
               (fun bufData => BUFFER a (Some bufData))).
      apply decodes_unpackIterator.
Qed.

Lemma emits_encode_items (items : list field) (chunks : list (list byte)) :
  Forall2 (fun x c => emits (encode x) c) items chunks ->
  emits (ListEncoder.encode_items (map encode items)) (concat chunks).
Proof.
  induction 1 as [|x c items chunks Hx _ IH]; cbn [map ListEncoder.encode_items concat].
  - apply emits_ret.
  - now apply emits_bind.
Qed.

Lemma decodes_decode_items (item : Gen field) (xs : list field) (chunks : list (list byte)) :
  Forall2 (fun x c => decodes item c x) xs chunks ->
  forall i acc,
    decodes (ListDecoder.decode_items item (length xs) i acc) (concat chunks) (acc ++ xs).
Proof.
  induction 1 as [|x c xs chunks Hx _ IH]; intros i acc;
    cbn [length ListDecoder.decode_items concat].
  - rewrite app_nil_r. apply decodes_Return.
  - eapply decodes_bindG; [apply decodes_try_exceptG, Hx|].
    replace (acc ++ x :: xs) with ((acc ++ [x]) ++ xs) by (now rewrite <- app_assoc).
    apply IH.
Qed.

Lemma round_trips_LIST (a : attributes) (elem : field) (items : list field) :
  Z.of_nat (length items) <= 65535 ->
  unset elem = elem ->
  Forall (fun x => valid x /\ unset x = elem) items ->
  Forall (fun x => valid x -> round_trips x) items ->
  round_trips (LIST a elem (Some items)).
Proof.
  intros Hlen Helem Hvalid IH.
  assert (Hchunks : exists chunks,
            Forall2 (fun x c => emits (encode x) c) items chunks /\
            Forall2 (fun x c => decodes (decodeIterator elem) c x) items chunks).
  { clear Hlen. induction items as [|x items IHitems].
    - exists []. split; constructor.
    - apply Forall_cons in Hvalid as [[Hx Hux] Hvalid].
      apply Forall_cons in IH as [IHx IH].
      destruct (IHitems Hvalid IH) as (chunks & H1 & H2).
      destruct (IHx Hx) as (c & Hc1 & Hc2). rewrite Hux in Hc2.
      exists (c :: chunks). split; constructor; auto. }
  destruct Hchunks as (chunks & Henc & Hdec).
  exists (be_bytes 2 (Z.of_nat (length items)) ++ concat chunks). split.
  - cbn [encode]. unfold ListEncoder.encode. apply emits_bind.
    + apply emits_pack, pack_unsigned_ok. simpl. lia.
    + now apply emits_encode_items.
  - cbn [unset]. rewrite Helem. cbn [decodeIterator]. unfold ListDecoder.decodeIterator.
    eapply decodes_bindG.
    + apply (decodes_unsigned code_H); [simpl; tauto|simpl; lia].
    + rewrite Nat2Z.id.
      apply (decodes_map _ _ (ListDecoder.decode_items (decodeIterator elem) (length items) 0 [])
               (fun items => LIST a elem (Some items))).
      apply (decodes_decode_items _ _ _ Hdec 0%nat []).
Qed.

Lemma unset_unset (f : field) : unset (unset f) = unset f.
Proof.
  induction f as [a d|a d|a d|a d|a d|a d|a elem d IHelem IHitems|a set FIELDS IH]
    using field_induction; cbn [unset]; try reflexivity.
  - now rewrite IHelem.
  - f_equal. rewrite map_map. cbn [fst snd].
    induction IH as [|[n x] FIELDS Hx _ IHF]; [reflexivity|].
    cbn [map fst snd] in *. now rewrite Hx, IHF.
Qed.

Lemma valid_is_set (f : field) : valid f -> is_unset f = false.
Proof. destruct 1; reflexivity. Qed.

Lemma emits_write_fields (FIELDS : list (string * field)) (fieldToTag : Bijection)
    (es : list entry) :
  Forall (entry_ok FIELDS fieldToTag) es ->
  emits (PacketFieldsEncoder.write_fields fieldToTag
           (map (fun e => (entry_name e, encode (entry_field e))) es))
        (concat (map entry_bytes es)).
Proof.
  induction 1 as [|e es (_ & Hfwd & _ & Htag & Hemit & _) _ IH];
    cbn [map PacketFieldsEncoder.write_fields concat].
  - apply emits_ret.
  - apply emits_bind; [|exact IH]. apply emits_try_except.
    eapply emits_lift.
    + unfold Bijection_get. now rewrite Hfwd.
    + unfold entry_bytes. apply emits_bind; [|exact Hemit].
      apply emits_pack, pack_unsigned_ok. simpl. lia.
Qed.

Lemma get_raw_map (V : Type) (D : field -> V) (FIELDS : list (string * field))
    (n : string) (f : field) :
  NoDup (map fst FIELDS) -> (n, f) ∈ FIELDS ->
  get_raw n (map (fun nf => (fst nf, D (snd nf))) FIELDS) = Ok (D f).
Proof.
  induction FIELDS as [|[n0 f0] FIELDS IH]; intros Hnd Hin; [inversion Hin|].
  cbn [map fst snd get_raw] in *. apply NoDup_cons in Hnd as [Hn0 Hnd].
  apply elem_of_cons in Hin as [Heq|Hin].
  - injection Heq as -> ->. now rewrite String.eqb_refl.
  - destruct (String.eqb_spec n0 n) as [->|Hne]; [|now apply IH].
    exfalso. apply Hn0. apply list_elem_of_fmap. exists (n, f). auto.
Qed.

Lemma fill_ext (d1 d2 : list string) (FIELDS : list (string * field)) :
  (forall nf, nf ∈ FIELDS -> (fst nf ∈ d1 <-> fst nf ∈ d2)) ->
  fill d1 FIELDS = fill d2 FIELDS.
Proof.
  intros H. unfold fill. apply map_ext_in. intros nf Hin.
  apply list_elem_of_In in Hin.
  destruct (bool_decide_reflect (fst nf ∈ d1)) as [H1|H1],
           (bool_decide_reflect (fst nf ∈ d2)) as [H2|H2]; try reflexivity.
  - exfalso. apply H2, H; auto.
  - exfalso. apply H1, H; auto.
Qed.

Lemma set_raw_fill (done : list string) (FIELDS : list (string * field)) (n : string)
    (f : field) :
  NoDup (map fst FIELDS) -> (n, f) ∈ FIELDS ->
  set_raw n f (fill done FIELDS) = fill (n :: done) FIELDS.
Proof.
  induction FIELDS as [|[n0 f0] FIELDS IH]; intros Hnd Hin; [inversion Hin|].
  apply NoDup_cons in Hnd as [Hn0 Hnd]. unfold fill in *. cbn [map fst snd] in *.
  assert (Hhead : forall x : field,
            (if bool_decide (n0 ∈ done) then (n0, f0) else (n0, x)) =
            (n0, if bool_decide (n0 ∈ done) then f0 else x))
    by (intros x; destruct (bool_decide (n0 ∈ done)); reflexivity).
  rewrite Hhead. cbn [set_raw].
  apply elem_of_cons in Hin as [Heq|Hin].
  - injection Heq as -> ->. rewrite String.eqb_refl.
    rewrite bool_decide_eq_true_2 by (apply elem_of_cons; now left). f_equal.
    apply map_ext_in. intros nf Hnf. apply list_elem_of_In in Hnf.
    assert (Hne : fst nf <> n0).
    { intros Heq. apply Hn0. apply list_elem_of_fmap. exists nf.
      split; [symmetry; exact Heq|exact Hnf]. }
    destruct (bool_decide_reflect (fst nf ∈ done)) as [H1|H1].
    + rewrite bool_decide_eq_true_2; [reflexivity|]. apply elem_of_cons. now right.
    + rewrite bool_decide_eq_false_2; [reflexivity|].
      intros H. apply elem_of_cons in H as [H|H]; auto.
  - destruct (String.eqb_spec n0 n) as [->|Hne].
    { exfalso. apply Hn0. apply list_elem_of_fmap. exists (n, f). auto. }
    rewrite IH by assumption. f_equal.
    destruct (bool_decide_reflect (n0 ∈ done)) as [H1|H1].
    + rewrite bool_decide_eq_true_2; [reflexivity|]. apply elem_of_cons. now right.
    + rewrite bool_decide_eq_false_2; [reflexivity|].
      intros H. apply elem_of_cons in H as [H|H]; auto.
Qed.

Lemma decodes_decode_fields (FIELDS : list (string * field)) (fieldToTag : Bijection)
    (es : list entry) :
  NoDup (map fst FIELDS) ->
  Forall (entry_ok FIELDS fieldToTag) es ->
  forall done,
    decodes (PacketFieldsDecoder.decode_fields fieldToTag
               (map (fun nf => (fst nf, decodeIterator (unset (snd nf)))) FIELDS)
               (length es) (fill done FIELDS))
            (concat (map entry_bytes es))
            (fill (map entry_name es ++ done) FIELDS).
Proof.
  intros Hnd.
  induction 1 as [|e es (Hin & _ & Hinv & Htag & _ & Hdec) _ IH]; intros done;
    cbn [length map PacketFieldsDecoder.decode_fields concat app].
  - apply decodes_Return.
  - unfold entry_bytes. rewrite <- app_assoc.
    eapply decodes_bindG.
    { apply (decodes_unsigned code_H); [simpl; tauto|simpl; lia]. }
    eapply decodes_liftG.
    { unfold Bijection_inverse_get. now rewrite Hinv. }
    eapply decodes_liftG.
    { apply (get_raw_map _ (fun f => decodeIterator (unset f)) FIELDS _ _ Hnd Hin). }
    eapply decodes_bindG; [apply decodes_try_exceptG, Hdec|].
    rewrite (set_raw_fill _ _ _ _ Hnd Hin).
    replace (fill (entry_name e :: map entry_name es ++ done) FIELDS)
      with (fill (map entry_name es ++ entry_name e :: done) FIELDS).
    + apply IH.
    + apply fill_ext. intros nf _. rewrite !elem_of_app, !elem_of_cons, elem_of_app. tauto.
Qed.

Lemma collect_entries (FIELDS : list (string * field)) (fieldToTag : Bijection)
    (L : list (string * field)) :
  (forall nf, nf ∈ L -> nf ∈ FIELDS) ->
  (forall n f, (n, f) ∈ FIELDS ->
     exists t, forward fieldToTag !! n = Some t /\ inverse fieldToTag !! t = Some n) ->
  (forall n f t, (n, f) ∈ FIELDS -> is_unset f = false ->
                 forward fieldToTag !! n = Some t -> 0 <= t < 65536) ->
  Forall (fun nf => valid (snd nf) \/
                    (is_unset (snd nf) = true /\
                     Optional (attrs_of (snd nf)) = Some true /\
                     unset (snd nf) = snd nf)) L ->
  Forall (fun nf => valid (snd nf) -> round_trips (snd nf)) L ->
  exists es,
    Forall (entry_ok FIELDS fieldToTag) es /\
    PacketFieldsEncoder.collect (map (fun nf => (fst nf, snd nf, encode (snd nf))) L) =
      Ok (map (fun e => (entry_name e, encode (entry_field e))) es) /\
    map (fun e => (entry_name e, entry_field e)) es =
      filter (fun nf => is_unset (snd nf) = false) L.
Proof.
  intros Hsub Htags Hrange Hmem IH.
  induction L as [|[n f] L IHL].
  - exists []. split; [constructor|]. split; reflexivity.
  - apply Forall_cons in Hmem as [Hf Hmem]. apply Forall_cons in IH as [IHf IH].
    destruct IHL as (es & Hes & Hcollect & Hfilter); auto.
    { intros nf Hnf. apply Hsub. apply elem_of_cons. now right. }
    cbn [map fst snd PacketFieldsEncoder.collect] in *.
    destruct Hf as [Hv|(Hu & Hopt & _)].
    + pose proof (valid_is_set f Hv) as Hset. rewrite Hset.
      destruct (IHf Hv) as (c & Hemit & Hdec).
      assert (Hin : (n, f) ∈ FIELDS) by (apply Hsub, elem_of_cons; now left).
      destruct (Htags n f Hin) as (t & Hfwd & Hinv).
      exists (mkEntry n f t c :: es). split; [|split].
      * constructor; [|exact Hes]. repeat split; cbn; eauto.
        all: apply (Hrange n f t Hin Hset Hfwd).
      * rewrite Hcollect. reflexivity.
      * rewrite filter_cons_True by exact Hset. cbn [map]. now rewrite Hfilter.
    + rewrite Hu. rewrite Hopt. cbn [GetAttribute].
      rewrite bool_decide_eq_true_2 by reflexivity.
      exists es. split; [exact Hes|]. split; [exact Hcollect|].
      rewrite filter_cons_False by (cbn; congruence). exact Hfilter.
Qed.

Lemma fill_all (FIELDS : list (string * field)) (es : list entry) :
  map (fun e => (entry_name e, entry_field e)) es =
    filter (fun nf => is_unset (snd nf) = false) FIELDS ->
  Forall (fun nf => valid (snd nf) \/
                    (is_unset (snd nf) = true /\
                     Optional (attrs_of (snd nf)) = Some true /\
                     unset (snd nf) = snd nf)) FIELDS ->
  fill (map entry_name es ++ []) FIELDS = FIELDS.
Proof.
  intros Hfilter Hmem. unfold fill. rewrite <- (map_id FIELDS) at 2.
  apply map_ext_in. intros [n f] Hin. apply list_elem_of_In in Hin. cbn [fst snd].
  destruct (bool_decide_reflect (n ∈ map entry_name es ++ [])) as [H|H]; [reflexivity|].
  rewrite Forall_forall in Hmem. destruct (Hmem _ Hin) as [Hv|(_ & _ & Hfresh)].
  - exfalso. apply H. rewrite app_nil_r.
    assert (Hp : (n, f) ∈ filter (fun nf => is_unset (snd nf) = false) FIELDS).
    { apply list_elem_of_filter. split; [now apply valid_is_set|exact Hin]. }
    rewrite <- Hfilter in Hp. apply list_elem_of_fmap in Hp as (e & He & Hein).
    injection He as -> _. apply list_elem_of_fmap. exists e. auto.
  - cbn [snd] in Hfresh. now rewrite Hfresh.
Qed.

Lemma round_trips_GROUP (a : attributes) (FIELDS : list (string * field))
    (fieldToTag : Bijection) :
  PacketFieldsEncoder._processFields FIELDS = Ok fieldToTag ->
  (forall n f t, (n, f) ∈ FIELDS -> is_unset f = false ->
                 forward fieldToTag !! n = Some t -> 0 <= t < 65536) ->
  Z.of_nat (length (filter (fun nf => is_unset (snd nf) = false) FIELDS)) <= 65535 ->
  Forall (fun nf => valid (snd nf) \/
                    (is_unset (snd nf) = true /\
                     Optional (attrs_of (snd nf)) = Some true /\
                     unset (snd nf) = snd nf)) FIELDS ->
  Forall (fun nf => valid (snd nf) -> round_trips (snd nf)) FIELDS ->
  exists es,
    Forall (entry_ok FIELDS fieldToTag) es /\
    map (fun e => (entry_name e, entry_field e)) es =
      filter (fun nf => is_unset (snd nf) = false) FIELDS /\
    emits (encode (GROUP a true FIELDS))
          (be_bytes 2 (Z.of_nat (length es)) ++ concat (map entry_bytes es)) /\
    decodes (decodeIterator (unset (GROUP a true FIELDS)))
            (be_bytes 2 (Z.of_nat (length es)) ++ concat (map entry_bytes es))
            (GROUP a true FIELDS).
Proof.
  intros Hproc Hrange Hcount Hmem IH.
  pose proof (_processFields_spec FIELDS) as Hspec. rewrite Hproc in Hspec.
  destruct Hspec as (out & _ & [Hfwd Hinv] & Hnames & Hnd & _).
  rewrite Hnames in Hnd.
  assert (Htags : forall n f, (n, f) ∈ FIELDS ->
            exists t, forward fieldToTag !! n = Some t /\ inverse fieldToTag !! t = Some n).
  { intros n f Hin.
    assert (Hn : n ∈ map fst out).
    { rewrite Hnames. apply list_elem_of_fmap. exists (n, f). auto. }
    apply list_elem_of_fmap in Hn as ([n' t] & -> & Hout). cbn [fst].
    exists t. split; [now apply Hfwd|now apply Hinv]. }
  destruct (collect_entries FIELDS fieldToTag FIELDS) as (es & Hes & Hcollect & Hfilter);
    auto.
  assert (Hlen : Z.of_nat (length es) <= 65535).
  { rewrite <- Hfilter, length_map in Hcount. exact Hcount. }
  exists es. split; [exact Hes|]. split; [exact Hfilter|]. split.
  - cbn [encode]. unfold PacketFieldsEncoder.encode.
    eapply emits_lift; [exact Hproc|]. eapply emits_lift; [exact Hcollect|].
    rewrite length_map. apply emits_bind.
    + apply emits_pack, pack_unsigned_ok. simpl. lia.
    + apply (emits_write_fields FIELDS). exact Hes.
  - cbn [unset decodeIterator].
    apply (decodes_map _ _ _ (fun raw => GROUP a true raw)).
    unfold PacketFieldsDecoder.decodeIterator.
    eapply decodes_liftG.
    { unfold PacketFieldsEncoder._processFields in *. rewrite <- Hproc.
      apply _processFields_loop_declaration. rewrite map_map. cbn [fst snd].
      apply map_ext. intros nf. now rewrite unset_unset. }
    eapply decodes_bindG.
    { apply (decodes_unsigned code_H); [simpl; tauto|simpl; lia]. }
    rewrite Nat2Z.id. unfold PacketFieldsDecoder.initializeData.
    rewrite !map_map. cbn [fst snd].
    replace (map (fun x => (fst x, unset (unset (snd x)))) FIELDS) with (fill [] FIELDS).
    + pose proof (decodes_decode_fields FIELDS fieldToTag es Hnd Hes []) as Hd.
      rewrite (fill_all FIELDS es Hfilter Hmem) in Hd. exact Hd.
    + unfold fill. apply map_ext. intros nf.
      rewrite bool_decide_eq_false_2 by (apply not_elem_of_nil). now rewrite unset_unset.
Qed.

(** *** Floats *)

Lemma binary_round_bounded (prec emax : Z) (s : bool) (m : positive) (e : Z) :
  SpecFloat.bounded prec emax m e = true ->
  SpecFloat.binary_round prec emax s m e = S754_finite s m e.
Proof.
  intros H. apply andb_prop in H as [Hc He].
  unfold SpecFloat.canonical_mantissa in Hc. apply Z.eqb_eq in Hc.
  unfold SpecFloat.binary_round, SpecFloat.shl_align. rewrite Hc, Z.sub_diag.
  unfold SpecFloat.binary_round_aux, SpecFloat.shr_fexp. cbn [SpecFloat.Zdigits2].
  rewrite Hc, Z.sub_diag. cbn. rewrite Hc, Z.sub_diag. cbn. now rewrite He.
Qed.

Lemma digits2_pos_spec (m : positive) :
  2 ^ (Zpos (SpecFloat.digits2_pos m) - 1) <= Zpos m < 2 ^ Zpos (SpecFloat.digits2_pos m).
Proof.
  induction m as [p IH|p IH|]; cbn [SpecFloat.digits2_pos].
  - rewrite Pos2Z.inj_succ. replace (Z.succ (Zpos (SpecFloat.digits2_pos p)) - 1)
      with (Z.succ (Zpos (SpecFloat.digits2_pos p) - 1)) by lia.
    rewrite !Z.pow_succ_r by lia. lia.
  - rewrite Pos2Z.inj_succ. replace (Z.succ (Zpos (SpecFloat.digits2_pos p)) - 1)
      with (Z.succ (Zpos (SpecFloat.digits2_pos p) - 1)) by lia.
    rewrite !Z.pow_succ_r by lia. lia.
  - simpl. lia.
Qed.

Lemma ieee_decompose (P E sg bexp mant : Z) :
  0 < P -> 0 < E -> 0 <= mant < P -> 0 <= bexp < E -> 0 <= sg <= 1 ->
  let z := sg * (P * E) + bexp * P + mant in
  (z / P) mod E = bexp /\ z mod P = mant /\ (P * E <=? z) = (sg =? 1) /\
  0 <= z < 2 * (P * E).
Proof.
  intros HP HE Hm Hb Hs z.
  assert (Hz : z = (sg * E + bexp) * P + mant) by (unfold z; ring).
  assert (Hdiv : z / P = sg * E + bexp).
  { symmetry. apply Z.div_unique with (r := mant); [lia|]. rewrite Hz. ring. }
  split; [|split; [|split]].
  - rewrite Hdiv. symmetry. apply Z.mod_unique with (q := sg); [lia|ring].
  - symmetry. apply Z.mod_unique with (q := sg * E + bexp); [lia|]. rewrite Hz. ring.
  - assert (sg = 0 \/ sg = 1) as [->| ->] by lia.
    + destruct (Z.leb_spec (P * E) z); [|reflexivity]. unfold z in *. nia.
    + destruct (Z.leb_spec (P * E) z); [reflexivity|]. unfold z in *. nia.
  - unfold z. nia.
Qed.

Lemma ieee_of_bits_bits (prec emax : Z) (x : spec_float) :
  1 < prec -> 0 < emax ->
  SpecFloat.valid_binary prec emax x = true ->
  ieee_of_bits prec emax (ieee_bits prec emax x) = x /\
  0 <= ieee_bits prec emax x < 2 * (2 ^ (prec - 1) * (2 * emax)).
Proof.
  intros Hprec Hemax Hvalid. unfold ieee_of_bits, ieee_bits. cbv zeta.
  set (P := 2 ^ (prec - 1)). set (E := 2 * emax).
  assert (HP : 0 < P) by (unfold P; apply Z.pow_pos_nonneg; lia).
  assert (HE : 1 < E) by (unfold E; lia).
  assert (Hhalf : 0 < 2 ^ (prec - 1 - 1) < P).
  { unfold P. split; [apply Z.pow_pos_nonneg; lia|]. apply Z.pow_lt_mono_r; lia. }
  assert (Hsign : forall s : bool, (if s then P * E else 0) = (if s then 1 else 0) * (P * E))
    by (intros []; ring).
  assert (Hsg : forall s : bool, ((if s then 1 else 0) =? 1) = s) by (intros []; reflexivity).
  assert (Hsr : forall s : bool, 0 <= (if s then 1 else 0) <= 1) by (intros []; lia).
  destruct x as [s|s| |s m e].
  - rewrite Hsign.
    destruct (ieee_decompose P E (if s then 1 else 0) 0 0) as (Hb & Hm & Hs & Hr);
      try lia; auto. cbv zeta in *.
    replace ((if s then 1 else 0) * (P * E) + 0 * P + 0)
      with ((if s then 1 else 0) * (P * E)) in * by ring.
    rewrite Hb, Hm, Hs, Hsg. cbn. split; [reflexivity|exact Hr].
  - rewrite Hsign.
    destruct (ieee_decompose P E (if s then 1 else 0) (E - 1) 0) as (Hb & Hm & Hs & Hr);
      try lia; auto. cbv zeta in *.
    replace ((if s then 1 else 0) * (P * E) + (E - 1) * P + 0)
      with ((if s then 1 else 0) * (P * E) + (E - 1) * P) in * by ring.
    rewrite Hb, Hm, Hs, Hsg.
    destruct (Z.eqb_spec (E - 1) 0); [lia|]. rewrite Z.eqb_refl. cbn.
    split; [reflexivity|exact Hr].
  - destruct (ieee_decompose P E 0 (E - 1) (2 ^ (prec - 1 - 1))) as (Hb & Hm & Hs & Hr);
      try lia. cbv zeta in *.
    replace (0 * (P * E) + (E - 1) * P + 2 ^ (prec - 1 - 1))
      with ((E - 1) * P + 2 ^ (prec - 1 - 1)) in * by ring.
    rewrite Hb, Hm.
    destruct (Z.eqb_spec (E - 1) 0); [lia|]. rewrite Z.eqb_refl.
    destruct (Z.eqb_spec (2 ^ (prec - 1 - 1)) 0); [lia|].
    split; [reflexivity|exact Hr].
  - cbn [SpecFloat.valid_binary] in Hvalid. apply andb_prop in Hvalid as [Hc He].
    unfold SpecFloat.canonical_mantissa in Hc. apply Z.eqb_eq in Hc.
    apply Z.leb_le in He. unfold SpecFloat.fexp in Hc.
    pose proof (digits2_pos_spec m) as Hd.
    set (d := Zpos (SpecFloat.digits2_pos m)) in *.
    set (emin := SpecFloat.emin prec emax) in *.
    assert (Hemin : emin = 3 - emax - prec) by reflexivity.
    destruct (Z.ltb_spec (Zpos m) P) as [Hsub|Hnorm].
    + assert (Hdp : d < prec).
      { destruct (Z.lt_ge_cases d prec) as [|Hge]; [assumption|]. exfalso.
        assert (P <= 2 ^ (d - 1)) by (unfold P; apply Z.pow_le_mono_r; lia). lia. }
      assert (Hee : e = emin) by lia.
      rewrite Hsign.
      destruct (ieee_decompose P E (if s then 1 else 0) 0 (Zpos m)) as (Hb & Hm & Hs & Hr);
        try lia; auto. cbv zeta in *.
      replace ((if s then 1 else 0) * (P * E) + 0 * P + Z.pos m)
        with ((if s then 1 else 0) * (P * E) + Z.pos m) in * by ring.
      rewrite Hb, Hm, Hs, Hsg. cbn. rewrite Hee. split; [reflexivity|exact Hr].
    + assert (Hdp : d = prec).
      { assert (prec <= d).
        { destruct (Z.lt_ge_cases d prec) as [Hlt|]; [|assumption]. exfalso.
          assert (2 ^ d <= P) by (unfold P; apply Z.pow_le_mono_r; lia). lia. }
        lia. }
      assert (H2P : 2 ^ d = 2 * P).
      { rewrite Hdp. unfold P. rewrite <- Z.pow_succ_r by lia. f_equal. lia. }
      rewrite Hsign.
      destruct (ieee_decompose P E (if s then 1 else 0) (e - emin + 1) (Zpos m - P))
        as (Hb & Hm & Hs & Hr); try lia; auto. cbv zeta in *.
      rewrite Hb, Hm, Hs, Hsg.
      destruct (Z.eqb_spec (e - emin + 1) 0); [lia|].
      destruct (Z.eqb_spec (e - emin + 1) (E - 1)); [lia|].
      replace (Z.pos m - P + P) with (Zpos m) by ring.
      split; [|exact Hr]. f_equal. lia.
Qed.

Lemma float_round_trip (c : packCode) (x : float) :
  c = code_f \/ c = code_d ->
  exact_float c x ->
  exists bs, pack_float c x = Ok bs /\ length bs = calcsize c /\ unpack_float c bs = x.
Proof.
  intros [-> | ->] Hx; cbn [exact_float pack_float unpack_float calcsize] in *.
  - assert (Hround : round_binary32 (Prim2SF x) = Prim2SF x).
    { unfold round_binary32. destruct (Prim2SF x) as [s|s| |s m e]; try reflexivity.
      now apply binary_round_bounded. }
    rewrite Hround. destruct (is_infinity (Prim2SF x)); cbn [andb negb].
    all: eexists; split; [reflexivity|]; split; [apply be_bytes_length|].
    all: destruct (ieee_of_bits_bits 24 128 (Prim2SF x)) as [Hbits Hrange];
      [lia|lia|exact Hx|].
    all: rewrite be_value_bytes, Z.mod_small by exact Hrange.
    all: rewrite Hbits; apply SF2Prim_Prim2SF.
  - eexists. split; [reflexivity|]. split; [apply be_bytes_length|].
    destruct (ieee_of_bits_bits 53 1024 (Prim2SF x)) as [Hbits Hrange];
      [lia|lia|apply Prim2SF_valid|].
    rewrite be_value_bytes, Z.mod_small by exact Hrange.
    rewrite Hbits. apply SF2Prim_Prim2SF.
Qed.

Lemma _getPackCode_float (a : attributes) (c : packCode) :
  FloatEncoder._getPackCode a = Ok c -> c = code_f \/ c = code_d.
Proof.
  unfold FloatEncoder._getPackCode, FloatEncoder.SIZE_TO_PACKCODE.
  cbn [FloatEncoder.SIZE_TO_PACKCODE_MAP].
  destruct (_ =? 32); [intros H; injection H as <-; now left|].
  destruct (_ =? 64); [intros H; injection H as <-; now right|discriminate].
Qed.

Lemma round_trips_FLOAT (a : attributes) (c : packCode) (x : float) :
  FloatEncoder._getPackCode a = Ok c ->
  exact_float c x ->
  round_trips (FLOAT a (Some x)).
Proof.
  intros Hc Hx.
  destruct (float_round_trip c x (_getPackCode_float a c Hc) Hx) as (bs & Hp & Hl & Hu).
  exists bs. split.
  - intros st Hst. cbn [encode]. unfold IntrinsicTypeStandardEncoder.encode, bind, lift.
    rewrite Hc. cbn [struct_pack_float]. unfold pack. now rewrite Hp.
  - cbn [unset decodeIterator]. rewrite Hc.
    unfold IntrinsicTypeStandardDecoder.decodeIterator. cbn [liftG bindG].
    rewrite <- Hu, <- Hl.
    apply (decodes_map _ _ (unpackIterator (length bs))
             (fun chunk => FLOAT a (Some (unpack_float c chunk)))).
    apply decodes_unpackIterator.
Qed.

(** Every valid value round-trips. *)
Lemma valid_round_trips (f : field) : valid f -> round_trips f.
Proof.
  induction f as [a d|a d|a d|a d|a d|a d|a elem d IHelem IHitems|a set FIELDS IH]
    using field_induction; intros Hv; inversion Hv; subst.
  - now apply (round_trips_int_field false).
  - now apply (round_trips_int_field true).
  - apply round_trips_BOOL.
  - eapply round_trips_FLOAT; eauto.
  - now apply round_trips_STRING.
  - now apply round_trips_BUFFER.
  - now apply round_trips_LIST.
  - match goal with
    | H1 : PacketFieldsEncoder._processFields _ = Ok ?b |- _ =>
        destruct (round_trips_GROUP a FIELDS b) as (es & _ & _ & Hemit & Hdec); auto
    end.
    eexists. split; eauto.
Qed.

(** C1, as the code has it: every valid value (see [valid]: in
    particular FLOAT values that the declared width represents exactly, and
    ASCII text) is encoded, decoding the bytes into an UNSET field of the
    same category and attributes gives the value back, and encoding what was
    decoded gives the same bytes. *)
Theorem C1_round_trip_of_valid_values (f : field) :
  valid f ->
  exists bs,
    encoded f = Ok bs /\
    decode (unset f) (stream_of bs) = Done f (advance (length bs) (stream_of bs)) /\
    (forall v st', decode (unset f) (stream_of bs) = Done v st' -> encoded v = Ok bs).
Proof.
  intros Hv. destruct (valid_round_trips f Hv) as (bs & Hemit & Hdec).
  pose proof (emits_encoded f bs Hemit) as Henc.
  assert (Hrun : decode (unset f) (stream_of bs) =
                 Done f (advance (length bs) (stream_of bs))).
  { apply (Hdec (stream_of bs) []); [apply holds_stream_of|exact I]. }
  exists bs. split; [exact Henc|]. split; [exact Hrun|].
  intros v st' H. rewrite Hrun in H. injection H as <- _. exact Henc.
Qed.

Lemma sample_group_valid : valid sample_group.
Proof.
  unfold sample_group. eapply valid_GROUP.
  - vm_compute. reflexivity.
  - intros n f t Hin _ Hfwd.
    repeat (apply elem_of_cons in Hin as [Heq|Hin];
            [injection Heq as -> ->; vm_compute in Hfwd; injection Hfwd as <-; lia|]).
    inversion Hin.
  - vm_compute. discriminate.
  - apply Forall_cons; split; [cbn [snd]|apply Forall_cons; split; [cbn [snd]|
      apply Forall_cons; split; [cbn [snd]|apply Forall_cons; split; [cbn [snd]|
      apply Forall_cons; split; [cbn [snd]|constructor]]]]].
    + left. apply valid_UINT; [vm_compute; reflexivity|].
      vm_compute; split; [discriminate|reflexivity].
    + right. split; [reflexivity|]. split; reflexivity.
    + left. apply valid_FLOAT with (c := code_d); [reflexivity|exact I].
    + left. apply valid_STRING; [vm_compute; discriminate|].
      let s := eval vm_compute in (str_of_string "demo") in
      change (str_of_string "demo") with s.
      repeat (apply Forall_cons; split; [vm_compute; split; [discriminate|reflexivity]|]).
      constructor.
    + left. apply valid_LIST; [vm_compute; discriminate|reflexivity|].
      repeat (apply Forall_cons; split;
              [split; [apply valid_UINT; [vm_compute; reflexivity|
                         vm_compute; split; [discriminate|reflexivity]]|reflexivity]|]).
      constructor.
Qed.

Lemma C1_witness :
  exists bs,
    encoded sample_group = Ok bs /\
    decode (unset sample_group) (stream_of bs) =
      Done sample_group (advance (length bs) (stream_of bs)) /\
    (forall v st', decode (unset sample_group) (stream_of bs) = Done v st' ->
                   encoded v = Ok bs).
Proof. exact (C1_round_trip_of_valid_values sample_group sample_group_valid). Defined.

(** The claim as stated fails: a FLOAT with the default [Bits] of 32 and
    the double 0.1 is encoded without an error as the four bytes of the
    nearest binary32 number, and decoding gives that number, which is not
    0.1. *)
Lemma C1_counterexample :
  encoded (FLOAT no_attributes (Some 0x1.999999999999ap-4%float)) =
    Ok [x3d; xcc; xcc; xcd] /\
  decode (unset (FLOAT no_attributes (Some 0x1.999999999999ap-4%float)))
         (stream_of [x3d; xcc; xcc; xcd]) =
    Done (FLOAT no_attributes (Some 0x1.99999ap-4%float))
         (mkAdapter [x3d; xcc; xcc; xcd] 4 None) /\
  PrimFloat.eqb 0x1.99999ap-4%float 0x1.999999999999ap-4%float = false.
Proof. repeat split; vm_compute; reflexivity. Qed.

(** ** UNSET members of a GROUP (C7) *)

Lemma collect_unset_not_optional (L : list (string * field)) (topEncoder : field -> M unit) :
  (exists nf, nf ∈ L /\ is_unset (snd nf) = true /\
              GetAttribute (Optional (attrs_of (snd nf))) false <> true) ->
  exists n0 f0,
    (n0, f0) ∈ L /\ is_unset f0 = true /\
    GetAttribute (Optional (attrs_of f0)) false <> true /\
    PacketFieldsEncoder.collect (map (fun nf => (fst nf, snd nf, topEncoder (snd nf))) L) =
      Raise (PacketEncodingError (FieldUnsetNotOptional n0) None).
Proof.
  induction L as [|[n f] L IH]; intros (nf & Hin & Hu & Hopt); [inversion Hin|].
  cbn [map fst snd PacketFieldsEncoder.collect].
  destruct (is_unset f) eqn:Hf.
  - destruct (bool_decide_reflect (GetAttribute (Optional (attrs_of f)) false = true))
      as [Ho|Ho].
    + apply elem_of_cons in Hin as [->|Hin]; [cbn [snd] in Hopt; contradiction|].
      destruct IH as (n0 & f0 & Hin0 & Hu0 & Ho0 & Hc); [eauto|].
      exists n0, f0. repeat split; auto. apply elem_of_cons. now right.
    + exists n, f. repeat split; auto. apply elem_of_cons. now left.
  - apply elem_of_cons in Hin as [->|Hin]; [cbn [snd] in Hu; congruence|].
    destruct IH as (n0 & f0 & Hin0 & Hu0 & Ho0 & Hc); [eauto|].
    exists n0, f0. rewrite Hc. repeat split; auto. apply elem_of_cons. now right.
Qed.

(** C7: in the encoding of a valid GROUP, the count and the tag/value
    pairs are those of the members whose data slot is set, so a member that
    is UNSET and [Optional] appears in neither, and decoding gives the group
    back with that member still UNSET; and when some member is UNSET and
    not [Optional], encoding fails with the [PacketEncodingError] that names
    such a member. *)
Theorem C7_unset_members (a : attributes) (FIELDS : list (string * field))
    (fieldToTag : Bijection) :
  PacketFieldsEncoder._processFields FIELDS = Ok fieldToTag ->
  (valid (GROUP a true FIELDS) ->
   exists es,
     map (fun e => (entry_name e, entry_field e)) es =
       filter (fun nf => is_unset (snd nf) = false) FIELDS /\
     (forall e, e ∈ es ->
        forward fieldToTag !! entry_name e = Some (entry_tag e) /\
        encoded (entry_field e) = Ok (entry_wire e)) /\
     (forall n f, (n, f) ∈ FIELDS -> is_unset f = true -> n ∉ map entry_name es) /\
     encoded (GROUP a true FIELDS) =
       Ok (be_bytes 2 (Z.of_nat (length es)) ++ concat (map entry_bytes es)) /\
     decode (unset (GROUP a true FIELDS))
            (stream_of (be_bytes 2 (Z.of_nat (length es)) ++ concat (map entry_bytes es))) =
       Done (GROUP a true FIELDS)
            (advance (length (be_bytes 2 (Z.of_nat (length es)) ++ concat (map entry_bytes es)))
               (stream_of (be_bytes 2 (Z.of_nat (length es)) ++ concat (map entry_bytes es))))) /\
  ((exists nf, nf ∈ FIELDS /\ is_unset (snd nf) = true /\
               GetAttribute (Optional (attrs_of (snd nf))) false <> true) ->
   exists n0 f0,
     (n0, f0) ∈ FIELDS /\ is_unset f0 = true /\
     GetAttribute (Optional (attrs_of f0)) false <> true /\
     forall st, encode (GROUP a true FIELDS) st =
                (Raise (PacketEncodingError (FieldUnsetNotOptional n0) None), st)).
Proof.
  intros Hproc. split.
  - intros Hv. inversion Hv as [| | | | | | |a' F b Hproc' Hrange Hcount Hmem]; subst.
    rewrite Hproc in Hproc'. injection Hproc' as <-.
    destruct (round_trips_GROUP a FIELDS fieldToTag Hproc Hrange Hcount Hmem)
      as (es & Hes & Hfilter & Hemit & Hdec).
    { apply Forall_forall. intros nf _. apply valid_round_trips. }
    exists es. split; [exact Hfilter|]. split; [|split; [|split]].
    + intros e He. rewrite Forall_forall in Hes.
      destruct (Hes e He) as (_ & Hfwd & _ & _ & Hem & _).
      split; [exact Hfwd|now apply emits_encoded].
    + intros n f Hin Hu Hn.
      pose proof (_processFields_spec FIELDS) as Hspec. rewrite Hproc in Hspec.
      destruct Hspec as (out & _ & _ & Hnames & Hnd & _). rewrite Hnames in Hnd.
      apply list_elem_of_fmap in Hn as (e & -> & He).
      assert (Hp : (entry_name e, entry_field e) ∈
                   filter (fun nf => is_unset (snd nf) = false) FIELDS).
      { rewrite <- Hfilter. apply list_elem_of_fmap. exists e. auto. }
      apply list_elem_of_filter in Hp as [Hset Hin'].
      assert (Heq : f = entry_field e).
      { apply list_elem_of_lookup in Hin as [i Hi]. apply list_elem_of_lookup in Hin' as [j Hj].
        assert (i = j).
        { apply (NoDup_lookup (map fst FIELDS) i j (entry_name e) Hnd).
          - change (fst <$> FIELDS) with (map fst FIELDS). now rewrite list_lookup_fmap, Hi.
          - change (fst <$> FIELDS) with (map fst FIELDS). now rewrite list_lookup_fmap, Hj. }
        subst j. rewrite Hi in Hj. now injection Hj. }
      subst f. cbn [snd] in Hset. congruence.
    + now apply emits_encoded.
    + apply (Hdec _ []); [apply holds_stream_of|exact I].
  - intros Hex.
    destruct (collect_unset_not_optional FIELDS encode Hex) as (n0 & f0 & Hin & Hu & Ho & Hc).
    exists n0, f0. repeat split; auto. intros st. cbn [encode].
    unfold PacketFieldsEncoder.encode, bind, lift. now rewrite Hproc, Hc.
Qed.

Lemma C7_witness :
  exists es,
    map (fun e => (entry_name e, entry_field e)) es =
      [("field1"%string, UINT no_attributes (Some 50))] /\
    encoded (GROUP no_attributes true
               [("field1"%string, UINT no_attributes (Some 50));
                ("note"%string, STRING (mkAttrs None None (Some true) None) None)]) =
      Ok (be_bytes 2 (Z.of_nat (length es)) ++ concat (map entry_bytes es)).
Proof.
  destruct (C7_unset_members no_attributes
              [("field1"%string, UINT no_attributes (Some 50));
               ("note"%string, STRING (mkAttrs None None (Some true) None) None)]
              (Bijection_set "note" 1 (Bijection_set "field1" 0 Bijection_empty)))
    as [H _]; [vm_compute; reflexivity|].
  destruct H as (es & Hfilter & _ & _ & Henc & _).
  - eapply valid_GROUP.
    + vm_compute. reflexivity.
    + intros n f t Hin _ Hfwd.
      repeat (apply elem_of_cons in Hin as [Heq|Hin];
              [injection Heq as -> ->; vm_compute in Hfwd; injection Hfwd as <-; lia|]).
      inversion Hin.
    + vm_compute. discriminate.
    + apply Forall_cons; split; [cbn [snd]|apply Forall_cons; split; [cbn [snd]|constructor]].
      * left. apply valid_UINT; [vm_compute; reflexivity|].
        vm_compute; split; [discriminate|reflexivity].
      * right. split; [reflexivity|]. split; reflexivity.
  - exists es. split; [exact Hfilter|exact Henc].
Defined.

(** ** Resynchronisation (C3) *)

Lemma run_unpack_int_available (c : packCode) (st : EncoderStreamAdapter) :
  exceeds_max_size st (calcsize c) = false ->
  (calcsize c <= available st)%nat ->
  run (unpack_int c) st =
  Done (struct_unpack_int c (take (calcsize c) (remaining st))) (advance (calcsize c) st).
Proof.
  intros Hm Hav. unfold unpack_int, unpackIterator. cbn [bindG].
  now rewrite run_Unpack.
Qed.

Lemma run_unpack_int_Done_inv (A : Type) (c : packCode) (k : Z -> Gen A)
    (st st' : EncoderStreamAdapter) (a : A) :
  run (bindG (unpack_int c) k) st = Done a st' ->
  exceeds_max_size st (calcsize c) = false /\ (calcsize c <= available st)%nat.
Proof.
  unfold unpack_int, unpackIterator. cbn [bindG run].
  destruct (exceeds_max_size st (calcsize c)); [discriminate|].
  destruct (Nat.ltb_spec (available st) (calcsize c)); [discriminate|]. auto.
Qed.

Lemma remaining_shift (pre : list byte) (st : EncoderStreamAdapter) :
  remaining (shift pre st) = remaining st.
Proof. unfold remaining, shift. simpl. now rewrite drop_app_add' by reflexivity. Qed.

Lemma available_shift (pre : list byte) (st : EncoderStreamAdapter) :
  available (shift pre st) = available st.
Proof. now rewrite !available_remaining, remaining_shift. Qed.

Lemma advance_shift (pre : list byte) (st : EncoderStreamAdapter) (n : nat) :
  advance n (shift pre st) = shift pre (advance n st).
Proof. unfold advance, shift. simpl. f_equal. lia. Qed.

(** A generator that does not look at the position returns the same on a
    stream with bytes in front of it. *)
Lemma run_shift_Done (A : Type) (g : Gen A) (pre : list byte) :
  position_free g ->
  forall st a st', run g st = Done a st' -> run g (shift pre st) = Done a (shift pre st').
Proof.
  induction g as [a0|e|n wrap k IH|n k IH|k IH|p k IH|n k IH|n e|];
    intros Hpf st a st'; cbn [run position_free] in *; try discriminate; try contradiction.
  - intros H. injection H as <- <-. reflexivity.
  - change (exceeds_max_size (shift pre st) n) with (exceeds_max_size st n).
    destruct (exceeds_max_size st n); [discriminate|]. rewrite available_shift.
    destruct (Nat.ltb_spec (available st) n) as [|Hav]; [discriminate|].
    rewrite !read_enough by (rewrite ?available_shift; exact Hav).
    rewrite remaining_shift, advance_shift. apply IH, Hpf.
  - rewrite available_shift.
    destruct (Nat.ltb_spec (available st) n) as [|Hav]; [discriminate|].
    rewrite !read_enough by (rewrite ?available_shift; exact Hav).
    rewrite remaining_shift, advance_shift. apply IH, Hpf.
  - apply (IH Hpf (set_max_size n st)).
Qed.

(** One round of the loop on a window that fails the check: the start
    position moves on by one byte, the stream is rewound to it, and the loop
    goes round again. *)
Lemma resync_step (A : Type) (fuel start : nat) (k : Z * nat -> Gen A)
    (st : EncoderStreamAdapter) :
  stream_pos st = start ->
  exceeds_max_size st 8 = false ->
  (16 <= available st)%nat ->
  window_ok (stream_bytes st) start = false ->
  run (bindG (resync (S fuel) start) k) st =
  run (bindG (resync fuel (S start)) k) (seek (S start) st).
Proof.
  intros Hpos Hm Hav Hwin. cbn [resync]. rewrite !run_bindG.
  rewrite run_unpack_int_available by (cbn [calcsize]; auto; lia).
  cbn [bind_outcome]. rewrite run_bindG.
  rewrite run_unpack_int_available
    by (cbn [calcsize]; auto; rewrite available_remaining, remaining_advance, length_drop,
        <- available_remaining; lia).
  cbn [bind_outcome calcsize struct_unpack_int]. unfold unpack_unsigned.
  rewrite remaining_advance. unfold remaining. rewrite drop_drop, Hpos.
  unfold window_ok in Hwin. rewrite Hwin. cbn [negb run bind_outcome].
  change (seek (S start) (advance 8 (advance 8 st))) with (seek (S start) st).
  reflexivity.
Qed.

Lemma resync_lock (A : Type) (fuel start : nat) (k : Z * nat -> Gen A)
    (st : EncoderStreamAdapter) :
  stream_pos st = start ->
  exceeds_max_size st 8 = false ->
  (16 <= available st)%nat ->
  window_ok (stream_bytes st) start = true ->
  run (bindG (resync (S fuel) start) k) st =
  run (k (be_value (take 8 (drop start (stream_bytes st))), start)) (advance 8 (advance 8 st)).
Proof.
  intros Hpos Hm Hav Hwin. cbn [resync]. rewrite !run_bindG.
  rewrite run_unpack_int_available by (cbn [calcsize]; auto; lia).
  cbn [bind_outcome]. rewrite run_bindG.
  rewrite run_unpack_int_available
    by (cbn [calcsize]; auto; rewrite available_remaining, remaining_advance, length_drop,
        <- available_remaining; lia).
  cbn [bind_outcome calcsize struct_unpack_int]. unfold unpack_unsigned.
  rewrite remaining_advance. unfold remaining. rewrite drop_drop, Hpos.
  unfold window_ok in Hwin. rewrite Hwin. cbn [negb run bind_outcome]. reflexivity.
Qed.

Lemma resync_Done_inv (A : Type) (fuel start : nat) (k : Z * nat -> Gen A)
    (st st' : EncoderStreamAdapter) (a : A) :
  run (bindG (resync fuel start) k) st = Done a st' ->
  exists fuel', fuel = S fuel' /\ exceeds_max_size st 8 = false /\ (16 <= available st)%nat.
Proof.
  destruct fuel as [|fuel']; [discriminate|]. intros H. exists fuel'. split; [reflexivity|].
  cbn [resync] in H. rewrite !run_bindG in H.
  assert (H1 : exceeds_max_size st 8 = false /\ (8 <= available st)%nat).
  { unfold unpack_int, unpackIterator in H. cbn [bindG run calcsize] in H.
    destruct (exceeds_max_size st 8); [discriminate|].
    destruct (Nat.ltb_spec (available st) 8); [discriminate|]. auto. }
  destruct H1 as [Hm Hav]. split; [exact Hm|].
  rewrite run_unpack_int_available in H by (cbn [calcsize]; auto).
  cbn [bind_outcome] in H. rewrite run_bindG in H.
  assert (H2 : (8 <= available (advance 8 st))%nat).
  { unfold unpack_int, unpackIterator in H. cbn [bindG run calcsize] in H.
    destruct (exceeds_max_size (advance 8 st) 8); [discriminate|].
    destruct (Nat.ltb_spec (available (advance 8 st)) 8); [discriminate|]. lia. }
  rewrite available_remaining, remaining_advance, length_drop, <- available_remaining in H2.
  lia.
Qed.

Lemma window_ok_shift (pre bs : list byte) (i : nat) :
  window_ok (pre ++ bs) (length pre + i) = window_ok bs i.
Proof.
  unfold window_ok. rewrite <- Nat.add_assoc. now rewrite !drop_app_add' by reflexivity.
Qed.

Lemma seek_shift (pre : list byte) (p : nat) (st : EncoderStreamAdapter) :
  seek (length pre + p) (shift pre st) = shift pre (seek p st).
Proof. reflexivity. Qed.

(** The loop on a stream with bytes in front of it, started at the shifted
    position, locks on the same length at the shifted start. *)
Lemma shift_resync_Done (A : Type) (pre : list byte) (k : Z * nat -> Gen A) :
  (forall len start st1 a st2,
     run (k (len, start)) st1 = Done a st2 ->
     run (k (len, (length pre + start)%nat)) (shift pre st1) = Done a (shift pre st2)) ->
  forall fuel start st a st',
    stream_pos st = start ->
    run (bindG (resync fuel start) k) st = Done a st' ->
    run (bindG (resync fuel (length pre + start)) k) (shift pre st) = Done a (shift pre st').
Proof.
  intros Hk. induction fuel as [|fuel IH]; intros start st a st' Hpos H; [discriminate|].
  destruct (resync_Done_inv _ _ _ _ _ _ _ H) as (_ & _ & Hm & Hav).
  destruct (window_ok (stream_bytes st) start) eqn:Hw.
  - rewrite resync_lock in H by assumption.
    rewrite resync_lock.
    + cbn [shift stream_bytes]. rewrite drop_app_add' by reflexivity.
      change (mkAdapter (pre ++ stream_bytes st) (length pre + stream_pos st) (_max_size st))
        with (shift pre st).
      rewrite !advance_shift. now apply Hk.
    + cbn [shift stream_pos]. now rewrite Hpos.
    + exact Hm.
    + now rewrite available_shift.
    + cbn [shift stream_bytes]. now rewrite window_ok_shift.
  - rewrite resync_step in H by assumption.
    rewrite resync_step.
    + replace (S (length pre + start)) with (length pre + S start)%nat by lia.
      rewrite seek_shift. apply IH; [reflexivity | exact H].
    + cbn [shift stream_pos]. now rewrite Hpos.
    + exact Hm.
    + now rewrite available_shift.
    + cbn [shift stream_bytes]. now rewrite window_ok_shift.
Qed.

(** What follows the lock gives the same packet on a stream with bytes in
    front of it: [bytesUsed] is a difference of positions. *)
Lemma shift_locked_Done (Version : Type) (FromString : str -> res Version)
    (complexType : PacketField Version) (pre : list byte)
    (len : Z) (start : nat) (st1 st2 : EncoderStreamAdapter) (a : PacketField Version) :
  run (bindG (decode_locked FromString complexType len)
         (fun result => frame_tail len start (fst result) (snd result))) st1 = Done a st2 ->
  run (bindG (decode_locked FromString complexType len)
         (fun result => frame_tail len (length pre + start) (fst result) (snd result)))
      (shift pre st1) = Done a (shift pre st2).
Proof.
  rewrite !run_bindG.
  destruct (run (decode_locked FromString complexType len) st1) as [r st|e st|g st|] eqn:Hd;
    cbn [bind_outcome]; try discriminate.
  rewrite (run_shift_Done _ _ pre (position_free_decode_locked _ FromString complexType len)
             _ _ _ Hd).
  cbn [bind_outcome]. unfold frame_tail. cbn [run]. unfold tell. cbn [shift stream_pos].
  replace (Z.of_nat (length pre + stream_pos st) - Z.of_nat (length pre + start))
    with (Z.of_nat (stream_pos st) - Z.of_nat start) by lia.
  destruct (negb _); cbn [run]; [discriminate|].
  destruct (fst r); cbn [run]; [|discriminate].
  intros H. injection H as <- <-. reflexivity.
Qed.

(** The loop skips every byte in front of the packet whose window fails the
    check, one byte for each round. *)
Lemma resync_skip (A : Type) (k : Z * nat -> Gen A) (garbage pkt : list byte) (fuel : nat) :
  (16 <= length pkt)%nat ->
  (forall j, (j < length garbage)%nat -> window_ok (garbage ++ pkt) j = false) ->
  forall n i, (i + n = length garbage)%nat ->
    run (bindG (resync (n + fuel) i) k) (mkAdapter (garbage ++ pkt) i None) =
    run (bindG (resync fuel (length garbage)) k)
        (mkAdapter (garbage ++ pkt) (length garbage) None).
Proof.
  intros Hlen Hwin. induction n as [|n IH]; intros i Hi.
  - replace i with (length garbage) by lia. reflexivity.
  - cbn [Nat.add]. rewrite resync_step.
    + apply (IH (S i)). lia.
    + reflexivity.
    + reflexivity.
    + unfold available. cbn [stream_bytes stream_pos]. rewrite length_app. lia.
    + apply Hwin. lia.
Qed.

(** C3: during framed-packet decode, whenever the two u64s at the current
    start position fail the check [length = check XOR 0xFFFFFFFFFFFFFFFF],
    the decoder moves the start position on by exactly one byte, rewinds the
    stream there and retries. Consequently, for every encoded packet that the
    decoder decodes to its end, prefixed by any number of garbage bytes (so
    for every k in 1..64) none of whose 16-byte windows satisfies the check,
    the decoder decodes the original packet, given one more round of the
    loop for each garbage byte, and leaves the stream position at exactly
    k + len(packet). *)
Theorem C3_resynchronisation :
  (forall (A : Type) (fuel start : nat) (k : Z * nat -> Gen A) (st : EncoderStreamAdapter),
     stream_pos st = start ->
     exceeds_max_size st 8 = false ->
     (16 <= available st)%nat ->
     window_ok (stream_bytes st) start = false ->
     run (bindG (resync (S fuel) start) k) st =
     run (bindG (resync fuel (S start)) k) (seek (S start) st)) /\
  (forall (Version : Type) (FromString : str -> res Version)
          (complexType : PacketField Version) (fuel : nat) (garbage pkt : list byte)
          (v : PacketField Version) (st_end : EncoderStreamAdapter),
     run (PacketEncoder_decodeIterator FromString fuel complexType) (stream_of pkt)
       = Done v st_end ->
     stream_pos st_end = length pkt ->
     (forall j, (j < length garbage)%nat -> window_ok (garbage ++ pkt) j = false) ->
     run (PacketEncoder_decodeIterator FromString (length garbage + fuel) complexType)
         (stream_of (garbage ++ pkt)) = Done v (shift garbage st_end) /\
     stream_pos (shift garbage st_end) = (length garbage + length pkt)%nat).
Proof.
  split; [intros; now apply resync_step|].
  intros Version FromString complexType fuel garbage pkt v st_end Hrun Hend Hwin.
  split; [|cbn [shift stream_pos]; now rewrite Hend].
  unfold PacketEncoder_decodeIterator in *. cbn [run] in *.
  change (tell (stream_of pkt)) with 0%nat in Hrun.
  change (tell (stream_of (garbage ++ pkt))) with 0%nat.
  destruct (resync_Done_inv _ _ _ _ _ _ _ Hrun) as (_ & _ & _ & Hav).
  assert (Hlen : (16 <= length pkt)%nat).
  { unfold available, stream_of in Hav. cbn [stream_bytes stream_pos] in Hav. lia. }
  unfold stream_of at 1.
  rewrite (resync_skip _ _ garbage pkt fuel Hlen Hwin (length garbage) 0%nat eq_refl).
  pose proof (shift_resync_Done _ garbage
    (fun locked : Z * nat =>
       bindG (decode_locked FromString complexType (fst locked))
         (fun result => frame_tail (fst locked) (snd locked) (fst result) (snd result))))
    as Hshift.
  cbn [fst snd] in Hshift.
  specialize (Hshift (fun len start st1 a st2 =>
                        shift_locked_Done Version FromString complexType garbage
                          len start st1 st2 a)).
  specialize (Hshift fuel 0%nat (stream_of pkt) v st_end eq_refl Hrun).
  rewrite Nat.add_0_r in Hshift.
  replace (mkAdapter (garbage ++ pkt) (length garbage) None)
    with (shift garbage (stream_of pkt))
    by (unfold shift, stream_of; cbn [stream_bytes stream_pos _max_size];
        now rewrite Nat.add_0_r).
  exact Hshift.
Qed.

(** Three garbage bytes in front of the frame of the "demo" packet: the
    decoder returns the packet and stops at position 3 + 29. *)
Lemma C3_witness :
  run (PacketEncoder_decodeIterator Ok 4 demo_registry_field)
      (stream_of ([x01; x02; x03] ++ demo_frame))
    = Done (setData demo_registry_field demo_packet)
           (shift [x01; x02; x03] (mkAdapter demo_frame 29 (Some 29))) /\
  stream_pos (shift [x01; x02; x03] (mkAdapter demo_frame 29 (Some 29))) = 32%nat.
Proof.
  destruct C3_resynchronisation as [_ H].
  apply (H str Ok demo_registry_field 1%nat [x01; x02; x03] demo_frame
           (setData demo_registry_field demo_packet) (mkAdapter demo_frame 29 (Some 29))).
  - vm_compute. reflexivity.
  - reflexivity.
  - intros j Hj. destruct j as [|[|[|j]]]; [vm_compute; reflexivity ..|].
    cbn [length] in Hj. lia.
Defined.

(** * Further properties of the code *)

(** ** UTF-8 *)

Lemma Z_of_byte_of_Z_small (z : Z) : 0 <= z < 256 -> Z_of_byte (byte_of_Z z) = z.
Proof. intros H. rewrite Z_of_byte_of_Z. now apply Z.mod_small. Qed.

Lemma continuation_byte (x : Z) :
  0 <= x < 64 -> continuation (byte_of_Z (128 + x)) = Some x.
Proof.
  intros H. unfold continuation. rewrite Z_of_byte_of_Z_small by lia.
  destruct (Z.leb_spec 128 (128 + x)); [|lia].
  destruct (Z.ltb_spec (128 + x) 192); [|lia].
  cbn [andb]. f_equal. lia.
Qed.

Lemma utf8_decode_char (c : Z) (cb rest : list byte) :
  utf8_encode_char c = Ok cb ->
  utf8_decode (cb ++ rest) = cons_char c (utf8_decode rest).
Proof.
  unfold utf8_encode_char.
  destruct (Z.ltb_spec c 0); [discriminate|].
  destruct (Z.ltb_spec c 128).
  { intros [= <-]. cbn [app utf8_decode]. rewrite Z_of_byte_of_Z_small by lia.
    destruct (Z.ltb_spec c 128); [reflexivity|lia]. }
  destruct (Z.ltb_spec c 2048).
  { intros [= <-]. cbn [app utf8_decode].
    assert (H64 : 0 <= c mod 64 < 64) by (apply Z.mod_pos_bound; lia).
    assert (Hq : 2 <= c / 64 < 32) by (split; [apply Z.div_le_lower_bound|apply Z.div_lt_upper_bound]; lia).
    pose proof (Z.div_mod c 64 ltac:(lia)) as Hdm.
    rewrite Z_of_byte_of_Z_small by lia.
    destruct (Z.ltb_spec (192 + c / 64) 128); [lia|].
    destruct (Z.leb_spec 194 (192 + c / 64)); [|lia].
    destruct (Z.ltb_spec (192 + c / 64) 224); [|lia].
    cbn [andb]. rewrite continuation_byte by lia.
    replace ((192 + c / 64 - 192) * 64 + c mod 64) with c by lia. reflexivity. }
  destruct (Z.ltb_spec c 65536).
  { destruct (Z.leb_spec 55296 c); cbn [andb].
    - destruct (Z.leb_spec c 57343); [discriminate|].
      intros [= <-]. cbn [app utf8_decode].
      assert (H64 : 0 <= c mod 64 < 64) by (apply Z.mod_pos_bound; lia).
      assert (H64' : 0 <= (c / 64) mod 64 < 64) by (apply Z.mod_pos_bound; lia).
      assert (Hq : 0 <= c / 4096 < 16) by (split; [apply Z.div_le_lower_bound|apply Z.div_lt_upper_bound]; lia).
      pose proof (Z.div_mod c 64 ltac:(lia)) as Hdm.
      pose proof (Z.div_mod (c / 64) 64 ltac:(lia)) as Hdm2.
      rewrite Z.div_div in Hdm2 by lia. change (64 * 64) with 4096 in Hdm2.
      rewrite Z_of_byte_of_Z_small by lia.
      destruct (Z.ltb_spec (224 + c / 4096) 128); [lia|].
      destruct (Z.leb_spec 194 (224 + c / 4096)); [|lia].
      destruct (Z.ltb_spec (224 + c / 4096) 224); [lia|].
      cbn [andb].
      destruct (Z.leb_spec 224 (224 + c / 4096)); [|lia].
      destruct (Z.ltb_spec (224 + c / 4096) 240); [|lia].
      cbn [andb]. rewrite !continuation_byte by lia.
      replace ((224 + c / 4096 - 224) * 4096 + (c / 64) mod 64 * 64 + c mod 64) with c by lia.
      destruct (Z.ltb_spec c 2048); [lia|].
      destruct (Z.leb_spec 55296 c); [|lia].
      destruct (Z.leb_spec c 57343); [lia|]. reflexivity.
    - intros [= <-]. cbn [app utf8_decode].
      assert (H64 : 0 <= c mod 64 < 64) by (apply Z.mod_pos_bound; lia).
      assert (H64' : 0 <= (c / 64) mod 64 < 64) by (apply Z.mod_pos_bound; lia).
      assert (Hq : 0 <= c / 4096 < 16) by (split; [apply Z.div_le_lower_bound|apply Z.div_lt_upper_bound]; lia).
      pose proof (Z.div_mod c 64 ltac:(lia)) as Hdm.
      pose proof (Z.div_mod (c / 64) 64 ltac:(lia)) as Hdm2.
      rewrite Z.div_div in Hdm2 by lia. change (64 * 64) with 4096 in Hdm2.
      rewrite Z_of_byte_of_Z_small by lia.
      destruct (Z.ltb_spec (224 + c / 4096) 128); [lia|].
      destruct (Z.leb_spec 194 (224 + c / 4096)); [|lia].
      destruct (Z.ltb_spec (224 + c / 4096) 224); [lia|].
      cbn [andb].
      destruct (Z.leb_spec 224 (224 + c / 4096)); [|lia].
      destruct (Z.ltb_spec (224 + c / 4096) 240); [|lia].
      cbn [andb]. rewrite !continuation_byte by lia.
      replace ((224 + c / 4096 - 224) * 4096 + (c / 64) mod 64 * 64 + c mod 64) with c by lia.
      destruct (Z.ltb_spec c 2048); [lia|].
      destruct (Z.leb_spec 55296 c); [lia|]. reflexivity. }
  destruct (Z.ltb_spec c 1114112); [|discriminate].
  intros [= <-]. cbn [app utf8_decode].
  assert (H64 : 0 <= c mod 64 < 64) by (apply Z.mod_pos_bound; lia).
  assert (H64' : 0 <= (c / 64) mod 64 < 64) by (apply Z.mod_pos_bound; lia).
  assert (H64'' : 0 <= (c / 4096) mod 64 < 64) by (apply Z.mod_pos_bound; lia).
  assert (Hq : 0 <= c / 262144 < 5) by (split; [apply Z.div_le_lower_bound|apply Z.div_lt_upper_bound]; lia).
  pose proof (Z.div_mod c 64 ltac:(lia)) as Hdm.
  pose proof (Z.div_mod (c / 64) 64 ltac:(lia)) as Hdm2.
  rewrite Z.div_div in Hdm2 by lia. change (64 * 64) with 4096 in Hdm2.
  pose proof (Z.div_mod (c / 4096) 64 ltac:(lia)) as Hdm3.
  rewrite Z.div_div in Hdm3 by lia. change (4096 * 64) with 262144 in Hdm3.
  rewrite Z_of_byte_of_Z_small by lia.
  destruct (Z.ltb_spec (240 + c / 262144) 128); [lia|].
  destruct (Z.leb_spec 194 (240 + c / 262144)); [|lia].
  destruct (Z.ltb_spec (240 + c / 262144) 224); [lia|].
  cbn [andb].
  destruct (Z.leb_spec 224 (240 + c / 262144)); [|lia].
  destruct (Z.ltb_spec (240 + c / 262144) 240); [lia|].
  cbn [andb].
  destruct (Z.leb_spec 240 (240 + c / 262144)); [|lia].
  destruct (Z.ltb_spec (240 + c / 262144) 245); [|lia].
  cbn [andb]. rewrite !continuation_byte by lia.
  replace ((240 + c / 262144 - 240) * 262144 + (c / 4096) mod 64 * 4096 +
           (c / 64) mod 64 * 64 + c mod 64) with c by lia.
  destruct (Z.ltb_spec c 65536); [lia|].
  destruct (Z.leb_spec 1114112 c); [lia|]. reflexivity.
Qed.

Lemma utf8_decode_encode (s : str) (bs : list byte) :
  utf8_encode s = Ok bs -> utf8_decode bs = Ok s.
Proof.
  revert bs. induction s as [|c s IH]; intros bs; cbn [utf8_encode].
  - intros [= <-]. reflexivity.
  - destruct (utf8_encode_char c) as [cb|e] eqn:Hc; [|discriminate].
    destruct (utf8_encode s) as [rest|e] eqn:Hs; [|discriminate].
    intros [= <-]. rewrite (utf8_decode_char _ _ _ Hc), (IH rest eq_refl). reflexivity.
Qed.

(** ** Framed packets: encoding and decoding a frame *)

Lemma lxor_mask_range (n : Z) :
  0 <= n < 2 ^ 64 -> 0 <= Z.lxor n LENGTH_CHECK_MASK < 2 ^ 64.
Proof.
  intros Hn. assert (H0 : 0 <= Z.lxor n LENGTH_CHECK_MASK).
  { apply Z.lxor_nonneg. unfold LENGTH_CHECK_MASK. lia. }
  split; [exact H0|].
  destruct (Z.eq_dec (Z.lxor n LENGTH_CHECK_MASK) 0) as [->|Hne]; [lia|].
  apply Z.log2_lt_pow2; [lia|].
  pose proof (Z.log2_lxor n LENGTH_CHECK_MASK ltac:(lia) ltac:(unfold LENGTH_CHECK_MASK; lia)) as Hl.
  assert (Hm : Z.log2 LENGTH_CHECK_MASK = 63) by reflexivity.
  assert (Hn' : Z.log2 n < 64).
  { destruct (Z.eq_dec n 0) as [->|Hn0]; [cbn; lia|]. apply Z.log2_lt_pow2; lia. }
  lia.
Qed.

Lemma lxor_mask_involutive (n : Z) : Z.lxor (Z.lxor n LENGTH_CHECK_MASK) LENGTH_CHECK_MASK = n.
Proof. now rewrite Z.lxor_assoc, Z.lxor_nilpotent, Z.lxor_0_r. Qed.

Lemma frame_bytes_length (nb vb body : list byte) :
  length (frame_bytes nb vb body) = (16 + (1 + length nb) + (1 + length vb) + length body)%nat.
Proof. unfold frame_bytes. cbn zeta. rewrite !length_app, !be_bytes_length. lia. Qed.

Lemma seek_write (bs : list byte) (st : EncoderStreamAdapter) (q : nat) :
  seek (stream_pos st + length bs) (seek q (write bs st)) = write bs st.
Proof. reflexivity. Qed.

Lemma emits_PacketEncoder_encode (Version : Type) (complexType : PacketField Version)
    (packet : Packet) (nb vb body : list byte) :
  packet_data complexType = Some packet ->
  utf8_encode (DEFINITION_IDENTIFIER packet) = Ok nb -> (length nb <= 255)%nat ->
  utf8_encode (DEFINITION_VERSION packet) = Ok vb -> (length vb <= 255)%nat ->
  emits (PacketFieldsEncoder.encode encode (packet_FIELDS packet)) body ->
  Z.of_nat (length (frame_bytes nb vb body)) < 2 ^ 64 ->
  emits (PacketEncoder_encode complexType) (frame_bytes nb vb body).
Proof.
  intros Hp Hn Hnl Hv Hvl Hbody HL st Hr.
  rewrite frame_bytes_length in HL.
  unfold PacketEncoder_encode.
  unfold bind at 1. unfold tellM at 1.
  unfold bind at 1. rewrite Hp. unfold lift at 1.
  unfold bind at 1. rewrite Hn. unfold lift at 1.
  unfold bind at 1. rewrite Hv. unfold lift at 1.
  unfold bind at 1.
  rewrite !pack_s_exact.
  rewrite (pack_unsigned_ok 8 0) by (simpl; lia).
  rewrite (pack_unsigned_ok 1 (Z.of_nat (length nb))) by (simpl; lia).
  rewrite (pack_unsigned_ok 1 (Z.of_nat (length vb))) by (simpl; lia).
  cbn [concat_packed pack].
  unfold bind at 1. rewrite (Hbody _ (in_range_write _ st)).
  rewrite write_write.
  unfold bind at 1. unfold tellM at 1.
  unfold bind at 1. unfold seekM at 1.
  set (body0 := (be_bytes 8 0 ++ be_bytes 8 0 ++ be_bytes 1 (Z.of_nat (length nb)) ++
                  nb ++ be_bytes 1 (Z.of_nat (length vb)) ++ vb) ++ body).
  assert (Hlen0 : length body0 = (16 + (1 + length nb) + (1 + length vb) + length body)%nat).
  { unfold body0. rewrite !length_app, !be_bytes_length. lia. }
  change (tell (write body0 st)) with (stream_pos st + length body0)%nat.
  change (tell st) with (stream_pos st).
  replace (Z.of_nat (stream_pos st + length body0) - Z.of_nat (stream_pos st))
    with (Z.of_nat (16 + (1 + length nb) + (1 + length vb) + length body)) by lia.
  set (packetLength := Z.of_nat (16 + (1 + length nb) + (1 + length vb) + length body)) in *.
  pose proof (lxor_mask_range packetLength ltac:(unfold packetLength; lia)) as Hx.
  rewrite (pack_unsigned_ok 8 packetLength) by (simpl; unfold packetLength; lia).
  rewrite (pack_unsigned_ok 8 (Z.lxor packetLength LENGTH_CHECK_MASK)) by (simpl; lia).
  unfold bind, pack, seekM. rewrite write_write.
  rewrite write_over by (rewrite length_app, !be_bytes_length; lia).
  f_equal.
  rewrite length_app, !be_bytes_length.
  replace ((be_bytes 8 packetLength ++ be_bytes 8 (Z.lxor packetLength LENGTH_CHECK_MASK)) ++
           drop (8 + 8) body0) with (frame_bytes nb vb body).
  - rewrite Hlen0, <- frame_bytes_length. apply seek_write.
  - unfold frame_bytes. cbn zeta. fold packetLength. unfold body0.
    rewrite <- !app_assoc. reflexivity.
Qed.

Lemma resync_locks (A : Type) (fuel start : nat) (k : Z * nat -> Gen A)
    (st : EncoderStreamAdapter) (packetLength : Z) (rest tail : list byte) :
  0 <= packetLength < 2 ^ 64 ->
  exceeds_max_size st 8 = false ->
  holds st (be_bytes 8 packetLength ++
            be_bytes 8 (Z.lxor packetLength LENGTH_CHECK_MASK) ++ rest) tail ->
  run (bindG (resync (S fuel) start) k) st = run (k (packetLength, start)) (advance 16 st).
Proof.
  intros HL Hm Hh. pose proof (lxor_mask_range _ HL) as Hx.
  apply holds_app in Hh as [H1 Hh]. rewrite be_bytes_length in Hh.
  apply holds_app in Hh as [H2 _].
  cbn [resync]. rewrite !run_bindG.
  rewrite (run_unpack_int code_Q st _ _ Hm H1) by apply be_bytes_length.
  cbn [bind_outcome]. rewrite run_bindG.
  rewrite be_bytes_length.
  rewrite (run_unpack_int code_Q (advance 8 st) _ _ Hm H2) by apply be_bytes_length.
  cbn [bind_outcome struct_unpack_int]. unfold unpack_unsigned.
  rewrite !be_value_bytes, !be_bytes_length, advance_advance.
  rewrite !Z.mod_small by (simpl; lia).
  rewrite lxor_mask_involutive, Z.eqb_refl. reflexivity.
Qed.

Lemma decodes_length_prefixed (A : Type) (bs rest : list byte) (f : list byte -> Gen A)
    (v : A) :
  (length bs <= 255)%nat ->
  decodes (f bs) rest v ->
  decodes (bindG (unpack_int code_B) (fun n => bindG (unpackIterator (Z.to_nat n)) f))
          (be_bytes 1 (Z.of_nat (length bs)) ++ bs ++ rest) v.
Proof.
  intros Hl Hf. eapply decodes_bindG.
  { apply (decodes_unsigned code_B); [simpl; tauto|simpl; lia]. }
  rewrite Nat2Z.id. eapply decodes_bindG; [apply decodes_unpackIterator|exact Hf].
Qed.

Section FrameDecoding.
Variable Version : Type.
Variable FromString : str -> res Version.

Lemma run_decode_locked (complexType : PacketField Version) (packetLength : Z)
    (st : EncoderStreamAdapter) (nb vb body tail : list byte) (name vtext : str)
    (version : Version) (packet : Packet) (raw : list (string * field)) :
  (length nb <= 255)%nat -> (length vb <= 255)%nat ->
  utf8_decode nb = Ok name -> utf8_decode vb = Ok vtext ->
  FromString vtext = Ok version ->
  getDefinition complexType name version = Some packet ->
  decodes (PacketFieldsDecoder.decodeIterator decodeIterator (packet_FIELDS packet)) body raw ->
  holds st (be_bytes 1 (Z.of_nat (length nb)) ++ nb ++
            be_bytes 1 (Z.of_nat (length vb)) ++ vb ++ body) tail ->
  packetLength = 0 \/ Z.of_nat ((1 + length nb) + (1 + length vb) + length body) <= packetLength ->
  run (decode_locked FromString complexType packetLength) st =
  Done (Some packet,
        setData complexType
          (mkPacket (DEFINITION_IDENTIFIER packet) (DEFINITION_VERSION packet) raw))
       (advance ((1 + length nb) + (1 + length vb) + length body) (set_max_size packetLength st)).
Proof.
  intros Hnl Hvl Hn Hv Hver Hdef Hbody Hh Hfit.
  unfold decode_locked. cbn [bindG run].
  match goal with
  | |- run ?g _ = Done ?v _ =>
      assert (Hd : decodes g (be_bytes 1 (Z.of_nat (length nb)) ++ nb ++
                              be_bytes 1 (Z.of_nat (length vb)) ++ vb ++ body ++ []) v)
  end.
  { apply decodes_length_prefixed; [exact Hnl|].
    eapply decodes_liftG; [exact Hn|].
    apply decodes_length_prefixed; [exact Hvl|].
    eapply decodes_liftG; [exact Hv|].
    eapply decodes_liftG; [exact Hver|].
    cbn zeta. rewrite Hdef.
    eapply decodes_bindG; [exact Hbody|apply decodes_Return]. }
  rewrite app_nil_r in Hd.
  rewrite (Hd (set_max_size packetLength st) tail).
  - f_equal. rewrite !length_app, !be_bytes_length. f_equal. lia.
  - exact Hh.
  - unfold fits. cbn [set_max_size _max_size].
    rewrite !length_app, !be_bytes_length. destruct Hfit as [->|Hle]; [now left|right; lia].
Qed.
End FrameDecoding.

Lemma decodes_GROUP_inv (a : attributes) (set : bool) (FIELDS raw : list (string * field))
    (body : list byte) :
  decodes (decodeIterator (GROUP a set FIELDS)) body (GROUP a true raw) ->
  decodes (PacketFieldsDecoder.decodeIterator decodeIterator FIELDS) body raw.
Proof.
  intros H st tail Hh Hf. specialize (H st tail Hh Hf).
  cbn [decodeIterator] in H. rewrite run_bindG in H.
  destruct (run (PacketFieldsDecoder.decodeIterator decodeIterator FIELDS) st)
    as [r s|e s|g s|]; cbn [bind_outcome run] in H; try discriminate.
  injection H as <- <-. reflexivity.
Qed.

Lemma run_frame (Version : Type) (FromString : str -> res Version)
    (receiver : PacketField Version) (packet : Packet) (version : Version)
    (nb vb body : list byte) :
  decodes (decodeIterator (unset (GROUP no_attributes true (packet_FIELDS packet)))) body
          (GROUP no_attributes true (packet_FIELDS packet)) ->
  utf8_encode (DEFINITION_IDENTIFIER packet) = Ok nb -> (length nb <= 255)%nat ->
  utf8_encode (DEFINITION_VERSION packet) = Ok vb -> (length vb <= 255)%nat ->
  Z.of_nat (length (frame_bytes nb vb body)) < 2 ^ 64 ->
  FromString (DEFINITION_VERSION packet) = Ok version ->
  getDefinition receiver (DEFINITION_IDENTIFIER packet) version = Some (packet_type packet) ->
  forall fuel st tail,
    holds st (frame_bytes nb vb body) tail ->
    exceeds_max_size st 8 = false ->
    run (PacketEncoder_decodeIterator FromString (S fuel) receiver) st =
    Done (setData receiver packet)
         (mkAdapter (stream_bytes st) (stream_pos st + length (frame_bytes nb vb body))
                    (Some (Z.of_nat (length (frame_bytes nb vb body))))).
Proof.
  intros Hdec Hn Hnl Hv Hvl HL Hver Hdef fuel st tail Hh Hm.
  pose proof HL as HL'. rewrite frame_bytes_length in HL'.
  unfold PacketEncoder_decodeIterator. cbn [run].
  unfold frame_bytes in Hh. cbn zeta in Hh.
  assert (HLr : 0 <= Z.of_nat (16 + (1 + length nb) + (1 + length vb) + length body)
                < 2 ^ 64) by lia.
  rewrite (resync_locks _ fuel (tell st) _ st _ _ tail HLr Hm Hh).
  cbn [fst snd]. rewrite run_bindG.
  apply holds_app in Hh as [_ Hh]. apply holds_app in Hh as [_ Hh].
  rewrite !be_bytes_length, advance_advance in Hh.
  rewrite (run_decode_locked Version FromString receiver _ _ nb vb body tail
             (DEFINITION_IDENTIFIER packet) (DEFINITION_VERSION packet) version
             (packet_type packet) (packet_FIELDS packet) Hnl Hvl
             (utf8_decode_encode _ _ Hn) (utf8_decode_encode _ _ Hv) Hver Hdef).
  + cbn [bind_outcome fst snd]. unfold frame_tail. cbn [run].
    unfold tell. cbn [advance set_max_size stream_pos].
    match goal with
    | |- context [negb (?x =? 0)] => replace x with 0 by (clear; lia)
    end.
    cbn [Z.eqb negb run]. unfold setData, packet_type. cbn [DEFINITION_IDENTIFIER
      DEFINITION_VERSION]. destruct packet as [pid pver pfields].
    cbn [DEFINITION_IDENTIFIER DEFINITION_VERSION packet_FIELDS stream_bytes _max_size].
    rewrite frame_bytes_length. f_equal.
    unfold advance, set_max_size. cbn [stream_bytes stream_pos _max_size].
    f_equal. clear. lia.
  + unfold packet_type. cbn [packet_FIELDS].
    apply (decodes_GROUP_inv no_attributes false). exact Hdec.
  + exact Hh.
  + right. lia.
Qed.

(** A frame is written by [PacketEncoder.encode] as one piece at the stream
    position, and [PacketEncoder.decodeIterator], run where the frame starts,
    gives the packet back and stops behind the frame. The identifier and the
    version may be any text of at most 255 UTF-8 bytes; the receiver's
    definitions store has to resolve them to the type of the packet. The
    read cap is left at the frame length. *)
Theorem framed_packet_round_trip (Version : Type) (FromString : str -> res Version)
    (sender receiver : PacketField Version) (packet : Packet) (version : Version)
    (nb vb body : list byte) :
  packet_data sender = Some packet ->
  valid (GROUP no_attributes true (packet_FIELDS packet)) ->
  encoded (GROUP no_attributes true (packet_FIELDS packet)) = Ok body ->
  utf8_encode (DEFINITION_IDENTIFIER packet) = Ok nb -> (length nb <= 255)%nat ->
  utf8_encode (DEFINITION_VERSION packet) = Ok vb -> (length vb <= 255)%nat ->
  Z.of_nat (length (frame_bytes nb vb body)) < 2 ^ 64 ->
  FromString (DEFINITION_VERSION packet) = Ok version ->
  getDefinition receiver (DEFINITION_IDENTIFIER packet) version = Some (packet_type packet) ->
  (forall st, in_range st ->
     PacketEncoder_encode sender st = (Ok tt, write (frame_bytes nb vb body) st)) /\
  (forall fuel st tail,
     holds st (frame_bytes nb vb body) tail ->
     exceeds_max_size st 8 = false ->
     run (PacketEncoder_decodeIterator FromString (S fuel) receiver) st =
     Done (setData receiver packet)
          (mkAdapter (stream_bytes st) (stream_pos st + length (frame_bytes nb vb body))
                     (Some (Z.of_nat (length (frame_bytes nb vb body)))))).
Proof.
  intros Hp Hvalid Hbody Hn Hnl Hv Hvl HL Hver Hdef.
  destruct (valid_round_trips _ Hvalid) as (body' & Hemit & Hdec).
  pose proof (emits_encoded _ _ Hemit) as Hbody'. rewrite Hbody in Hbody'.
  injection Hbody' as <-.
  split.
  - apply (emits_PacketEncoder_encode Version sender packet); assumption.
  - now apply (run_frame Version FromString receiver packet version).
Qed.

(** The packet "sample", with a UINT, an UNSET optional STRING, a 64-bit
    FLOAT, a STRING and a LIST, goes through a frame and comes back. *)
Lemma framed_packet_round_trip_witness :
  exists frame,
    PacketEncoder_encode sample_sender empty_stream = (Ok tt, write frame empty_stream) /\
    run (PacketEncoder_decodeIterator Ok 1 sample_receiver) (stream_of frame) =
      Done (setData sample_receiver sample_packet)
           (mkAdapter frame (length frame) (Some (Z.of_nat (length frame)))).
Proof.
  edestruct (framed_packet_round_trip str Ok sample_sender sample_receiver sample_packet
               (str_of_string "1.0")) as [Henc Hdec].
  - reflexivity.
  - exact sample_group_valid.
  - vm_compute. reflexivity.
  - vm_compute. reflexivity.
  - vm_compute. lia.
  - vm_compute. reflexivity.
  - vm_compute. lia.
  - vm_compute. reflexivity.
  - reflexivity.
  - reflexivity.
  - eexists. split.
    + apply Henc. unfold in_range. cbn. lia.
    + apply (Hdec 0%nat (stream_of _) []); [apply holds_stream_of|reflexivity].
Defined.

Lemma run_decode_locked_unknown (Version : Type) (FromString : str -> res Version)
    (complexType : PacketField Version) (packetLength : Z)
    (st : EncoderStreamAdapter) (nb vb tail : list byte) (name vtext : str)
    (version : Version) :
  (length nb <= 255)%nat -> (length vb <= 255)%nat ->
  utf8_decode nb = Ok name -> utf8_decode vb = Ok vtext ->
  FromString vtext = Ok version ->
  getDefinition complexType name version = None ->
  holds st (be_bytes 1 (Z.of_nat (length nb)) ++ nb ++
            be_bytes 1 (Z.of_nat (length vb)) ++ vb) tail ->
  packetLength = 0 \/ Z.of_nat ((1 + length nb) + (1 + length vb)) <= packetLength ->
  run (decode_locked FromString complexType packetLength) st =
  Done (None, complexType)
       (advance ((1 + length nb) + (1 + length vb)) (set_max_size packetLength st)).
Proof.
  intros Hnl Hvl Hn Hv Hver Hdef Hh Hfit.
  unfold decode_locked. cbn [bindG run].
  match goal with
  | |- run ?g _ = Done ?v _ =>
      assert (Hd : decodes g (be_bytes 1 (Z.of_nat (length nb)) ++ nb ++
                              be_bytes 1 (Z.of_nat (length vb)) ++ vb ++ []) v)
  end.
  { apply decodes_length_prefixed; [exact Hnl|].
    eapply decodes_liftG; [exact Hn|].
    apply decodes_length_prefixed; [exact Hvl|].
    eapply decodes_liftG; [exact Hv|].
    eapply decodes_liftG; [exact Hver|].
    cbn zeta. rewrite Hdef. apply decodes_Return. }
  rewrite app_nil_r in Hd.
  rewrite (Hd (set_max_size packetLength st) tail).
  - f_equal. rewrite !length_app, !be_bytes_length. f_equal; lia.
  - exact Hh.
  - unfold fits. cbn [set_max_size _max_size].
    rewrite !length_app, !be_bytes_length. destruct Hfit as [->|Hle]; [now left|right; lia].
Qed.

(** When the definitions store does not know the identifier and version of
    a frame that is complete on the stream, [PacketEncoder.decodeIterator]
    does not decode the body: it reads what is left of the frame and raises,
    so that the stream position is exactly behind the frame. The exception is
    the size mismatch whenever the frame has anything after its version, and
    the unresolved packet type only for a frame that ends there. *)
Theorem unknown_packet_type_discards_frame (Version : Type) (FromString : str -> res Version)
    (complexType : PacketField Version) (nb vb rest : list byte) (name vtext : str)
    (version : Version) :
  (length nb <= 255)%nat -> (length vb <= 255)%nat ->
  utf8_decode nb = Ok name -> utf8_decode vb = Ok vtext ->
  FromString vtext = Ok version ->
  getDefinition complexType name version = None ->
  Z.of_nat (length (frame_bytes nb vb rest)) < 2 ^ 64 ->
  forall fuel st tail,
    holds st (frame_bytes nb vb rest) tail ->
    exceeds_max_size st 8 = false ->
    run (PacketEncoder_decodeIterator FromString (S fuel) complexType) st =
    Raised (match rest with
            | [] => Exception PacketTypeUnresolved
            | _ => Exception (PacketSizeMismatch
                                (Z.of_nat (length (frame_bytes nb vb rest)))
                                (Z.of_nat (length (frame_bytes nb vb [])))) 
            end)
           (mkAdapter (stream_bytes st) (stream_pos st + length (frame_bytes nb vb rest))
                      (Some (Z.of_nat (length (frame_bytes nb vb rest))))).
Proof.
  intros Hnl Hvl Hn Hv Hver Hdef HL fuel st tail Hh Hm.
  rewrite !frame_bytes_length in *.
  unfold PacketEncoder_decodeIterator. cbn [run].
  unfold frame_bytes in Hh. cbn zeta in Hh.
  assert (HLr : 0 <= Z.of_nat (16 + (1 + length nb) + (1 + length vb) + length rest)
                < 2 ^ 64) by lia.
  rewrite (resync_locks _ fuel (tell st) _ st _ _ tail HLr Hm Hh).
  cbn [fst snd]. rewrite run_bindG.
  apply holds_app in Hh as [_ Hh]. apply holds_app in Hh as [_ Hh].
  rewrite !be_bytes_length, advance_advance in Hh.
  assert (Hh' : holds (advance (8 + 8) st)
                  (be_bytes 1 (Z.of_nat (length nb)) ++ nb ++
                   be_bytes 1 (Z.of_nat (length vb)) ++ vb) (rest ++ tail)).
  { unfold holds in *. rewrite Hh, <- !app_assoc. reflexivity. }
  rewrite (run_decode_locked_unknown Version FromString complexType _ _ nb vb (rest ++ tail)
             name vtext version Hnl Hvl Hn Hv Hver Hdef Hh') by (right; lia).
  cbn [bind_outcome fst snd]. unfold frame_tail. cbn [run].
  unfold tell. cbn [advance set_max_size stream_pos].
  match goal with
  | |- context [negb (?x =? 0)] =>
      replace x with (Z.of_nat (length rest)) by (clear; lia)
  end.
  match goal with
  | |- context [PacketSizeMismatch _ ?x] =>
      replace x with (Z.of_nat (16 + (1 + length nb) + (1 + length vb) + 0)) by (clear; lia)
  end.
  set (st2 := advance _ (set_max_size _ (advance (8 + 8) st))).
  assert (Hrem : remaining st2 = rest ++ tail).
  { apply holds_advance in Hh'. rewrite !length_app, !be_bytes_length in Hh'.
    rewrite <- Hh'. unfold remaining, st2, advance. cbn [stream_bytes stream_pos set_max_size].
    f_equal; clear; lia. }
  destruct rest as [|b rest].
  - cbn [length Z.of_nat Z.eqb negb run]. f_equal. unfold st2, advance, set_max_size.
    cbn [stream_bytes stream_pos _max_size]. f_equal; clear; lia.
  - assert (Hne : (Z.of_nat (length (b :: rest)) =? 0) = false)
      by (apply Z.eqb_neq; cbn [length]; lia).
    rewrite Hne. cbn [negb run].
    rewrite read_enough by (rewrite available_remaining, Hrem, length_app; lia).
    cbn [snd]. f_equal. unfold st2, advance, set_max_size.
    cbn [stream_bytes stream_pos _max_size]. f_equal; clear; lia.
Qed.

(** The frame of the "demo" packet, read with a definitions store that is
    empty: 27 of its 29 bytes are the header, and the stream ends up behind
    the frame. *)
Lemma unknown_packet_type_discards_frame_witness :
  run (PacketEncoder_decodeIterator (fun _ => Ok tt) 1 demo_field) (stream_of demo_frame) =
  Raised (Exception (PacketSizeMismatch 29 27)) (mkAdapter demo_frame 29 (Some 29)).
Proof.
  refine (unknown_packet_type_discards_frame unit (fun _ => Ok tt) demo_field
            [x64; x65; x6d; x6f] [x31; x2e; x30; x2e; x30] [x00; x00]
            (str_of_string "demo") (str_of_string "1.0.0") tt
            _ _ _ _ _ _ _ 0%nat (stream_of demo_frame) [] _ _);
    try reflexivity.
  - cbn. lia.
  - cbn. lia.
Defined.

Lemma run_unpack_int_short (c : packCode) (st : EncoderStreamAdapter) :
  exceeds_max_size st (calcsize c) = false ->
  (available st < calcsize c)%nat ->
  exists g, run (unpack_int c) st = Waiting g st.
Proof.
  intros Hm Hav. unfold unpack_int, unpackIterator. cbn [bindG run]. rewrite Hm.
  destruct (Nat.ltb_spec (available st) (calcsize c)); [|lia]. eauto.
Qed.

Lemma resync_garbage (A : Type) (k : Z * nat -> Gen A) (bs : list byte) :
  (forall i, (i + 16 <= length bs)%nat -> window_ok bs i = false) ->
  forall fuel i,
    (length bs - i < fuel)%nat ->
    exists g st',
      run (bindG (resync fuel i) k) (mkAdapter bs i None) = Waiting g st' /\
      stream_bytes st' = bs.
Proof.
  intros Hwin. induction fuel as [|fuel IH]; intros i Hfuel; [lia|].
  destruct (le_lt_dec (i + 16) (length bs)) as [Hfull|Hshort].
  - rewrite resync_step.
    + apply (IH (S i)). lia.
    + reflexivity.
    + reflexivity.
    + unfold available. cbn [stream_bytes stream_pos]. lia.
    + apply Hwin. exact Hfull.
  - cbn [resync]. rewrite !run_bindG.
    destruct (le_lt_dec 8 (available (mkAdapter bs i None))) as [H8|H8].
    + rewrite run_unpack_int_available by (cbn [calcsize]; auto).
      cbn [bind_outcome calcsize]. rewrite run_bindG.
      destruct (run_unpack_int_short code_Q (advance 8 (mkAdapter bs i None)))
        as [g Hg]; [reflexivity| |].
      { unfold available, advance in *. cbn [stream_bytes stream_pos calcsize] in *. lia. }
      rewrite Hg. cbn [bind_outcome]. eexists _, _. split; reflexivity.
    + destruct (run_unpack_int_short code_Q (mkAdapter bs i None)) as [g Hg];
        [reflexivity|exact H8|].
      rewrite Hg. cbn [bind_outcome]. eexists _, _. split; reflexivity.
Qed.

(** On a stream in which no 16-byte window passes the length check, the
    packet decoder neither returns nor raises: after at most one round of
    its loop for each byte it is suspended, waiting for more of the stream,
    and it stays so for as long as nothing arrives. *)
Theorem garbage_keeps_decoder_waiting (Version : Type) (FromString : str -> res Version)
    (complexType : PacketField Version) (bs : list byte) (fuel : nat) :
  (length bs < fuel)%nat ->
  (forall i, (i + 16 <= length bs)%nat -> window_ok bs i = false) ->
  exists g st',
    run (PacketEncoder_decodeIterator FromString fuel complexType) (stream_of bs)
      = Waiting g st' /\
    stream_bytes st' = bs /\
    run g st' = Waiting g st'.
Proof.
  intros Hfuel Hwin. unfold PacketEncoder_decodeIterator. cbn [run].
  change (tell (stream_of bs)) with 0%nat.
  destruct (resync_garbage _
              (fun locked : Z * nat =>
                 bindG (decode_locked FromString complexType (fst locked))
                   (fun result =>
                      frame_tail (fst locked) (snd locked) (fst result) (snd result)))
              bs Hwin fuel 0%nat) as (g & st' & Hrun & Hbytes); [lia|].
  exists g, st'. split; [exact Hrun|]. split; [exact Hbytes|].
  eapply run_Waiting_again. exact Hrun.
Qed.

(** Twenty bytes 01 02 ... 14: none of the five windows passes the check. *)
Lemma garbage_keeps_decoder_waiting_witness :
  exists g st',
    run (PacketEncoder_decodeIterator (fun _ => Ok tt) 21 demo_field)
        (stream_of [x01; x02; x03; x04; x05; x06; x07; x08; x09; x0a;
                    x0b; x0c; x0d; x0e; x0f; x10; x11; x12; x13; x14])
      = Waiting g st' /\
    stream_bytes st' = [x01; x02; x03; x04; x05; x06; x07; x08; x09; x0a;
                        x0b; x0c; x0d; x0e; x0f; x10; x11; x12; x13; x14] /\
    run g st' = Waiting g st'.
Proof.
  apply garbage_keeps_decoder_waiting.
  - cbn [length]. lia.
  - intros i Hi. cbn [length] in Hi.
    destruct i as [|[|[|[|[|i]]]]]; [vm_compute; reflexivity ..|lia].
Defined.

Lemma run_frame_of (Version : Type) (FromString : str -> res Version)
    (receiver : PacketField Version) (packet : Packet) (frame : list byte) :
  frame_of FromString receiver packet frame ->
  (18 <= length frame)%nat /\
  forall fuel st tail,
    holds st frame tail ->
    exceeds_max_size st 8 = false ->
    run (PacketEncoder_decodeIterator FromString (S fuel) receiver) st =
    Done (setData receiver packet)
         (mkAdapter (stream_bytes st) (stream_pos st + length frame)
                    (Some (Z.of_nat (length frame)))).
Proof.
  intros (version & nb & vb & body & Hvalid & Hbody & Hn & Hnl & Hv & Hvl & Hver & Hdef
          & -> & HL).
  split; [rewrite frame_bytes_length; lia|].
  destruct (valid_round_trips _ Hvalid) as (body' & Hemit & Hdec).
  pose proof (emits_encoded _ _ Hemit) as Hbody'. rewrite Hbody in Hbody'.
  injection Hbody' as <-.
  now apply (run_frame Version FromString receiver packet version).
Qed.

(** Two frames that follow each other on the stream are decoded one after
    the other: the first call of [PacketEncoder.decodeIterator] stops where
    the second frame starts, and the read cap that it leaves, the length of
    the first frame, does not stand in the way of the second call. *)
Theorem frames_decode_in_sequence (Version : Type) (FromString : str -> res Version)
    (receiver : PacketField Version) (packet1 packet2 : Packet) (frame1 frame2 : list byte) :
  frame_of FromString receiver packet1 frame1 ->
  frame_of FromString receiver packet2 frame2 ->
  forall st tail,
    holds st (frame1 ++ frame2) tail ->
    exceeds_max_size st 8 = false ->
    run (bindG (PacketEncoder_decodeIterator FromString 1 receiver) (fun first =>
         bindG (PacketEncoder_decodeIterator FromString 1 receiver) (fun second =>
         Return (first, second)))) st =
    Done (setData receiver packet1, setData receiver packet2)
         (mkAdapter (stream_bytes st) (stream_pos st + length frame1 + length frame2)
                    (Some (Z.of_nat (length frame2)))).
Proof.
  intros H1 H2 st tail Hh Hm.
  destruct (run_frame_of _ _ _ _ _ H1) as [Hlen1 Hrun1].
  destruct (run_frame_of _ _ _ _ _ H2) as [_ Hrun2].
  apply holds_app in Hh as [Hh1 Hh2].
  rewrite run_bindG, (Hrun1 0%nat st _ Hh1 Hm). cbn [bind_outcome].
  rewrite run_bindG, (Hrun2 0%nat _ tail); cbn [bind_outcome run stream_bytes stream_pos].
  - reflexivity.
  - exact Hh2.
  - unfold exceeds_max_size. cbn [_max_size].
    destruct (Z.gtb_spec (Z.of_nat 8) (Z.of_nat (length frame1))); [lia|].
    apply andb_false_r.
Qed.

(** The frame of "sample" followed by the frame of "demo". *)
Lemma frames_decode_in_sequence_witness :
  run (bindG (PacketEncoder_decodeIterator Ok 1 sample_receiver) (fun first =>
       bindG (PacketEncoder_decodeIterator Ok 1 sample_receiver) (fun second =>
       Return (first, second)))) (stream_of (sample_frame ++ demo_frame)) =
  Done (setData sample_receiver sample_packet, setData sample_receiver demo_packet)
       (mkAdapter (sample_frame ++ demo_frame) (59 + 29) (Some 29)).
Proof.
  refine (frames_decode_in_sequence str Ok sample_receiver sample_packet demo_packet
            sample_frame demo_frame _ _ (stream_of _) [] _ _).
  - exists (str_of_string "1.0"). eexists _, _, _.
    split; [exact sample_group_valid|].
    split; [vm_compute; reflexivity|].
    split; [vm_compute; reflexivity|]. split; [vm_compute; lia|].
    split; [vm_compute; reflexivity|]. split; [vm_compute; lia|].
    split; [reflexivity|]. split; [reflexivity|].
    split; [vm_compute; reflexivity|vm_compute; reflexivity].
  - exists (str_of_string "1.0.0"). eexists _, _, _.
    split.
    { apply (valid_GROUP _ [] Bijection_empty); [reflexivity| |cbn; lia|constructor].
      intros n f t Hin. inversion Hin. }
    split; [vm_compute; reflexivity|].
    split; [vm_compute; reflexivity|]. split; [vm_compute; lia|].
    split; [vm_compute; reflexivity|]. split; [vm_compute; lia|].
    split; [reflexivity|]. split; [reflexivity|].
    split; [vm_compute; reflexivity|vm_compute; reflexivity].
  - apply holds_stream_of.
  - reflexivity.
Defined.

(** ** What encoding does to the stream, also when it fails *)

Lemma bind_inv (A B : Type) (m : M A) (k : A -> M B) (st st' : EncoderStreamAdapter)
    (r : res B) :
  bind m k st = (r, st') ->
  (exists e, m st = (Raise e, st') /\ r = Raise e) \/
  (exists a st1, m st = (Ok a, st1) /\ k a st1 = (r, st')).
Proof.
  unfold bind. destruct (m st) as [[a|e] st1].
  - right. eauto.
  - intros H. injection H as <- <-. left. eauto.
Qed.

Lemma bind_Raise_inv (A B : Type) (m : M A) (k : A -> M B) (st st' : EncoderStreamAdapter)
    (e : exn) :
  bind m k st = (Raise e, st') ->
  m st = (Raise e, st') \/ exists a st1, m st = (Ok a, st1) /\ k a st1 = (Raise e, st').
Proof.
  unfold bind. destruct (m st) as [[a|e0] st1]; [right; eauto|].
  intros H. injection H as <- <-. now left.
Qed.

Lemma writes_forward_ret (A : Type) (a : A) : writes_forward (ret a).
Proof.
  intros st r st' Hr H. injection H as _ <-. exists []. now rewrite write_nil.
Qed.

Lemma writes_forward_lift (A : Type) (r : res A) : writes_forward (lift r).
Proof.
  intros st r' st' Hr H. unfold lift in H. injection H as _ <-.
  exists []. now rewrite write_nil.
Qed.

Lemma writes_forward_pack (r : res (list byte)) : writes_forward (pack r).
Proof.
  intros st r' st' Hr H. unfold pack in H. destruct r as [bs|e]; injection H as _ <-.
  - eauto.
  - exists []. now rewrite write_nil.
Qed.

Lemma writes_forward_bind (A B : Type) (m : M A) (k : A -> M B) :
  writes_forward m -> (forall a, writes_forward (k a)) -> writes_forward (bind m k).
Proof.
  intros Hm Hk st r st' Hr H.
  apply bind_inv in H as [(e & H1 & _)|(a & st1 & H1 & H2)].
  - eapply Hm; eauto.
  - apply Hm in H1 as [b1 ->]; [|exact Hr].
    apply Hk in H2 as [b2 ->]; [|apply in_range_write].
    exists (b1 ++ b2). apply write_write.
Qed.

Lemma writes_forward_try_except (A : Type) (m : M A) (handler : exn -> exn) :
  writes_forward m -> writes_forward (try_except m handler).
Proof.
  intros Hm st r st' Hr H. unfold try_except in H.
  destruct (m st) as [[a0|e] st1] eqn:Hrun; injection H as _ <-; eapply Hm; eauto.
Qed.

Lemma writes_forward_encode_items (actions : list (M unit)) :
  Forall writes_forward actions -> writes_forward (ListEncoder.encode_items actions).
Proof.
  induction 1 as [|m actions Hm _ IH]; cbn [ListEncoder.encode_items].
  - apply writes_forward_ret.
  - apply writes_forward_bind; [exact Hm|]. intros _. exact IH.
Qed.

Lemma writes_forward_write_fields (fieldToTag : Bijection)
    (encodeFields : list (string * M unit)) :
  Forall (fun na => writes_forward (snd na)) encodeFields ->
  writes_forward (PacketFieldsEncoder.write_fields fieldToTag encodeFields).
Proof.
  induction 1 as [|[n m] encodeFields Hm _ IH]; cbn [PacketFieldsEncoder.write_fields].
  - apply writes_forward_ret.
  - apply writes_forward_bind; [|intros _; exact IH].
    apply writes_forward_try_except.
    apply writes_forward_bind; [apply writes_forward_lift|]. intros tag.
    apply writes_forward_bind; [apply writes_forward_pack|]. intros _. exact Hm.
Qed.

Lemma writes_forward_PacketFieldsEncoder (topEncoder : field -> M unit)
    (FIELDS : list (string * field)) :
  Forall (fun nf => writes_forward (topEncoder (snd nf))) FIELDS ->
  writes_forward (PacketFieldsEncoder.encode topEncoder FIELDS).
Proof.
  intros H. unfold PacketFieldsEncoder.encode.
  apply writes_forward_bind; [apply writes_forward_lift|]. intros fieldToTag.
  intros st r st' Hr Hrun. unfold bind at 1 in Hrun. unfold lift at 1 in Hrun.
  destruct (PacketFieldsEncoder.collect _) as [encodeFields|e] eqn:Hc.
  - assert (Hw : writes_forward
                   (bind (pack (pack_unsigned 2 (Z.of_nat (length encodeFields))))
                      (fun _ => PacketFieldsEncoder.write_fields fieldToTag encodeFields))).
    { apply writes_forward_bind; [apply writes_forward_pack|]. intros _.
      apply writes_forward_write_fields.
      apply (collect_Forall writes_forward _ _) in Hc; [exact Hc|].
      clear Hc. induction H as [|[n f] FIELDS Hf _ IH]; constructor; auto. }
    exact (Hw st r st' Hr Hrun).
  - injection Hrun as _ <-. exists []. now rewrite write_nil.
Qed.

Lemma writes_forward_encode (f : field) : writes_forward (encode f).
Proof.
  induction f as [a d|a d|a d|a d|a d|a d|a elem d IHelem IHitems|a set FIELDS IH]
    using field_induction; cbn [encode].
  1-4: unfold IntrinsicTypeStandardEncoder.encode;
       (apply writes_forward_bind;
        [apply writes_forward_lift|intros c; apply writes_forward_pack]).
  - unfold StringEncoder.encode. destruct d as [data|]; [|apply writes_forward_lift].
    destruct (_ >? _); [apply writes_forward_lift|].
    apply writes_forward_bind;
      [apply writes_forward_lift|intros c; apply writes_forward_pack].
  - unfold BufferEncoder.encode. destruct d as [data|]; [|apply writes_forward_lift].
    destruct (_ >? _); [apply writes_forward_lift|apply writes_forward_pack].
  - destruct d as [items|]; [|apply writes_forward_lift]. unfold ListEncoder.encode.
    apply writes_forward_bind; [apply writes_forward_pack|]. intros _.
    apply writes_forward_encode_items. apply Forall_fmap. exact IHitems.
  - destruct set; [|apply writes_forward_lift]. now apply writes_forward_PacketFieldsEncoder.
Qed.

Lemma write_shape (bs : list byte) (st : EncoderStreamAdapter) :
  in_range st ->
  stream_pos (write bs st) = (stream_pos st + length bs)%nat /\
  take (stream_pos st) (stream_bytes (write bs st)) = take (stream_pos st) (stream_bytes st) /\
  take (length bs) (drop (stream_pos st) (stream_bytes (write bs st))) = bs /\
  drop (stream_pos st + length bs) (stream_bytes (write bs st)) =
    drop (stream_pos st + length bs) (stream_bytes st) /\
  _max_size (write bs st) = _max_size st.
Proof.
  unfold in_range, write. destruct st as [old p m]. cbn [stream_bytes stream_pos _max_size].
  intros Hr. replace (p - length old)%nat with 0%nat by lia. cbn [replicate app].
  assert (Hp : p = length (take p old)) by (rewrite length_take; lia).
  split; [reflexivity|]. split; [|split; [|split; [|reflexivity]]].
  - now rewrite take_app_length' by exact Hp.
  - rewrite drop_app_length' by exact Hp. apply take_app_length.
  - rewrite (drop_app_add' (take p old) _ p) by exact Hp.
    now rewrite drop_app_length.
Qed.

(** Encoding a field, whether it returns or raises, changes the stream
    only from the position on: what it wrote stands at the position, the
    position is behind it, the bytes before and after are as they were, and
    the read cap is untouched. Nothing that was written before a failure is
    taken back. *)
Theorem encode_only_writes_forward (f : field) (st st' : EncoderStreamAdapter)
    (r : res unit) :
  in_range st ->
  encode f st = (r, st') ->
  exists bs,
    stream_pos st' = (stream_pos st + length bs)%nat /\
    take (stream_pos st) (stream_bytes st') = take (stream_pos st) (stream_bytes st) /\
    take (length bs) (drop (stream_pos st) (stream_bytes st')) = bs /\
    drop (stream_pos st + length bs) (stream_bytes st') =
      drop (stream_pos st + length bs) (stream_bytes st) /\
    _max_size st' = _max_size st.
Proof.
  intros Hr H. destruct (writes_forward_encode f st r st' Hr H) as [bs ->].
  exists bs. now apply write_shape.
Qed.

(** A GROUP whose second member is too large, written at position 1 of a
    stream of three bytes: the encoder raises after the count, the first
    member and the tag of the second. *)
Lemma encode_only_writes_forward_witness :
  fst (encode overflowing_group (mkAdapter [x01; x02; x03] 1 None)) =
    Raise (PacketEncodingError (ErrorEncodingField "b") (Some StructError)) /\
  exists bs,
    stream_pos (snd (encode overflowing_group (mkAdapter [x01; x02; x03] 1 None))) =
      (1 + length bs)%nat /\
    take 1 (stream_bytes (snd (encode overflowing_group (mkAdapter [x01; x02; x03] 1 None))))
      = [x01] /\
    take (length bs)
      (drop 1 (stream_bytes (snd (encode overflowing_group (mkAdapter [x01; x02; x03] 1 None)))))
      = bs /\
    drop (1 + length bs)
      (stream_bytes (snd (encode overflowing_group (mkAdapter [x01; x02; x03] 1 None)))) =
      drop (1 + length bs) [x01; x02; x03] /\
    _max_size (snd (encode overflowing_group (mkAdapter [x01; x02; x03] 1 None))) = None.
Proof.
  split; [vm_compute; reflexivity|].
  apply (encode_only_writes_forward overflowing_group (mkAdapter [x01; x02; x03] 1 None) _
           (fst (encode overflowing_group (mkAdapter [x01; x02; x03] 1 None)))).
  - unfold in_range. cbn. lia.
  - apply surjective_pairing.
Defined.

Lemma pack_Raise_inv (r : res (list byte)) (st st' : EncoderStreamAdapter) (e : exn) :
  pack r st = (Raise e, st') -> r = Raise e /\ st' = st.
Proof.
  unfold pack. destruct r as [bs|e0]; [discriminate|]. intros H. injection H as <- <-. auto.
Qed.

Lemma window_ok_blank_header (nb vb partial : list byte) (st : EncoderStreamAdapter) :
  in_range st ->
  window_ok (stream_bytes (write (blank_header nb vb ++ partial) st)) (stream_pos st) = false.
Proof.
  unfold in_range, write. destruct st as [old p m]. cbn [stream_bytes stream_pos _max_size].
  intros Hr. replace (p - length old)%nat with 0%nat by lia. cbn [replicate app].
  assert (Hp : p = length (take p old)) by (rewrite length_take; lia).
  unfold window_ok. rewrite <- (drop_drop _ 8 p).
  rewrite !(drop_app_length' (take p old)) by exact Hp.
  unfold blank_header. rewrite <- !app_assoc. reflexivity.
Qed.

(** When [PacketEncoder.encode] raises on a stream shorter than 2^64
    bytes, either nothing was written, or the stream holds, from the position
    on, the header of the frame with zeros for the length and its check,
    followed by what the body wrote before it failed. The length check of the
    decoder fails on such a header. *)
Theorem failed_frame_has_blank_header (Version : Type) (complexType : PacketField Version)
    (st st' : EncoderStreamAdapter) (e : exn) :
  in_range st ->
  PacketEncoder_encode complexType st = (Raise e, st') ->
  Z.of_nat (length (stream_bytes st')) < 2 ^ 64 ->
  st' = st \/
  exists nb vb partial,
    st' = write (blank_header nb vb ++ partial) st /\
    window_ok (stream_bytes st') (stream_pos st) = false.
Proof.
  intros Hr H Hsmall. unfold PacketEncoder_encode in H.
  apply bind_inv in H as [(e0 & H & _)|(start & s0 & Htell & H)]; [discriminate|].
  unfold tellM in Htell. injection Htell as <- <-.
  apply bind_inv in H as [(e0 & H & _)|(packet & s0 & Hp & H)].
  { unfold lift in H. injection H as _ <-. now left. }
  unfold lift in Hp. injection Hp as Hp <-.
  apply bind_inv in H as [(e0 & H & _)|(nb & s0 & Hn & H)].
  { unfold lift in H. injection H as _ <-. now left. }
  unfold lift in Hn. injection Hn as Hn <-.
  apply bind_inv in H as [(e0 & H & _)|(vb & s0 & Hv & H)].
  { unfold lift in H. injection H as _ <-. now left. }
  unfold lift in Hv. injection Hv as Hv <-.
  apply bind_inv in H as [(e0 & H & _)|([] & s1 & Hhead & H)].
  { apply pack_Raise_inv in H as [_ ->]. now left. }
  apply pack_Ok_inv in Hhead as (hb & Hhb & ->).
  rewrite !pack_s_exact in Hhb.
  apply concat_packed_Ok_inv in Hhb as (z1 & hb1 & Hz1 & Hhb & ->).
  apply concat_packed_Ok_inv in Hhb as (z2 & hb2 & Hz2 & Hhb & ->).
  apply concat_packed_Ok_inv in Hhb as (z3 & hb3 & Hz3 & Hhb & ->).
  apply concat_packed_Ok_inv in Hhb as (z4 & hb4 & Hz4 & Hhb & ->).
  apply concat_packed_Ok_inv in Hhb as (z5 & hb5 & Hz5 & Hz6 & ->).
  apply pack_unsigned_inv in Hz1 as [_ ->]. apply pack_unsigned_inv in Hz2 as [_ ->].
  apply pack_unsigned_inv in Hz3 as [_ ->]. apply pack_unsigned_inv in Hz5 as [_ ->].
  injection Hz4 as <-. injection Hz6 as <-.
  fold (blank_header nb vb) in H.
  apply bind_inv in H as [(e0 & H & _)|([] & s2 & Hbody & H)].
  { right. exists nb, vb.
    apply writes_forward_PacketFieldsEncoder in H as [partial ->].
    - exists partial. rewrite write_write. split; [reflexivity|].
      now apply window_ok_blank_header.
    - apply Forall_forall. intros nf _. apply writes_forward_encode.
    - apply in_range_write. }
  exfalso.
  apply writes_forward_PacketFieldsEncoder in Hbody as [bb ->];
    [|apply Forall_forall; intros nf _; apply writes_forward_encode|apply in_range_write].
  rewrite write_write in H.
  remember (blank_header nb vb ++ bb) as body0 eqn:Hbody0. clear Hbody0.
  apply bind_inv in H as [(e0 & H & _)|(packetEndPosition & s3 & Htell & H)]; [discriminate|].
  unfold tellM in Htell.
  assert (HendP : packetEndPosition = (stream_pos st + length body0)%nat)
    by (injection Htell as <- _; reflexivity).
  assert (Hs3 : s3 = write body0 st) by (injection Htell as _ <-; reflexivity).
  clear Htell. subst s3 packetEndPosition.
  apply bind_inv in H as [(e0 & H & _)|([] & s3 & Hseek & H)]; [discriminate|].
  unfold seekM in Hseek.
  assert (Hs3 : s3 = seek (stream_pos st) (write body0 st))
    by (injection Hseek as <-; reflexivity).
  clear Hseek. subst s3.
  change (tell st) with (stream_pos st) in H.
  replace (Z.of_nat (stream_pos st + length body0) - Z.of_nat (stream_pos st))
    with (Z.of_nat (length body0)) in H by lia.
  assert (Hlen0 : (length body0 <= length (stream_bytes (seek (stream_pos st)
                                                           (write body0 st))))%nat).
  { unfold seek, write. cbn [stream_bytes]. rewrite !length_app. lia. }
  apply bind_inv in H as [(e0 & H & _)|([] & s4 & Hlen1 & H)].
  { apply pack_Raise_inv in H as [Hfail ->].
    rewrite pack_unsigned_ok in Hfail; [discriminate|]. simpl. lia. }
  apply pack_Ok_inv in Hlen1 as (h1 & Hh1 & ->).
  apply pack_unsigned_inv in Hh1 as [Hr1 ->].
  apply bind_inv in H as [(e0 & H & _)|([] & s5 & Hlen2 & H)].
  { apply pack_Raise_inv in H as [Hfail _].
    rewrite pack_unsigned_ok in Hfail; [discriminate|].
    apply lxor_mask_range. simpl in Hr1. lia. }
  unfold seekM in H. discriminate.
Qed.

(** The packet "demo" with a member that does not fit its type. *)
Lemma failed_frame_has_blank_header_witness :
  fst (PacketEncoder_encode overflowing_sender empty_stream) =
    Raise (PacketEncodingError (ErrorEncodingField "b") (Some StructError)) /\
  (snd (PacketEncoder_encode overflowing_sender empty_stream) = empty_stream \/
   exists nb vb partial,
     snd (PacketEncoder_encode overflowing_sender empty_stream) =
       write (blank_header nb vb ++ partial) empty_stream /\
     window_ok (stream_bytes (snd (PacketEncoder_encode overflowing_sender empty_stream)))
               (stream_pos empty_stream) = false).
Proof.
  split; [vm_compute; reflexivity|].
  apply (failed_frame_has_blank_header unit overflowing_sender empty_stream _
           (PacketEncodingError (ErrorEncodingField "b") (Some StructError))).
  - unfold in_range. cbn. lia.
  - vm_compute. reflexivity.
  - vm_compute. reflexivity.
Defined.

(** ** The exceptions of the GROUP and LIST encoders *)

Lemma collect_inv (topEncoder : field -> M unit) (FIELDS : list (string * field)) :
  match PacketFieldsEncoder.collect
          (map (fun nf => (fst nf, snd nf, topEncoder (snd nf))) FIELDS) with
  | Ok encodeFields =>
      encodeFields = map (fun nf => (fst nf, topEncoder (snd nf))) (present FIELDS)
  | Raise e =>
      exists n f, (n, f) ∈ FIELDS /\ is_unset f = true /\
                  GetAttribute (Optional (attrs_of f)) false <> true /\
                  e = PacketEncodingError (FieldUnsetNotOptional n) None
  end.
Proof.
  induction FIELDS as [|[n f] FIELDS IH]; cbn [map fst snd PacketFieldsEncoder.collect];
    [reflexivity|].
  unfold present in *. destruct (is_unset f) eqn:Hf.
  - rewrite filter_cons_False by (cbn [snd]; congruence).
    destruct (bool_decide_reflect (GetAttribute (Optional (attrs_of f)) false = true))
      as [Hopt|Hopt].
    + destruct (PacketFieldsEncoder.collect _) as [efs|e]; [exact IH|].
      destruct IH as (n0 & f0 & Hin & H). exists n0, f0.
      split; [apply elem_of_cons; now right|exact H].
    + exists n, f. split; [apply elem_of_cons; now left|]. auto.
  - rewrite filter_cons_True by exact Hf.
    destruct (PacketFieldsEncoder.collect _) as [efs|e].
    + cbn [map fst snd]. now rewrite IH.
    + destruct IH as (n0 & f0 & Hin & H). exists n0, f0.
      split; [apply elem_of_cons; now right|exact H].
Qed.

Lemma write_fields_Raise_inv (fieldToTag : Bijection) (encodeFields : list (string * M unit))
    (st st' : EncoderStreamAdapter) (e : exn) :
  PacketFieldsEncoder.write_fields fieldToTag encodeFields st = (Raise e, st') ->
  exists n m cause,
    (n, m) ∈ encodeFields /\ e = PacketEncodingError (ErrorEncodingField n) (Some cause).
Proof.
  revert st. induction encodeFields as [|[n m] rest IH]; intros st;
    cbn [PacketFieldsEncoder.write_fields].
  - discriminate.
  - intros H. apply bind_Raise_inv in H as [H|([] & st1 & _ & H)].
    + unfold try_except in H.
      destruct (bind _ _ st) as [[u|cause] s1]; [discriminate|].
      injection H as H _. exists n, m, cause.
      split; [apply elem_of_cons; now left|symmetry; exact H].
    + destruct (IH _ H) as (n0 & m0 & cause & Hin & ->). exists n0, m0, cause.
      split; [apply elem_of_cons; now right|reflexivity].
Qed.

(** The exceptions of [PacketFieldsEncoder.encode]. Before anything is
    written it raises for a duplicate name or explicit tag, for a member that
    is UNSET and not [Optional], and for more than 65535 members to write;
    once the count is written, whatever goes wrong with a member, its tag
    included, leaves the encoder as the [PacketEncodingError] that names the
    member and keeps the original exception as its cause. *)
Theorem group_encode_errors (a : attributes) (FIELDS : list (string * field))
    (st st' : EncoderStreamAdapter) (e : exn) :
  encode (GROUP a true FIELDS) st = (Raise e, st') ->
  (st' = st /\
   (e = Exception DuplicateField \/ e = Exception DuplicateExplicitTag \/
    (exists n f, (n, f) ∈ FIELDS /\ is_unset f = true /\
                 GetAttribute (Optional (attrs_of f)) false <> true /\
                 e = PacketEncodingError (FieldUnsetNotOptional n) None) \/
    (e = StructError /\ 65535 < Z.of_nat (length (present FIELDS))))) \/
  (exists n f cause,
     (n, f) ∈ FIELDS /\ is_unset f = false /\
     e = PacketEncodingError (ErrorEncodingField n) (Some cause)).
Proof.
  cbn [encode]. unfold PacketFieldsEncoder.encode. intros H.
  apply bind_Raise_inv in H as [H|(fieldToTag & s0 & Hp & H)].
  { unfold lift in H. injection H as He <-. left. split; [reflexivity|].
    pose proof (_processFields_spec FIELDS) as Hspec. rewrite He in Hspec.
    destruct Hspec as [_ [->| ->]]; auto. }
  unfold lift in Hp. injection Hp as Hp <-.
  pose proof (collect_inv encode FIELDS) as Hc.
  apply bind_Raise_inv in H as [H|(encodeFields & s0 & Hcol & H)].
  { unfold lift in H. injection H as He <-. rewrite He in Hc. left. split; [reflexivity|].
    right. right. left. exact Hc. }
  unfold lift in Hcol. injection Hcol as Hcol <-. rewrite Hcol in Hc. subst encodeFields.
  rewrite length_map in H.
  apply bind_Raise_inv in H as [H|([] & s1 & _ & H)].
  { apply pack_Raise_inv in H as [Hfail ->]. left. split; [reflexivity|].
    right. right. right.
    destruct (Z_le_gt_dec (Z.of_nat (length (present FIELDS))) 65535) as [Hle|Hgt].
    - rewrite pack_unsigned_ok in Hfail by (simpl; lia). discriminate.
    - unfold pack_unsigned in Hfail.
      destruct (_ && _); [discriminate|]. injection Hfail as <-. split; [reflexivity|lia]. }
  right. apply write_fields_Raise_inv in H as (n & m & cause & Hin & ->).
  apply list_elem_of_fmap in Hin as ([n0 f] & Heq & Hin). cbn [fst snd] in Heq.
  injection Heq as -> _. unfold present in Hin. apply list_elem_of_filter in Hin as [Hset Hin].
  exists n0, f, cause. auto.
Qed.

(** The member "b" of [overflowing_group] does not fit its four bytes. *)
Lemma group_encode_errors_witness :
  exists n f cause,
    (n, f) ∈ [("a"%string, UINT no_attributes (Some 5));
              ("b"%string, UINT no_attributes (Some (2 ^ 40)))] /\
    is_unset f = false /\
    PacketEncodingError (ErrorEncodingField "b") (Some StructError) =
      PacketEncodingError (ErrorEncodingField n) (Some cause).
Proof.
  destruct (group_encode_errors no_attributes
              [("a"%string, UINT no_attributes (Some 5));
               ("b"%string, UINT no_attributes (Some (2 ^ 40)))]
              empty_stream
              (snd (encode overflowing_group empty_stream))
              (PacketEncodingError (ErrorEncodingField "b") (Some StructError)))
    as [[_ [H|[H|[(n & f & _ & _ & _ & H)|[H _]]]]]|H].
  - vm_compute. reflexivity.
  - discriminate H.
  - discriminate H.
  - discriminate H.
  - discriminate H.
  - exact H.
Defined.

Lemma encode_items_Raise_inv (items : list field) (st st' : EncoderStreamAdapter) (e : exn) :
  ListEncoder.encode_items (map encode items) st = (Raise e, st') ->
  exists i x s, items !! i = Some x /\ encode x s = (Raise e, st').
Proof.
  revert st. induction items as [|x items IH]; intros st;
    cbn [map ListEncoder.encode_items]; [discriminate|].
  intros H. apply bind_Raise_inv in H as [H|([] & st1 & _ & H)].
  - exists 0%nat, x, st. auto.
  - destruct (IH _ H) as (i & y & s & Hi & Hy). exists (S i), y, s. auto.
Qed.

(** The exceptions of [ListEncoder.encode]: [struct.error] for a list of
    more than 65535 items, before anything is written; otherwise the
    exception that encoding one of the items raised, as it is: unlike the
    GROUP encoder, the LIST encoder does not wrap it. *)
Theorem list_encode_errors (a : attributes) (elem : field) (items : list field)
    (st st' : EncoderStreamAdapter) (e : exn) :
  encode (LIST a elem (Some items)) st = (Raise e, st') ->
  (e = StructError /\ 65535 < Z.of_nat (length items) /\ st' = st) \/
  (exists i x s, items !! i = Some x /\ encode x s = (Raise e, st')).
Proof.
  cbn [encode]. unfold ListEncoder.encode. intros H.
  apply bind_Raise_inv in H as [H|([] & st1 & _ & H)].
  - left. apply pack_Raise_inv in H as [Hfail ->].
    destruct (Z_le_gt_dec (Z.of_nat (length items)) 65535) as [Hle|Hgt].
    + rewrite pack_unsigned_ok in Hfail by (simpl; lia). discriminate.
    + unfold pack_unsigned in Hfail. destruct (_ && _); [discriminate|].
      injection Hfail as <-. auto with zarith.
  - right. now apply encode_items_Raise_inv in H.
Qed.

(** A list whose second item does not fit its four bytes. *)
Lemma list_encode_errors_witness :
  (StructError = StructError /\ 65535 < 2 /\
   snd (encode (LIST no_attributes (UINT no_attributes None)
                  (Some [UINT no_attributes (Some 5); UINT no_attributes (Some (2 ^ 40))]))
          empty_stream) = empty_stream) \/
  (exists i x s,
     [UINT no_attributes (Some 5); UINT no_attributes (Some (2 ^ 40))] !! i = Some x /\
     encode x s =
       (Raise StructError,
        snd (encode (LIST no_attributes (UINT no_attributes None)
                       (Some [UINT no_attributes (Some 5);
                              UINT no_attributes (Some (2 ^ 40))]))
               empty_stream))).
Proof.
  apply (list_encode_errors no_attributes (UINT no_attributes None)
           [UINT no_attributes (Some 5); UINT no_attributes (Some (2 ^ 40))] empty_stream).
  vm_compute. reflexivity.
Defined.

(** ** The exceptions of the GROUP and LIST decoders *)

Lemma bind_outcome_Raised_inv (A B : Type) (o : outcome A) (f : A -> Gen B) (e : exn)
    (st' : EncoderStreamAdapter) :
  bind_outcome o f = Raised e st' ->
  o = Raised e st' \/ exists a s, o = Done a s /\ run (f a) s = Raised e st'.
Proof.
  destruct o as [a s|e0 s|g s|]; cbn [bind_outcome]; try discriminate.
  - right. eauto.
  - intros H. injection H as <- <-. now left.
Qed.

Lemma try_outcome_Raised_inv (A : Type) (o : outcome A) (handler : exn -> exn) (e : exn)
    (st' : EncoderStreamAdapter) :
  try_outcome o handler = Raised e st' -> exists e0, o = Raised e0 st' /\ e = handler e0.
Proof.
  destruct o as [a s|e0 s|g s|]; cbn [try_outcome]; try discriminate.
  intros H. injection H as <- <-. eauto.
Qed.

Lemma run_unpack_int_inv (c : packCode) (st : EncoderStreamAdapter) :
  match run (unpack_int c) st with
  | Done v s =>
      s = advance (calcsize c) st /\
      v = struct_unpack_int c (take (calcsize c) (remaining st)) /\
      (calcsize c <= available st)%nat
  | Raised e s =>
      s = st /\
      e = Exception (UnpackSizeExceedsLimit (Z.of_nat (calcsize c))
                       (GetAttribute (_max_size st) 0))
  | Waiting g s => s = st
  | Diverged => False
  end.
Proof.
  unfold unpack_int, unpackIterator. cbn [bindG run].
  destruct (exceeds_max_size st (calcsize c)); [auto|].
  destruct (Nat.ltb_spec (available st) (calcsize c)); [reflexivity|].
  rewrite read_enough by assumption. cbn [run]. auto.
Qed.

Lemma unpack_unsigned_take_range (n : nat) (bs : list byte) :
  (n <= length bs)%nat -> 0 <= unpack_unsigned (take n bs) < 256 ^ Z.of_nat n.
Proof.
  intros H. unfold unpack_unsigned. pose proof (be_value_range (take n bs)) as Hr.
  rewrite length_take, Nat.min_l in Hr by lia. exact Hr.
Qed.

Lemma decode_items_Raised_inv (item : Gen field) (e : exn) (st' : EncoderStreamAdapter) :
  forall count i acc st,
    run (ListDecoder.decode_items item count i acc) st = Raised e st' ->
    exists j cause s,
      (i <= j < i + count)%nat /\
      run item s = Raised cause st' /\
      e = PacketEncodingError (ErrorDecodingIndex j) None.
Proof.
  induction count as [|count IH]; intros i acc st; cbn [ListDecoder.decode_items];
    [discriminate|].
  rewrite run_bindG. intros H.
  apply bind_outcome_Raised_inv in H as [H|(x & s & _ & H)].
  - rewrite run_try_exceptG in H.
    apply try_outcome_Raised_inv in H as (cause & H & ->).
    exists i, cause, st. split; [lia|]. auto.
  - destruct (IH _ _ _ H) as (j & cause & s0 & Hj & Hrun & ->).
    exists j, cause, s0. split; [lia|]. auto.
Qed.

(** The exceptions of [ListEncoder.decodeIterator]: the size-limit
    exception of its own read of the count, and otherwise, whatever the
    decoder of an item raised, the [PacketEncodingError] that gives the index
    of that item, an index below the count and so below 65536. The exception
    of the item is not kept as the cause. *)
Theorem list_decode_errors (a : attributes) (elem : field) (d : option (list field))
    (st st' : EncoderStreamAdapter) (e : exn) :
  run (decodeIterator (LIST a elem d)) st = Raised e st' ->
  (st' = st /\
   e = Exception (UnpackSizeExceedsLimit 2 (GetAttribute (_max_size st) 0))) \/
  (exists j cause s,
     Z.of_nat j < 65536 /\
     run (decodeIterator elem) s = Raised cause st' /\
     e = PacketEncodingError (ErrorDecodingIndex j) None).
Proof.
  cbn [decodeIterator]. unfold ListDecoder.decodeIterator. rewrite run_bindG. intros H.
  pose proof (run_unpack_int_inv code_H st) as Hcount.
  apply bind_outcome_Raised_inv in H as [H|(listSize & s & Hrun & H)].
  - rewrite H in Hcount. destruct Hcount as [-> ->]. now left.
  - rewrite Hrun in Hcount. destruct Hcount as (_ & -> & Hav).
    rewrite run_bindG in H.
    apply bind_outcome_Raised_inv in H as [H|(items & s1 & _ & H)]; [|discriminate].
    apply decode_items_Raised_inv in H as (j & cause & s0 & Hj & Hitem & ->).
    right. exists j, cause, s0. split; [|auto].
    cbn [struct_unpack_int calcsize] in Hj.
    pose proof (unpack_unsigned_take_range 2 (remaining st)) as Hr.
    rewrite <- available_remaining in Hr. specialize (Hr Hav).
    change (256 ^ Z.of_nat 2) with 65536 in Hr. lia.
Qed.

(** Two STRING items, the second of which is the byte FF. *)
Lemma list_decode_errors_witness :
  (mkAdapter bad_list_wire 8 None = stream_of bad_list_wire /\
   PacketEncodingError (ErrorDecodingIndex 1) None =
     Exception (UnpackSizeExceedsLimit 2 0)) \/
  (exists j cause s,
     Z.of_nat j < 65536 /\
     run (decodeIterator (STRING no_attributes None)) s =
       Raised cause (mkAdapter bad_list_wire 8 None) /\
     PacketEncodingError (ErrorDecodingIndex 1) None =
       PacketEncodingError (ErrorDecodingIndex j) None).
Proof.
  apply (list_decode_errors no_attributes (STRING no_attributes None) None
           (stream_of bad_list_wire)).
  vm_compute. reflexivity.
Defined.

Lemma get_raw_map_inv (V : Type) (D : field -> V) (FIELDS : list (string * field))
    (n : string) :
  match get_raw n (map (fun nf => (fst nf, D (snd nf))) FIELDS) with
  | Ok v => exists f, (n, f) ∈ FIELDS /\ v = D f
  | Raise _ => n ∉ map fst FIELDS
  end.
Proof.
  induction FIELDS as [|[n0 f0] FIELDS IH]; cbn [map fst snd get_raw].
  - apply not_elem_of_nil.
  - destruct (String.eqb_spec n0 n) as [->|Hne].
    + exists f0. split; [apply elem_of_cons; now left|reflexivity].
    + destruct (get_raw n _) as [v|e].
      * destruct IH as (f & Hin & ->). exists f. split; [apply elem_of_cons; now right|auto].
      * intros Hin. apply elem_of_cons in Hin as [Heq|Hin]; [congruence|contradiction].
Qed.

Lemma decode_fields_Raised_inv (FIELDS : list (string * field)) (fieldToTag : Bijection)
    (topDecoder : field -> Gen field) (e : exn) (st' : EncoderStreamAdapter) :
  (forall t n, inverse fieldToTag !! t = Some n -> n ∈ map fst FIELDS) ->
  forall count raw st,
    run (PacketFieldsDecoder.decode_fields fieldToTag
           (map (fun nf => (fst nf, topDecoder (snd nf))) FIELDS) count raw) st
      = Raised e st' ->
    (exists limit, e = Exception (UnpackSizeExceedsLimit 2 limit)) \/
    (exists tag, 0 <= tag < 65536 /\ inverse fieldToTag !! tag = None /\ e = KeyError tag) \/
    (exists n f cause s,
       (n, f) ∈ FIELDS /\ run (topDecoder f) s = Raised cause st' /\
       e = PacketEncodingError (ErrorDecodingField n) (Some cause)).
Proof.
  intros Hnames. induction count as [|count IH]; intros raw st;
    cbn [PacketFieldsDecoder.decode_fields]; [discriminate|].
  rewrite run_bindG. intros H.
  pose proof (run_unpack_int_inv code_H st) as Htag.
  apply bind_outcome_Raised_inv in H as [H|(fieldID & s & Hrun & H)].
  { rewrite H in Htag. destruct Htag as [_ ->]. left. eauto. }
  rewrite Hrun in Htag. destruct Htag as (_ & -> & Hav).
  cbn [struct_unpack_int calcsize] in H.
  pose proof (unpack_unsigned_take_range 2 (remaining st)) as Hr.
  rewrite <- available_remaining in Hr. specialize (Hr Hav).
  change (256 ^ Z.of_nat 2) with 65536 in Hr.
  set (tag := unpack_unsigned (take 2 (remaining st))) in *.
  unfold Bijection_inverse_get in H.
  destruct (inverse fieldToTag !! tag) as [fieldName|] eqn:Hinv.
  - cbn [liftG bindG] in H.
    pose proof (get_raw_map_inv _ topDecoder FIELDS fieldName) as Hget.
    destruct (get_raw fieldName _) as [decoder|e0].
    + destruct Hget as (f & Hin & ->). cbn [liftG bindG] in H.
      rewrite run_bindG in H.
      apply bind_outcome_Raised_inv in H as [H|(rawField & s1 & _ & H)].
      * rewrite run_try_exceptG in H.
        apply try_outcome_Raised_inv in H as (cause & H & ->).
        right. right. exists fieldName, f, cause, s. auto.
      * exact (IH _ _ H).
    + exfalso. apply Hget. eapply Hnames. exact Hinv.
  - cbn [liftG bindG run] in H. injection H as <- _.
    right. left. exists tag. auto.
Qed.

(** The exceptions of [PacketFieldsEncoder.decodeIterator]: those of the
    tag assignment; the size-limit exception of its own reads of the count
    and of a tag; [KeyError] for a tag on the wire that no field has; and
    otherwise, for whatever the decoder of a member raised, the
    [PacketEncodingError] that names the member and keeps that exception as
    its cause. Nothing checks that the members that are not [Optional] were
    on the wire. *)
Theorem group_decode_errors (a : attributes) (set : bool) (FIELDS : list (string * field))
    (st st' : EncoderStreamAdapter) (e : exn) :
  run (decodeIterator (GROUP a set FIELDS)) st = Raised e st' ->
  e = Exception DuplicateField \/ e = Exception DuplicateExplicitTag \/
  (exists limit, e = Exception (UnpackSizeExceedsLimit 2 limit)) \/
  (exists tag fieldToTag,
     0 <= tag < 65536 /\ PacketFieldsEncoder._processFields FIELDS = Ok fieldToTag /\
     inverse fieldToTag !! tag = None /\ e = KeyError tag) \/
  (exists n f cause s,
     (n, f) ∈ FIELDS /\ run (decodeIterator f) s = Raised cause st' /\
     e = PacketEncodingError (ErrorDecodingField n) (Some cause)).
Proof.
  cbn [decodeIterator]. rewrite run_bindG. intros H.
  apply bind_outcome_Raised_inv in H as [H|(raw & s & _ & H)]; [|discriminate].
  unfold PacketFieldsDecoder.decodeIterator in H.
  pose proof (_processFields_spec FIELDS) as Hspec.
  destruct (PacketFieldsEncoder._processFields FIELDS) as [fieldToTag|e0] eqn:Hp.
  - cbn [liftG bindG] in H. rewrite run_bindG in H.
    pose proof (run_unpack_int_inv code_H st) as Hcount.
    apply bind_outcome_Raised_inv in H as [H|(fieldCount & s & Hrun & H)].
    { rewrite H in Hcount. destruct Hcount as [_ ->]. right. right. left. eauto. }
    destruct Hspec as (out & _ & [_ Hinv] & Hnames & _).
    apply decode_fields_Raised_inv in H as [H|[(tag & Ht & Hnone & ->)|H]].
    + right. right. left. exact H.
    + right. right. right. left. exists tag, fieldToTag. auto.
    + right. right. right. right. exact H.
    + intros t n Htn. apply Hinv in Htn. rewrite <- Hnames.
      apply list_elem_of_fmap. exists (n, t). auto.
  - cbn [liftG bindG run] in H. injection H as <- _.
    destruct Hspec as [_ [->| ->]]; auto.
Qed.

(** A GROUP with the one member "s", a STRING, sent the byte FF as its
    text. *)
Lemma group_decode_errors_witness :
  exists n f cause s,
    (n, f) ∈ [("s"%string, STRING no_attributes None)] /\
    run (decodeIterator f) s = Raised cause (mkAdapter bad_group_wire 7 None) /\
    PacketEncodingError (ErrorDecodingField "s") (Some UnicodeDecodeError) =
      PacketEncodingError (ErrorDecodingField n) (Some cause).
Proof.
  destruct (group_decode_errors no_attributes false
              [("s"%string, STRING no_attributes None)]
              (stream_of bad_group_wire) (mkAdapter bad_group_wire 7 None)
              (PacketEncodingError (ErrorDecodingField "s") (Some UnicodeDecodeError)))
    as [H|[H|[[limit H]|[(tag & b & _ & _ & _ & H)|H]]]].
  - vm_compute. reflexivity.
  - discriminate H.
  - discriminate H.
  - discriminate H.
  - discriminate H.
  - exact H.
Defined.

(** ** Scalars on the wire *)

Lemma pack_unpack_unsigned (chunk : list byte) :
  pack_unsigned (length chunk) (unpack_unsigned chunk) = Ok chunk.
Proof.
  unfold unpack_unsigned. rewrite pack_unsigned_ok by apply be_value_range.
  now rewrite be_bytes_value.
Qed.

Lemma unpack_signed_range (chunk : list byte) :
  (0 < length chunk)%nat ->
  - (256 ^ Z.of_nat (length chunk) / 2) <= unpack_signed chunk
    < 256 ^ Z.of_nat (length chunk) / 2 /\
  unpack_signed chunk mod 256 ^ Z.of_nat (length chunk) = be_value chunk.
Proof.
  intros Hpos. unfold unpack_signed. pose proof (be_value_range chunk) as Hr.
  pose proof (pow256_even _ Hpos) as Heven.
  set (full := 256 ^ Z.of_nat (length chunk)) in *. set (u := be_value chunk) in *.
  destruct (Z.ltb_spec u (full / 2)).
  - split; [lia|]. apply Z.mod_small. lia.
  - split; [lia|]. symmetry. apply (Z.mod_unique _ _ (-1)); lia.
Qed.

Lemma pack_unpack_signed (chunk : list byte) :
  (0 < length chunk)%nat ->
  pack_signed (length chunk) (unpack_signed chunk) = Ok chunk.
Proof.
  intros Hpos. destruct (unpack_signed_range chunk Hpos) as [Hr Hmod].
  rewrite pack_signed_ok by exact Hr. rewrite Hmod. now rewrite be_bytes_value.
Qed.

(** Every byte string of the width that the declared [MaxValue] selects is
    the encoding of exactly the UINT or INT value that it decodes to: on
    integers, decoding never fails and encoding what was decoded gives the
    same bytes back. *)
Theorem int_wire_is_canonical (signed : bool) (a : attributes) (chunk : list byte) :
  declared_MaxValue a < 2 ^ 64 ->
  length chunk = smallest_width (declared_MaxValue a) ->
  exists v,
    representable signed (smallest_width (declared_MaxValue a)) v /\
    decode (int_field signed a None) (stream_of chunk) =
      Done (int_field signed a (Some v)) (mkAdapter chunk (length chunk) None) /\
    encoded (int_field signed a (Some v)) = Ok chunk.
Proof.
  intros Hlt Hlen.
  destruct (_getPackCode_width signed a Hlt) as (c & Hc & Hw & _).
  fold (int_table signed) in Hc.
  pose proof (smallest_width_spec _ Hlt) as (Hin & _).
  assert (Hpos : (0 < length chunk)%nat).
  { rewrite Hlen. destruct Hin as [Hi|[Hi|[Hi|[Hi|[]]]]]; rewrite <- Hi; lia. }
  exists (struct_unpack_int c chunk).
  destruct (struct_pack_int_width signed a c (struct_unpack_int c chunk) Hlt Hc)
    as (_ & Hp & Hu).
  split; [|split].
  - rewrite Hu, <- Hlen. unfold representable. destruct signed.
    + apply unpack_signed_range. exact Hpos.
    + apply be_value_range.
  - unfold decode. rewrite decodeIterator_int_field, Hc.
    rewrite (run_intrinsic Z c struct_unpack_int
               (fun data => int_field signed a (Some data)) (stream_of chunk) chunk []);
      [reflexivity | now apply exceeds_max_size_None | apply holds_stream_of | congruence].
  - rewrite encoded_int_field, Hc, Hp, Hu, Hw, <- Hlen. destruct signed.
    + now apply pack_unpack_signed.
    + apply pack_unpack_unsigned.
Qed.

(** The two bytes FF 85 as an INT with [MaxValue] 1000: the value -123. *)
Lemma int_wire_is_canonical_witness :
  exists v,
    representable true 2 v /\
    decode (INT (mkAttrs (Some 1000) None None None) None) (stream_of [xff; x85]) =
      Done (INT (mkAttrs (Some 1000) None None None) (Some v)) (mkAdapter [xff; x85] 2 None) /\
    encoded (INT (mkAttrs (Some 1000) None None None) (Some v)) = Ok [xff; x85].
Proof.
  apply (int_wire_is_canonical true (mkAttrs (Some 1000) None None None) [xff; x85]).
  - vm_compute. reflexivity.
  - reflexivity.
Defined.

(** A BOOL is one byte. Every byte decodes: to [False] when it is zero and
    to [True] otherwise; and [True] is written as 01, so that encoding what
    was decoded gives the byte back only for 00 and 01. *)
Theorem bool_byte (a : attributes) (d : option bool) (b : byte) (st : EncoderStreamAdapter)
    (tail : list byte) :
  holds st [b] tail ->
  exceeds_max_size st 1 = false ->
  run (decodeIterator (BOOL a d)) st =
    Done (BOOL a (Some (negb (Z_of_byte b =? 0)))) (advance 1 st) /\
  encoded (BOOL a (Some (negb (Z_of_byte b =? 0)))) =
    Ok [if Z_of_byte b =? 0 then x00 else x01].
Proof.
  intros Hh Hm. split.
  - cbn [decodeIterator].
    rewrite (run_intrinsic bool code_bool (fun _ => struct_unpack_bool)
               (fun data => BOOL a (Some data)) st [b] tail Hm Hh eq_refl).
    unfold struct_unpack_bool, be_value. cbn [rev app le_value length].
    now rewrite Z.mul_0_r, Z.add_0_r.
  - destruct (Z_of_byte b =? 0); reflexivity.
Qed.

(** The byte 02 is read as [True], which is written as 01. *)
Lemma bool_byte_witness :
  run (decodeIterator (BOOL no_attributes None)) (stream_of [x02]) =
    Done (BOOL no_attributes (Some true)) (mkAdapter [x02] 1 None) /\
  encoded (BOOL no_attributes (Some true)) = Ok [x01].
Proof.
  apply (bool_byte no_attributes None x02 (stream_of [x02]) []); reflexivity.
Defined.

(** A FLOAT whose [Bits] attribute is neither 32 nor 64 can be neither
    encoded nor decoded: looking up the pack code raises [KeyError] with the
    attribute as its key, not a [PacketEncodingError], before anything is
    written and before the stream is looked at, so that the decoder does not
    wait for bytes either. *)
Theorem float_bits_KeyError (a : attributes) (d : option float) (bits : Z) :
  Bits a = Some bits -> bits <> 32 -> bits <> 64 ->
  (forall st, encode (FLOAT a d) st = (Raise (KeyError bits), st)) /\
  (forall st, run (decodeIterator (FLOAT a d)) st = Raised (KeyError bits) st).
Proof.
  intros Hbits H32 H64.
  assert (Hcode : FloatEncoder._getPackCode a = Raise (KeyError bits)).
  { unfold FloatEncoder._getPackCode, FloatEncoder.SIZE_TO_PACKCODE. rewrite Hbits.
    cbn [GetAttribute FloatEncoder.SIZE_TO_PACKCODE_MAP].
    destruct (Z.eqb_spec bits 32); [contradiction|].
    destruct (Z.eqb_spec bits 64); [contradiction|]. reflexivity. }
  split; intros st.
  - cbn [encode]. unfold IntrinsicTypeStandardEncoder.encode, bind, lift.
    now rewrite Hcode.
  - cbn [decodeIterator]. unfold IntrinsicTypeStandardDecoder.decodeIterator.
    now rewrite Hcode.
Qed.

(** A FLOAT declared with 16 bits, on an empty stream. *)
Lemma float_bits_KeyError_witness :
  encode (FLOAT (mkAttrs None (Some 16) None None) (Some 0x1p+0%float)) empty_stream =
    (Raise (KeyError 16), empty_stream) /\
  run (decodeIterator (FLOAT (mkAttrs None (Some 16) None None) None)) empty_stream =
    Raised (KeyError 16) empty_stream.
Proof.
  destruct (float_bits_KeyError (mkAttrs None (Some 16) None None) (Some 0x1p+0%float) 16)
    as [Henc _]; [reflexivity|lia|lia|].
  destruct (float_bits_KeyError (mkAttrs None (Some 16) None None) None 16)
    as [_ Hdec]; [reflexivity|lia|lia|].
  split; [apply Henc|apply Hdec].
Defined.

(** [StringEncoder.decodeIterator] reads the length and the bytes of the
    text before it decodes them: when the bytes are not UTF-8, the exception
    of the codec leaves the decoder as it is, not as a
    [PacketEncodingError], and the stream position is behind the text. *)
Theorem string_decode_reads_before_decoding (a : attributes) (d : option str)
    (data : list byte) (e : exn) (st : EncoderStreamAdapter) (tail : list byte) :
  Z.of_nat (length data) < 65536 ->
  utf8_decode data = Raise e ->
  holds st (be_bytes 2 (Z.of_nat (length data)) ++ data) tail ->
  fits st (2 + length data) ->
  run (decodeIterator (STRING a d)) st = Raised e (advance (2 + length data) st).
Proof.
  intros Hlen Hbad Hh Hfit. cbn [decodeIterator]. unfold StringDecoder.decodeIterator.
  apply holds_app in Hh as [H1 H2]. rewrite be_bytes_length in H2.
  assert (Hm : exceeds_max_size st 2 = false)
    by (apply (fits_exceeds _ (2 + length data)); [exact Hfit|lia]).
  rewrite run_bindG.
  rewrite (run_unpack_int code_H st _ _ Hm H1) by apply be_bytes_length.
  cbn [bind_outcome struct_unpack_int]. unfold unpack_unsigned.
  rewrite be_value_bytes, be_bytes_length, Z.mod_small by (simpl; lia).
  rewrite Nat2Z.id, run_bindG. unfold unpackIterator.
  rewrite run_Unpack;
    [|apply (fits_exceeds _ (2 + length data)); [exact Hfit|lia]
     |eapply holds_available; exact H2].
  rewrite (holds_take _ _ _ H2). cbn [run bind_outcome]. rewrite Hbad.
  cbn [liftG bindG run]. now rewrite advance_advance.
Qed.

(** A STRING of one byte, FF. *)
Lemma string_decode_reads_before_decoding_witness :
  run (decodeIterator (STRING no_attributes None)) (stream_of [x00; x01; xff; x2a]) =
  Raised UnicodeDecodeError (mkAdapter [x00; x01; xff; x2a] 3 None).
Proof.
  apply (string_decode_reads_before_decoding no_attributes None [xff] UnicodeDecodeError
           (stream_of [x00; x01; xff; x2a]) [x2a]).
  - cbn. lia.
  - reflexivity.
  - reflexivity.
  - exact I.
Defined.

(** The length check of [StringEncoder.encode] lets a text of exactly 2^16
    code points through: it is [struct.pack] that refuses the length, with
    [struct.error] and not a [PacketEncodingError], and nothing is written. *)
Theorem string_of_65536_is_a_struct_error (a : attributes) (data : str) (bs : list byte)
    (st : EncoderStreamAdapter) :
  Z.of_nat (length data) = 65536 ->
  utf8_encode data = Ok bs ->
  encode (STRING a (Some data)) st = (Raise StructError, st).
Proof.
  intros Hlen Henc. cbn [encode]. unfold StringEncoder.encode, StringEncoder.MAX_LENGTH.
  rewrite Hlen. cbn [Z.gtb Z.compare Z.pow Z.mul StringEncoder.STRING_LENGTH_BYTES].
  change (65536 >? 2 ^ (8 * 2)) with false. cbn match.
  unfold bind, lift. rewrite Henc.
  rewrite pack_unsigned_fail by (simpl; lia). reflexivity.
Qed.

(** The letter a, 65536 times. *)
Lemma string_of_65536_is_a_struct_error_witness :
  encode (STRING no_attributes (Some (replicate (Z.to_nat 65536) 97))) empty_stream =
  (Raise StructError, empty_stream).
Proof.
  apply (string_of_65536_is_a_struct_error no_attributes (replicate (Z.to_nat 65536) 97)
           (map byte_of_Z (replicate (Z.to_nat 65536) 97))).
  - rewrite length_replicate. apply Z2Nat.id. lia.
  - apply utf8_encode_ascii. apply Forall_replicate. lia.
Defined.

(** ** Tags *)

Lemma below_length (l : list Z) (tag : Z) :
  (forall t, 0 <= t < tag -> t ∈ l) -> tag <= Z.of_nat (length l).
Proof.
  intros H. destruct (Z.le_gt_cases tag 0) as [Hle|Hpos]; [lia|].
  assert (Hsub : seqZ 0 tag ⊆+ l).
  { apply NoDup_submseteq; [apply NoDup_seqZ|].
    intros t Ht. apply elem_of_seqZ in Ht. apply H. lia. }
  apply submseteq_length in Hsub. rewrite length_seqZ in Hsub. lia.
Qed.

Lemma assigns_tags acc fields out :
  assigns acc fields out ->
  forall j n f,
    fields !! j = Some (n, f) ->
    exists t,
      out !! (length acc + j)%nat = Some (n, t) /\
      match ExplicitTag (attrs_of f) with
      | Some tag => t = tag
      | None => 0 <= t <= Z.of_nat (length acc + j)
      end.
Proof.
  induction 1 as [acc|acc n0 f0 tag rest out Hn Htag Ht Hass IH
                     |acc n0 f0 tag rest out Hn Htag Hpos Ht Hbelow Hass IH];
    intros j n f Hj.
  - destruct j; discriminate.
  - destruct (assigns_extends _ _ _ Hass) as (ext & -> & _).
    destruct j as [|j].
    + cbn in Hj. injection Hj as <- <-. exists tag. rewrite Htag. split; [|reflexivity].
      rewrite Nat.add_0_r, <- app_assoc. cbn [app]. now apply list_lookup_middle.
    + cbn in Hj. destruct (IH j n f Hj) as (t & Hout & Hm). exists t.
      rewrite length_app in Hout, Hm. cbn [length] in Hout, Hm.
      replace (length acc + S j)%nat with (length acc + 1 + j)%nat by lia. auto.
  - destruct (assigns_extends _ _ _ Hass) as (ext & -> & _).
    destruct j as [|j].
    + cbn in Hj. injection Hj as <- <-. exists tag. rewrite Htag. split.
      * rewrite Nat.add_0_r, <- app_assoc. cbn [app]. now apply list_lookup_middle.
      * apply below_length in Hbelow. rewrite length_map in Hbelow. lia.
    + cbn in Hj. destruct (IH j n f Hj) as (t & Hout & Hm). exists t.
      rewrite length_app in Hout, Hm. cbn [length] in Hout, Hm.
      replace (length acc + S j)%nat with (length acc + 1 + j)%nat by lia. auto.
Qed.

(** What [_processFields] returns is a bijection between the declared
    names and their tags: forward and inverse lookups agree; exactly the
    declared names have a tag; a field with [ExplicitTag] has that tag; and
    an automatic tag is never negative and never larger than the number of
    fields declared before its field, so that it fits two bytes in every
    GROUP of at most 65536 fields. *)
Theorem tags_form_a_bijection (FIELDS : list (string * field)) (fieldToTag : Bijection) :
  PacketFieldsEncoder._processFields FIELDS = Ok fieldToTag ->
  (forall n t, forward fieldToTag !! n = Some t <-> inverse fieldToTag !! t = Some n) /\
  (forall n, is_Some (forward fieldToTag !! n) <-> n ∈ map fst FIELDS) /\
  (forall i n f,
     FIELDS !! i = Some (n, f) ->
     exists t,
       forward fieldToTag !! n = Some t /\
       match ExplicitTag (attrs_of f) with
       | Some tag => t = tag
       | None => 0 <= t <= Z.of_nat i
       end).
Proof.
  intros Hp. pose proof (_processFields_spec FIELDS) as Hspec. rewrite Hp in Hspec.
  destruct Hspec as (out & Hass & [Hfwd Hinv] & Hnames & _).
  split; [|split].
  - intros n t. now rewrite Hfwd, Hinv.
  - intros n. rewrite <- Hnames. split.
    + intros [t Ht]. apply Hfwd in Ht. apply list_elem_of_fmap. exists (n, t). auto.
    + intros Hin. apply list_elem_of_fmap in Hin as ([n' t] & -> & Hin).
      exists t. now apply Hfwd.
  - intros i n f Hi. destruct (assigns_tags _ _ _ Hass i n f Hi) as (t & Hout & Hm).
    exists t. split; [|exact Hm]. apply Hfwd.
    eapply list_elem_of_lookup_2. exact Hout.
Qed.

(** In [tagged_FIELDS] the field "b" comes second and has no explicit tag:
    its tag is 0 or 1. *)
Lemma tags_form_a_bijection_witness :
  exists t,
    forward (Bijection_set "c" 2 (Bijection_set "b" 0 (Bijection_set "a" 1 Bijection_empty)))
      !! "b"%string = Some t /\
    0 <= t <= 1.
Proof.
  destruct (tags_form_a_bijection tagged_FIELDS
              (Bijection_set "c" 2 (Bijection_set "b" 0 (Bijection_set "a" 1 Bijection_empty))))
    as (_ & _ & H).
  - vm_compute. reflexivity.
  - exact (H 1%nat "b"%string (UINT no_attributes None) eq_refl).
Defined.

(** ** GROUP entries on the wire *)

(** The GROUP decoder does not depend on the order of the entries: the
    entries that the encoder writes for a valid GROUP, put on the wire in any
    order behind their count, decode to the same GROUP. *)
Theorem group_decode_accepts_any_order (a : attributes) (FIELDS : list (string * field)) :
  valid (GROUP a true FIELDS) ->
  exists es,
    map (fun e => (entry_name e, entry_field e)) es = present FIELDS /\
    encoded (GROUP a true FIELDS) =
      Ok (be_bytes 2 (Z.of_nat (length es)) ++ concat (map entry_bytes es)) /\
    forall es' st tail,
      Permutation es es' ->
      holds st (be_bytes 2 (Z.of_nat (length es')) ++ concat (map entry_bytes es')) tail ->
      fits st (2 + length (concat (map entry_bytes es'))) ->
      run (decodeIterator (unset (GROUP a true FIELDS))) st =
      Done (GROUP a true FIELDS)
           (advance (2 + length (concat (map entry_bytes es'))) st).
Proof.
  intros Hvalid. inversion Hvalid as [| | | | | | |a' F' fieldToTag Hproc Hrange Hcount Hmem];
    subst.
  assert (IH : Forall (fun nf => valid (snd nf) -> round_trips (snd nf)) FIELDS).
  { apply Forall_forall. intros nf _. apply valid_round_trips. }
  destruct (round_trips_GROUP a FIELDS fieldToTag Hproc Hrange Hcount Hmem IH)
    as (es & Hes & Hfilter & Hemit & _).
  exists es. split; [exact Hfilter|]. split; [now apply emits_encoded|].
  intros es' st tail Hperm Hh Hfit.
  pose proof (_processFields_spec FIELDS) as Hspec. rewrite Hproc in Hspec.
  destruct Hspec as (out & _ & _ & Hnames & Hnd & _). rewrite Hnames in Hnd.
  assert (Hes' : Forall (entry_ok FIELDS fieldToTag) es') by (now rewrite <- Hperm).
  assert (Hlen : Z.of_nat (length es') <= 65535).
  { rewrite <- Hperm. unfold present in *. rewrite <- Hfilter, length_map in Hcount.
    exact Hcount. }
  assert (Hdec : decodes (decodeIterator (unset (GROUP a true FIELDS)))
                   (be_bytes 2 (Z.of_nat (length es')) ++ concat (map entry_bytes es'))
                   (GROUP a true FIELDS)).
  { cbn [unset decodeIterator].
    apply (decodes_map _ _ _ (fun raw => GROUP a true raw)).
    unfold PacketFieldsDecoder.decodeIterator.
    eapply decodes_liftG.
    { unfold PacketFieldsEncoder._processFields in *. rewrite <- Hproc.
      apply _processFields_loop_declaration. rewrite map_map. cbn [fst snd].
      apply map_ext. intros nf. now rewrite unset_unset. }
    eapply decodes_bindG.
    { apply (decodes_unsigned code_H); [simpl; tauto|simpl; lia]. }
    rewrite Nat2Z.id. unfold PacketFieldsDecoder.initializeData.
    rewrite !map_map. cbn [fst snd].
    replace (map (fun x => (fst x, unset (unset (snd x)))) FIELDS) with (fill [] FIELDS).
    - pose proof (decodes_decode_fields FIELDS fieldToTag es' Hnd Hes' []) as Hd.
      replace (fill (map entry_name es' ++ []) FIELDS) with FIELDS in Hd; [exact Hd|].
      rewrite <- (fill_all FIELDS es Hfilter Hmem) at 1.
      apply fill_ext. intros nf _. now rewrite Hperm.
    - unfold fill. apply map_ext. intros nf.
      rewrite bool_decide_eq_false_2 by (apply not_elem_of_nil). now rewrite unset_unset. }
  specialize (Hdec st tail Hh). rewrite length_app, be_bytes_length in Hdec.
  apply Hdec. exact Hfit.
Qed.

(** The entries of [sample_group] may come in any order. *)
Lemma group_decode_accepts_any_order_witness :
  exists es,
    map (fun e => (entry_name e, entry_field e)) es =
      present (match sample_group with GROUP _ _ FIELDS => FIELDS | _ => [] end) /\
    encoded sample_group =
      Ok (be_bytes 2 (Z.of_nat (length es)) ++ concat (map entry_bytes es)) /\
    forall es' st tail,
      Permutation es es' ->
      holds st (be_bytes 2 (Z.of_nat (length es')) ++ concat (map entry_bytes es')) tail ->
      fits st (2 + length (concat (map entry_bytes es'))) ->
      run (decodeIterator (unset sample_group)) st =
      Done sample_group (advance (2 + length (concat (map entry_bytes es'))) st).
Proof.
  exact (group_decode_accepts_any_order no_attributes _ sample_group_valid).
Defined.

Lemma is_unset_unset (f : field) : is_unset (unset f) = true.
Proof. destruct f; reflexivity. Qed.

(** The GROUP decoder does not ask for any member: the count 0 decodes to
    the GROUP with every member UNSET, also when members are not [Optional];
    and the encoder then refuses that GROUP because of such a member. *)
Theorem group_decode_does_not_require_members (a : attributes) (set : bool)
    (FIELDS : list (string * field)) (fieldToTag : Bijection)
    (st : EncoderStreamAdapter) (tail : list byte) :
  PacketFieldsEncoder._processFields FIELDS = Ok fieldToTag ->
  holds st [x00; x00] tail ->
  exceeds_max_size st 2 = false ->
  run (decodeIterator (GROUP a set FIELDS)) st =
    Done (GROUP a true (map declaration FIELDS)) (advance 2 st) /\
  ((exists nf, nf ∈ FIELDS /\ GetAttribute (Optional (attrs_of (snd nf))) false <> true) ->
   exists n,
     n ∈ map fst FIELDS /\
     forall s, encode (GROUP a true (map declaration FIELDS)) s =
               (Raise (PacketEncodingError (FieldUnsetNotOptional n) None), s)).
Proof.
  intros Hp Hh Hm. split.
  - cbn [decodeIterator]. unfold PacketFieldsDecoder.decodeIterator. rewrite Hp.
    cbn [liftG bindG]. rewrite !run_bindG.
    rewrite (run_unpack_int code_H st [x00; x00] tail Hm Hh eq_refl).
    cbn [bind_outcome length]. reflexivity.
  - intros (nf & Hin & Hopt).
    destruct (collect_unset_not_optional (map declaration FIELDS) encode)
      as (n0 & f0 & Hin0 & _ & _ & Hcollect).
    { exists (declaration nf). split; [|split].
      - apply list_elem_of_fmap. exists nf. auto.
      - apply is_unset_unset.
      - unfold declaration. cbn [snd]. now rewrite attrs_of_unset. }
    exists n0. split.
    + apply list_elem_of_fmap in Hin0 as (nf0 & Heq & Hin0).
      apply list_elem_of_fmap. exists nf0. split; [|exact Hin0].
      unfold declaration in Heq. now injection Heq as -> _.
    + intros s. cbn [encode]. unfold PacketFieldsEncoder.encode, bind, lift.
      replace (PacketFieldsEncoder._processFields (map declaration FIELDS))
        with (Ok fieldToTag).
      * now rewrite Hcollect.
      * rewrite <- Hp. unfold PacketFieldsEncoder._processFields.
        apply _processFields_loop_declaration. rewrite map_map.
        apply map_ext. intros nf0. unfold declaration. cbn [fst snd].
        now rewrite unset_unset.
Qed.

(** [tagged_FIELDS] has no optional member. *)
Lemma group_decode_does_not_require_members_witness :
  run (decodeIterator (GROUP no_attributes false tagged_FIELDS)) (stream_of [x00; x00]) =
    Done (GROUP no_attributes true (map declaration tagged_FIELDS))
         (mkAdapter [x00; x00] 2 None) /\
  exists n,
    n ∈ map fst tagged_FIELDS /\
    forall s, encode (GROUP no_attributes true (map declaration tagged_FIELDS)) s =
              (Raise (PacketEncodingError (FieldUnsetNotOptional n) None), s).
Proof.
  destruct (group_decode_does_not_require_members no_attributes false tagged_FIELDS
              (Bijection_set "c" 2 (Bijection_set "b" 0 (Bijection_set "a" 1 Bijection_empty)))
              (stream_of [x00; x00]) []) as [Hdec Henc].
  - vm_compute. reflexivity.
  - reflexivity.
  - reflexivity.
  - split; [exact Hdec|]. apply Henc.
    exists ("a"%string, UINT (mkAttrs None None None (Some 1)) None).
    split; [apply elem_of_cons; now left|]. cbn. discriminate.
Defined.

(** ** Values that follow each other on a stream *)

(** Encodings delimit themselves: two valid values encoded one after the
    other on a stream are read back by two decodes one after the other, each
    taking exactly the bytes of its value, whatever follows on the stream. *)
Theorem values_in_sequence (f1 f2 : field) :
  valid f1 -> valid f2 ->
  exists b1 b2,
    encoded f1 = Ok b1 /\ encoded f2 = Ok b2 /\
    (forall st, in_range st ->
       bind (encode f1) (fun _ => encode f2) st = (Ok tt, write (b1 ++ b2) st)) /\
    (forall st tail,
       holds st (b1 ++ b2) tail ->
       fits st (length b1 + length b2) ->
       run (bindG (decodeIterator (unset f1)) (fun v1 =>
            bindG (decodeIterator (unset f2)) (fun v2 => Return (v1, v2)))) st =
       Done (f1, f2) (advance (length b1 + length b2) st)).
Proof.
  intros H1 H2.
  destruct (valid_round_trips f1 H1) as (b1 & Hemit1 & Hdec1).
  destruct (valid_round_trips f2 H2) as (b2 & Hemit2 & Hdec2).
  exists b1, b2. split; [now apply emits_encoded|]. split; [now apply emits_encoded|].
  split.
  - exact (emits_bind _ _ _ _ Hemit1 Hemit2).
  - intros st tail Hh Hfit.
    assert (Hd : decodes (bindG (decodeIterator (unset f1)) (fun v1 =>
                          bindG (decodeIterator (unset f2)) (fun v2 => Return (v1, v2))))
                   (b1 ++ b2 ++ []) (f1, f2)).
    { eapply decodes_bindG; [exact Hdec1|].
      eapply decodes_bindG; [exact Hdec2|apply decodes_Return]. }
    rewrite app_nil_r in Hd. specialize (Hd st tail Hh).
    rewrite length_app in Hd. now apply Hd.
Qed.

(** [sample_group] followed by the UINT 500. *)
Lemma values_in_sequence_witness :
  exists b1 b2,
    encoded sample_group = Ok b1 /\
    encoded (UINT no_attributes (Some 500)) = Ok b2 /\
    (forall st, in_range st ->
       bind (encode sample_group) (fun _ => encode (UINT no_attributes (Some 500))) st =
       (Ok tt, write (b1 ++ b2) st)) /\
    (forall st tail,
       holds st (b1 ++ b2) tail ->
       fits st (length b1 + length b2) ->
       run (bindG (decodeIterator (unset sample_group)) (fun v1 =>
            bindG (decodeIterator (unset (UINT no_attributes (Some 500)))) (fun v2 =>
            Return (v1, v2)))) st =
       Done (sample_group, UINT no_attributes (Some 500))
            (advance (length b1 + length b2) st)).
Proof.
  apply (values_in_sequence sample_group (UINT no_attributes (Some 500))).
  - exact sample_group_valid.
  - apply valid_UINT; [vm_compute; reflexivity|]. unfold representable. vm_compute.
    split; [discriminate|reflexivity].
Defined.

(** ** The registry of type encoders *)

Lemma class_size_pos (cls : class) : (0 < class_size cls)%nat.
Proof. destruct cls. cbn. lia. Qed.

Lemma class_size_bases (cls : class) :
  class_size cls = S (list_sum (map class_size (__bases__ cls))).
Proof. destruct cls. reflexivity. Qed.

Lemma list_sum_map_app (q1 q2 : list class) :
  list_sum (map class_size (q1 ++ q2)) =
  (list_sum (map class_size q1) + list_sum (map class_size q2))%nat.
Proof. now rewrite map_app, list_sum_app. Qed.

Lemma list_sum_map_cons (c : class) (queue : list class) :
  list_sum (map class_size (c :: queue)) =
  (class_size c + list_sum (map class_size queue))%nat.
Proof. reflexivity. Qed.

Lemma reaches_inv (terminals : list class) (cls x : class) :
  reaches terminals cls x <->
  x = cls \/ (class_in cls terminals = false /\
              exists base, base ∈ __bases__ cls /\ reaches terminals base x).
Proof.
  split.
  - intros H. inversion H; subst; [now left|right; eauto].
  - intros [->|(Ht & base & Hb & Hr)]; [constructor|econstructor; eauto].
Qed.

Lemma iterateClassAncestors_loop_spec (terminals : list class) :
  forall fuel queue,
    (list_sum (map class_size queue) <= fuel)%nat ->
    forall x, x ∈ iterateClassAncestors_loop fuel terminals queue <->
              exists cls, cls ∈ queue /\ reaches terminals cls x.
Proof.
  induction fuel as [|fuel IH]; intros queue Hfuel x.
  - destruct queue as [|c queue].
    + cbn. split; [intros H; inversion H|intros (c & H & _); inversion H].
    + rewrite list_sum_map_cons in Hfuel. pose proof (class_size_pos c). lia.
  - destruct queue as [|c queue]; cbn [iterateClassAncestors_loop].
    + split; [intros H; inversion H|intros (c & H & _); inversion H].
    + rewrite list_sum_map_cons in Hfuel. rewrite class_size_bases in Hfuel.
      rewrite elem_of_cons, IH.
      * split.
        -- intros [->|(c0 & Hin & Hr)].
           ++ exists c. split; [apply elem_of_cons; now left|constructor].
           ++ destruct (class_in c terminals) eqn:Ht; cbn [negb] in Hin.
              ** exists c0. split; [apply elem_of_cons; now right|exact Hr].
              ** apply elem_of_app in Hin as [Hin|Hin].
                 --- exists c0. split; [apply elem_of_cons; now right|exact Hr].
                 --- exists c. split; [apply elem_of_cons; now left|].
                     econstructor; eauto.
        -- intros (c0 & Hin & Hr). apply elem_of_cons in Hin as [->|Hin].
           ++ apply reaches_inv in Hr as [->|(Ht & base & Hb & Hr)]; [now left|].
              right. exists base. rewrite Ht. cbn [negb]. split; [|exact Hr].
              apply elem_of_app. now right.
           ++ right. exists c0. split; [|exact Hr].
              destruct (negb _); [apply elem_of_app; now left|exact Hin].
      * destruct (negb _); [rewrite list_sum_map_app|]; lia.
Qed.

Lemma iterateClassAncestors_loop_fuel (terminals : list class) :
  forall fuel fuel' queue,
    (list_sum (map class_size queue) <= fuel)%nat ->
    (list_sum (map class_size queue) <= fuel')%nat ->
    iterateClassAncestors_loop fuel terminals queue =
    iterateClassAncestors_loop fuel' terminals queue.
Proof.
  induction fuel as [|fuel IH]; intros fuel' queue Hfuel Hfuel'.
  - destruct queue as [|c queue]; [now destruct fuel'|].
    rewrite list_sum_map_cons in Hfuel. pose proof (class_size_pos c). lia.
  - destruct queue as [|c queue]; [now destruct fuel'|].
    rewrite list_sum_map_cons in Hfuel, Hfuel'. rewrite class_size_bases in Hfuel, Hfuel'.
    destruct fuel' as [|fuel']; [lia|]. cbn [iterateClassAncestors_loop]. f_equal.
    apply IH; destruct (negb _); rewrite ?list_sum_map_app; lia.
Qed.

Lemma iterateClassAncestors_head (cls : class) (terminals : option (list class)) :
  exists rest, iterateClassAncestors cls terminals = cls :: rest.
Proof.
  unfold iterateClassAncestors. rewrite class_size_bases.
  cbn [iterateClassAncestors_loop]. eauto.
Qed.

Lemma iterateClassAncestors_reaches (cls : class) (terminals : list class) (x : class) :
  x ∈ iterateClassAncestors cls (Some terminals) <-> reaches terminals cls x.
Proof.
  unfold iterateClassAncestors.
  rewrite iterateClassAncestors_loop_spec by (rewrite list_sum_map_cons; cbn; lia).
  split.
  - intros (c & Hin & Hr). apply list_elem_of_singleton in Hin. now subst.
  - intros Hr. exists cls. split; [apply list_elem_of_singleton; reflexivity|exact Hr].
Qed.

(** [iterateClassAncestors] yields [cls] first, whether it is a terminal
    class or not; the classes it yields are exactly those met on the way up
    from [cls] along lines of inheritance that stop at a terminal class,
    which is yielded itself while its bases are not looked at; [None] for the
    terminals is the empty list; and its loop ends because its queue is
    empty: more rounds than the tree of [cls] has classes yield nothing
    more. *)
Theorem iterateClassAncestors_spec (cls : class) (terminals : list class) :
  (exists rest, iterateClassAncestors cls (Some terminals) = cls :: rest) /\
  (forall x, x ∈ iterateClassAncestors cls (Some terminals) <-> reaches terminals cls x) /\
  (forall t, t ∈ iterateClassAncestors cls (Some terminals) ->
             class_in t terminals = true ->
             forall x, reaches terminals t x -> x = t) /\
  iterateClassAncestors cls None = iterateClassAncestors cls (Some []) /\
  (forall fuel, (class_size cls <= fuel)%nat ->
     iterateClassAncestors_loop fuel terminals [cls] =
     iterateClassAncestors cls (Some terminals)).
Proof.
  split; [apply iterateClassAncestors_head|].
  split; [apply iterateClassAncestors_reaches|].
  split; [|split; [reflexivity|]].
  - intros t _ Ht x Hr. apply reaches_inv in Hr as [->|(Hf & _)]; [reflexivity|congruence].
  - intros fuel Hfuel. unfold iterateClassAncestors.
    apply iterateClassAncestors_loop_fuel; rewrite list_sum_map_cons; cbn; lia.
Qed.

(** The ancestors of "Counter" up to "PacketFieldType". *)
Example iterateClassAncestors_Counter :
  map __name__ (iterateClassAncestors class_Counter (Some [class_PacketFieldType])) =
    ["Counter"; "UINT"; "PacketFieldType"]%string /\
  map __name__ (iterateClassAncestors class_Counter None) =
    ["Counter"; "UINT"; "PacketFieldType"; "object"]%string.
Proof. split; vm_compute; reflexivity. Qed.

Section RegistryProperties.
Variable PacketFieldType ComplexFieldType : class.
Variable Encoder : Type.

Lemma _GetTypeKey_head (encodingType : object) (keys : list typeKey) :
  _GetTypeKey PacketFieldType ComplexFieldType encodingType = inr keys ->
  exists rest, keys = most_specific_key encodingType :: rest.
Proof.
  unfold _GetTypeKey.
  destruct encodingType as [cls|cls dataType|cls]; cbn [most_specific_key own_class].
  - destruct (issubclass cls PacketFieldType); [|discriminate].
    destruct (iterateClassAncestors_head cls (Some [PacketFieldType; ComplexFieldType]))
      as [rest ->].
    intros H. injection H as <-. cbn [map]. eauto.
  - destruct (issubclass cls PacketFieldType); [|discriminate].
    destruct (iterateClassAncestors_head cls (Some [PacketFieldType; ComplexFieldType]))
      as [rest ->].
    assert (Hpairs : forall specific keys0,
              inr (flat_map
                     (fun encodingTypeClass =>
                        map (pair_key encodingTypeClass)
                            (iterateClassAncestors specific (Some [PacketFieldType])))
                     (cls :: rest)) = @inr registry_error _ keys0 ->
              exists rest0, keys0 = pair_key cls specific :: rest0).
    { intros specific keys0 H. injection H as <-. cbn [flat_map].
      destruct (iterateClassAncestors_head specific (Some [PacketFieldType])) as [r ->].
      cbn [map app]. eauto. }
    destruct dataType as [c|c d|c]; cbn [own_class].
    + apply Hpairs.
    + destruct (issubclass c PacketFieldType); [apply Hpairs|discriminate].
    + destruct (issubclass c PacketFieldType); [apply Hpairs|discriminate].
  - destruct (issubclass cls PacketFieldType) eqn:Hsub; [|discriminate].
    rewrite Hsub.
    destruct (iterateClassAncestors_head cls (Some [PacketFieldType; ComplexFieldType]))
      as [rest ->].
    intros H. injection H as <-. cbn [map]. eauto.
Qed.

Lemma first_encoder_insert_ne (reg : gmap typeKey Encoder) (key : typeKey)
    (encoder : Encoder) (keys : list typeKey) :
  key ∉ keys -> first_encoder (<[key := encoder]> reg) keys = first_encoder reg keys.
Proof.
  induction keys as [|k keys IH]; intros Hnot; [reflexivity|].
  apply not_elem_of_cons in Hnot as [Hne Hnot]. cbn [first_encoder].
  rewrite lookup_insert_ne by congruence. now rewrite IH.
Qed.

Lemma RegisterTypeEncoder_inv (encodingType : object) (encoder : Encoder)
    (reg reg' : gmap typeKey Encoder) :
  RegisterTypeEncoder PacketFieldType ComplexFieldType encodingType encoder reg = inr reg' ->
  reg' = <[most_specific_key encodingType := encoder]> reg /\
  exists rest, _GetTypeKey PacketFieldType ComplexFieldType encodingType =
               inr (most_specific_key encodingType :: rest).
Proof.
  unfold RegisterTypeEncoder.
  destruct (_GetTypeKey PacketFieldType ComplexFieldType encodingType) as [e|keys] eqn:Hk;
    [discriminate|].
  destruct (_GetTypeKey_head _ _ Hk) as [rest ->]. intros H. injection H as <-. eauto.
Qed.

(** An encoder is stored under the most specific key of what it is
    registered for: the class, and for an instance of [ComplexFieldType] the
    pair of its class and the class of its data type. A lookup for the same
    thing then finds this encoder, whatever else is registered, and a lookup
    for anything whose keys do not include that key finds what it found
    before. *)
Theorem registered_encoder_is_found (encodingType : object) (encoder : Encoder)
    (reg reg' : gmap typeKey Encoder) :
  RegisterTypeEncoder PacketFieldType ComplexFieldType encodingType encoder reg = inr reg' ->
  reg' = <[most_specific_key encodingType := encoder]> reg /\
  GetTypeEncoder PacketFieldType ComplexFieldType encodingType reg' = inr (Some encoder) /\
  (forall other keys,
     _GetTypeKey PacketFieldType ComplexFieldType other = inr keys ->
     most_specific_key encodingType ∉ keys ->
     GetTypeEncoder PacketFieldType ComplexFieldType other reg' =
     GetTypeEncoder PacketFieldType ComplexFieldType other reg).
Proof.
  intros H. apply RegisterTypeEncoder_inv in H as (-> & rest & Hk).
  unfold GetTypeEncoder. rewrite Hk.
  split; [reflexivity|]. split.
  - cbn [first_encoder]. now rewrite lookup_insert_eq.
  - intros other keys Hother Hnot. rewrite Hother. f_equal.
    now apply first_encoder_insert_ne.
Qed.
End RegistryProperties.

(** "UintEncoder" registered for the class "UINT". *)
Lemma registered_encoder_is_found_witness :
  GetTypeEncoder class_PacketFieldType class_ComplexFieldType (class_object class_UINT)
    (<[class_key class_UINT := "UintEncoder"%string]> ∅) = inr (Some "UintEncoder"%string).
Proof.
  destruct (registered_encoder_is_found class_PacketFieldType class_ComplexFieldType string
              (class_object class_UINT) "UintEncoder"%string ∅
              (<[class_key class_UINT := "UintEncoder"%string]> ∅)) as (_ & H & _).
  - vm_compute. reflexivity.
  - exact H.
Defined.

Lemma class_in_nil (cls : class) : class_in cls [] = false.
Proof. unfold class_in. apply bool_decide_eq_false_2. apply not_elem_of_nil. Qed.

Lemma reaches_nil_trans (terminals : list class) (cls base x : class) :
  reaches terminals cls base -> reaches [] base x -> reaches [] cls x.
Proof.
  induction 1 as [cls|cls b base Ht Hb Hr IH]; intros Hx; [exact Hx|].
  econstructor; [apply class_in_nil|exact Hb|]. now apply IH.
Qed.

Lemma issubclass_reaches (cls base : class) :
  issubclass cls base = true <->
  exists x, reaches [] cls x /\ __name__ x = __name__ base.
Proof.
  unfold issubclass, class_in. rewrite bool_decide_eq_true, list_elem_of_fmap.
  change (iterateClassAncestors cls None) with (iterateClassAncestors cls (Some [])).
  split.
  - intros (x & Hn & Hin). apply iterateClassAncestors_reaches in Hin. eauto.
  - intros (x & Hr & Hn). exists x. split; [auto|]. now apply iterateClassAncestors_reaches.
Qed.

Lemma issubclass_of_base (terminals : list class) (cls base root : class) :
  reaches terminals cls base -> issubclass base root = true -> issubclass cls root = true.
Proof.
  intros Hr Hsub. apply issubclass_reaches in Hsub as (x & Hx & Hn).
  apply issubclass_reaches. exists x. split; [|exact Hn]. eapply reaches_nil_trans; eauto.
Qed.

Lemma first_encoder_found (Encoder : Type) (reg : gmap typeKey Encoder) (key : typeKey)
    (encoder : Encoder) (keys : list typeKey) :
  key ∈ keys -> reg !! key = Some encoder ->
  (forall k, k ∈ keys -> k <> key -> reg !! k = None) ->
  first_encoder reg keys = Some encoder.
Proof.
  induction keys as [|k keys IH]; intros Hin Hkey Hothers; [inversion Hin|].
  cbn [first_encoder]. destruct (decide (k = key)) as [->|Hne].
  - now rewrite Hkey.
  - rewrite (Hothers k) by (auto; apply elem_of_cons; now left).
    apply IH; [|exact Hkey|].
    + apply elem_of_cons in Hin as [Heq|Hin]; [congruence|exact Hin].
    + intros k0 Hk0. apply Hothers. apply elem_of_cons. now right.
Qed.

Section RegistryInheritance.
Variable PacketFieldType ComplexFieldType : class.
Variable Encoder : Type.


End RegistryInheritance.


Section RegistryComposite.
Variable PacketFieldType ComplexFieldType : class.
Variable Encoder : Type.

Lemma _GetTypeKey_complex (cls specific : class) :
  issubclass cls PacketFieldType = true ->
  _GetTypeKey PacketFieldType ComplexFieldType (complex_instance cls (class_object specific)) =
    inr (flat_map
           (fun encodingTypeClass =>
              map (pair_key encodingTypeClass)
                  (iterateClassAncestors specific (Some [PacketFieldType])))
           (iterateClassAncestors cls (Some [PacketFieldType; ComplexFieldType]))) /\
  (issubclass specific PacketFieldType = true ->
   _GetTypeKey PacketFieldType ComplexFieldType (complex_instance cls (instance specific)) =
   _GetTypeKey PacketFieldType ComplexFieldType
     (complex_instance cls (class_object specific))).
Proof.
  intros H. unfold _GetTypeKey. rewrite !H. split; [reflexivity|].
  intros Hs. now rewrite Hs.
Qed.

Lemma pair_keys_spec (cls specific : class) (terminals1 terminals2 : list class)
    (k : typeKey) :
  k ∈ flat_map (fun encodingTypeClass =>
                  map (pair_key encodingTypeClass)
                      (iterateClassAncestors specific (Some terminals2)))
               (iterateClassAncestors cls (Some terminals1)) <->
  exists o i, reaches terminals1 cls o /\ reaches terminals2 specific i /\ k = pair_key o i.
Proof.
  rewrite list_elem_of_In, in_flat_map. split.
  - intros (o & Ho & Hk). apply list_elem_of_In, list_elem_of_fmap in Hk as (i & -> & Hi).
    apply list_elem_of_In, iterateClassAncestors_reaches in Ho.
    apply iterateClassAncestors_reaches in Hi. eauto.
  - intros (o & i & Ho & Hi & ->). exists o. split.
    + apply list_elem_of_In. now apply iterateClassAncestors_reaches.
    + apply list_elem_of_In, list_elem_of_fmap. exists i. split; [reflexivity|].
      now apply iterateClassAncestors_reaches.
Qed.

(** Inheritance in the registry, for instances of [ComplexFieldType]: an
    encoder registered for a complex type over a data type serves every
    complex type derived from it, over every data type derived from that
    data type below [PacketFieldType], be the data type given as a class or
    as a field instance, as long as no encoder is registered under another
    of the pairs that the lookup tries. One encoder registered for lists of
    [PacketFieldType] thus serves the lists of every field type. *)
Theorem composite_encoder_serves_every_data_type (outer outer' inner inner' : class)
    (encoder : Encoder) (reg reg' : gmap typeKey Encoder) :
  RegisterTypeEncoder PacketFieldType ComplexFieldType
    (complex_instance outer (class_object inner)) encoder reg = inr reg' ->
  reaches [PacketFieldType; ComplexFieldType] outer' outer ->
  reaches [PacketFieldType] inner' inner ->
  (forall o i, reaches [PacketFieldType; ComplexFieldType] outer' o ->
               reaches [PacketFieldType] inner' i ->
               pair_key o i <> pair_key outer inner -> reg !! pair_key o i = None) ->
  GetTypeEncoder PacketFieldType ComplexFieldType
    (complex_instance outer' (class_object inner')) reg' = inr (Some encoder) /\
  (issubclass inner' PacketFieldType = true ->
   GetTypeEncoder PacketFieldType ComplexFieldType
     (complex_instance outer' (instance inner')) reg' = inr (Some encoder)).
Proof.
  intros Hreg Houter Hinner Hfree.
  assert (Hbase : issubclass outer PacketFieldType = true).
  { unfold RegisterTypeEncoder, _GetTypeKey in Hreg.
    destruct (issubclass outer PacketFieldType); [reflexivity|discriminate]. }
  destruct (RegisterTypeEncoder_inv _ _ _ _ _ _ _ Hreg) as (-> & _).
  cbn [most_specific_key own_class].
  pose proof (issubclass_of_base _ _ _ _ Houter Hbase) as Hderived.
  destruct (_GetTypeKey_complex outer' inner' Hderived) as [Hc Hi].
  assert (Hget : GetTypeEncoder PacketFieldType ComplexFieldType
                   (complex_instance outer' (class_object inner'))
                   (<[pair_key outer inner := encoder]> reg) = inr (Some encoder)).
  { unfold GetTypeEncoder. rewrite Hc. f_equal.
    apply (first_encoder_found _ _ (pair_key outer inner)).
    - apply pair_keys_spec. eauto.
    - apply lookup_insert_eq.
    - intros k Hk Hne. apply pair_keys_spec in Hk as (o & i & Ho & Hi' & ->).
      rewrite lookup_insert_ne by congruence. now apply Hfree. }
  split; [exact Hget|].
  intros Hs. unfold GetTypeEncoder in *. now rewrite (Hi Hs).
Qed.
End RegistryComposite.

(** "ListEncoder", registered for lists of "PacketFieldType", serves a
    list whose data type is an instance of "UINT". *)
Lemma composite_encoder_serves_every_data_type_witness :
  GetTypeEncoder class_PacketFieldType class_ComplexFieldType
    (complex_instance class_ListFieldType (instance class_UINT))
    (<[pair_key class_ListFieldType class_PacketFieldType := "ListEncoder"%string]> ∅)
  = inr (Some "ListEncoder"%string).
Proof.
  destruct (composite_encoder_serves_every_data_type class_PacketFieldType
              class_ComplexFieldType string
              class_ListFieldType class_ListFieldType class_PacketFieldType class_UINT
              "ListEncoder"%string ∅
              (<[pair_key class_ListFieldType class_PacketFieldType := "ListEncoder"%string]> ∅))
    as [_ H].
  - vm_compute. reflexivity.
  - apply reaches_self.
  - eapply reaches_base; [vm_compute; reflexivity| |apply reaches_self].
    apply elem_of_cons. now left.
  - intros o i _ _ _. apply lookup_empty.
  - apply H. vm_compute. reflexivity.
Defined.

(** ** Explicit tags that are already taken *)

Lemma _processFields_loop_app (pre : list (string * field)) :
  forall autoTag b0 b,
    PacketFieldsEncoder._processFields_loop pre autoTag b0 = Ok b ->
    exists autoTag',
      forall rest,
        PacketFieldsEncoder._processFields_loop (pre ++ rest) autoTag b0 =
        PacketFieldsEncoder._processFields_loop rest autoTag' b.
Proof.
  induction pre as [|[n f] pre IH]; intros autoTag b0 b;
    cbn [PacketFieldsEncoder._processFields_loop app].
  - intros H. injection H as <-. exists autoTag. reflexivity.
  - destruct (forward b0 !! n); [discriminate|].
    destruct (ExplicitTag (attrs_of f)) as [tag|].
    + destruct (inverse b0 !! tag); [discriminate|]. apply IH.
    + apply IH.
Qed.

(** An explicit tag is refused when the tag has already been given out,
    be it to a field that asked for it or to a field that got it
    automatically: if the fields declared so far are accepted and hold the
    tag, a field that asks for it makes the whole declaration fail, whatever
    follows, with "Duplicate Explicit Tag", or with "Duplicate Field" when
    its name is taken as well. *)
Theorem explicit_tag_already_given_out (pre post : list (string * field))
    (n : string) (f : field) (tag : Z) (fieldToTag : Bijection) :
  PacketFieldsEncoder._processFields pre = Ok fieldToTag ->
  ExplicitTag (attrs_of f) = Some tag ->
  is_Some (inverse fieldToTag !! tag) ->
  PacketFieldsEncoder._processFields (pre ++ (n, f) :: post) =
  Raise (Exception (match forward fieldToTag !! n with
                    | Some _ => DuplicateField
                    | None => DuplicateExplicitTag
                    end)).
Proof.
  intros Hpre Htag [n' Hinv]. unfold PacketFieldsEncoder._processFields in *.
  destruct (_processFields_loop_app pre 0 Bijection_empty fieldToTag Hpre) as [autoTag' ->].
  cbn [PacketFieldsEncoder._processFields_loop].
  destruct (forward fieldToTag !! n); [reflexivity|].
  now rewrite Htag, Hinv.
Qed.

(** A field without explicit tag gets the tag 0; a field declared after it
    cannot have the explicit tag 0, while declared before it, it can. *)
Lemma explicit_tag_already_given_out_witness :
  PacketFieldsEncoder._processFields
    ([("x"%string, UINT no_attributes None)] ++
     ("y"%string, UINT (mkAttrs None None None (Some 0)) None) :: []) =
    Raise (Exception DuplicateExplicitTag) /\
  PacketFieldsEncoder._processFields
    [("y"%string, UINT (mkAttrs None None None (Some 0)) None);
     ("x"%string, UINT no_attributes None)] =
    Ok (Bijection_set "x" 1 (Bijection_set "y" 0 Bijection_empty)).
Proof.
  split; [|vm_compute; reflexivity].
  apply (explicit_tag_already_given_out [("x"%string, UINT no_attributes None)] []
           "y"%string (UINT (mkAttrs None None None (Some 0)) None) 0
           (Bijection_set "x" 0 Bijection_empty)).
  - vm_compute. reflexivity.
  - reflexivity.
  - exists "x"%string. vm_compute. reflexivity.
Defined.

(** ** The read cap of a frame *)

Lemma reads_only_bindG (A B : Type) (g : Gen A) (f : A -> Gen B) :
  reads_only g -> (forall a, reads_only (f a)) -> reads_only (bindG g f).
Proof.
  intros Hg Hf. induction g as [a|e|n wrap k IH|n k IH|k IH|p k IH|n k IH|n e|];
    cbn [bindG reads_only] in *; auto; try contradiction.
Qed.

Lemma reads_only_try_exceptG (A : Type) (g : Gen A) (handler : exn -> exn) :
  reads_only g -> reads_only (try_exceptG g handler).
Proof.
  intros Hg. induction g as [a|e|n wrap k IH|n k IH|k IH|p k IH|n k IH|n e|];
    cbn [try_exceptG reads_only] in *; auto; try contradiction.
Qed.

Lemma reads_only_liftG (A : Type) (r : res A) : reads_only (liftG r).
Proof. destruct r; exact I. Qed.

Lemma reads_only_unpackIterator (n : nat) : reads_only (unpackIterator n).
Proof. intros chunk. exact I. Qed.

Lemma reads_only_unpack_int (c : packCode) : reads_only (unpack_int c).
Proof. intros chunk. exact I. Qed.

Lemma reads_only_decode_items (item : Gen field) (count : nat) :
  reads_only item ->
  forall i items, reads_only (ListDecoder.decode_items item count i items).
Proof.
  intros Hitem. induction count as [|count IH]; intros i items; [exact I|].
  cbn [ListDecoder.decode_items]. apply reads_only_bindG.
  - now apply reads_only_try_exceptG.
  - intros a. apply IH.
Qed.

Lemma reads_only_decode_fields (fieldToTag : Bijection)
    (decoders : list (string * Gen field)) (count : nat) :
  Forall (fun nd => reads_only (snd nd)) decoders ->
  forall raw, reads_only (PacketFieldsDecoder.decode_fields fieldToTag decoders count raw).
Proof.
  intros Hdec. induction count as [|count IH]; intros raw; [exact I|].
  cbn [PacketFieldsDecoder.decode_fields].
  apply reads_only_bindG; [apply reads_only_unpack_int|]. intros fieldID.
  apply reads_only_bindG; [apply reads_only_liftG|]. intros fieldName.
  destruct (get_raw fieldName decoders) as [decoder|e] eqn:Hget; [|exact I].
  cbn [liftG bindG]. apply reads_only_bindG.
  - apply reads_only_try_exceptG. apply get_raw_In in Hget.
    rewrite <- list_elem_of_In in Hget.
    rewrite Forall_forall in Hdec. apply (Hdec _ Hget).
  - intros a. apply IH.
Qed.

Lemma reads_only_PacketFieldsDecoder (topDecoder : field -> Gen field)
    (FIELDS : list (string * field)) :
  Forall (fun nf => reads_only (topDecoder (snd nf))) FIELDS ->
  reads_only (PacketFieldsDecoder.decodeIterator topDecoder FIELDS).
Proof.
  intros H. unfold PacketFieldsDecoder.decodeIterator.
  apply reads_only_bindG; [apply reads_only_liftG|]. intros fieldToTag.
  apply reads_only_bindG; [apply reads_only_unpack_int|]. intros fieldCount.
  apply reads_only_decode_fields.
  induction H as [|[n x] FIELDS Hx HF IH]; constructor; auto.
Qed.

Lemma reads_only_intrinsic (D : Type) (r : res packCode)
    (unpacked : packCode -> list byte -> D) (setData : D -> field) :
  reads_only (IntrinsicTypeStandardDecoder.decodeIterator r unpacked setData).
Proof.
  unfold IntrinsicTypeStandardDecoder.decodeIterator.
  apply reads_only_bindG; [apply reads_only_liftG|]. intros c.
  intros chunk. exact I.
Qed.

Lemma reads_only_decodeIterator (f : field) : reads_only (decodeIterator f).
Proof.
  induction f as [a d|a d|a d|a d|a d|a d|a elem d IHelem IHitems|a set FIELDS IH]
    using field_induction; cbn [decodeIterator];
    try apply reads_only_intrinsic.
  - unfold StringDecoder.decodeIterator.
    apply reads_only_bindG; [apply reads_only_unpack_int|]. intros strLen.
    apply reads_only_bindG; [apply reads_only_unpackIterator|]. intros strEncoded.
    apply reads_only_bindG; [apply reads_only_liftG|]. intros s. exact I.
  - unfold BufferDecoder.decodeIterator.
    apply reads_only_bindG; [apply reads_only_unpack_int|]. intros bufLen.
    intros chunk. exact I.
  - unfold ListDecoder.decodeIterator.
    apply reads_only_bindG; [apply reads_only_unpack_int|]. intros listSize.
    apply reads_only_bindG; [now apply reads_only_decode_items|]. intros items. exact I.
  - apply reads_only_bindG; [|intros raw; exact I].
    now apply reads_only_PacketFieldsDecoder.
Qed.

Lemma exceeds_max_size_ext (s st : EncoderStreamAdapter) (n : nat) :
  _max_size s = _max_size st -> exceeds_max_size s n = exceeds_max_size st n.
Proof. unfold exceeds_max_size. now intros ->. Qed.

(** A generator that only reads leaves the cap as it is, and suspends only
    in a read that the cap allows. *)
Lemma reads_only_run (A : Type) (g : Gen A) :
  reads_only g ->
  forall st,
    match run g st with
    | Done _ s | Raised _ s => _max_size s = _max_size st
    | Waiting g' s =>
        _max_size s = _max_size st /\
        exists n k, g' = Await n k /\ exceeds_max_size st n = false /\ (available s < n)%nat
    | Diverged => False
    end.
Proof.
  induction g as [a|e|n wrap k IH|n k IH|k IH|p k IH|n k IH|n e|];
    cbn [reads_only]; intros Hr st; try contradiction; cbn [run]; try reflexivity.
  destruct (exceeds_max_size st n) eqn:Hcap; [reflexivity|].
  destruct (available st <? n)%nat eqn:Hav.
  - split; [reflexivity|]. exists n, k. apply Nat.ltb_lt in Hav. auto.
  - unfold read. destruct (Z.of_nat n <? 0); cbn zeta;
      match goal with
      | |- context [run (k ?chunk) ?s] =>
          specialize (IH chunk (Hr chunk) s);
          assert (Hs : _max_size s = _max_size st) by reflexivity;
          destruct (run (k chunk) s) as [a s'|e s'|g' s'|]
      end; try congruence;
      destruct IH as [Hm (n' & k' & -> & Hcap' & Hav')]; (split; [congruence|]);
      exists n', k'; (split; [reflexivity|]); (split; [|exact Hav']);
      rewrite <- Hcap'; symmetry; now apply exceeds_max_size_ext.
Qed.

Lemma run_frame_tail_not_Waiting (Version : Type) (packetLength : Z) (start : nat)
    (packetType : option Packet) (decoded : PacketField Version)
    (st : EncoderStreamAdapter) (g : Gen (PacketField Version)) (st' : EncoderStreamAdapter) :
  run (frame_tail packetLength start packetType decoded) st <> Waiting g st'.
Proof.
  unfold frame_tail. cbn [run]. destruct (negb _); [discriminate|].
  destruct packetType; discriminate.
Qed.

(** After [set_max_size(packetLength)] the rest of [decode_locked] only
    reads. *)
Lemma run_decode_locked_waits (Version : Type) (FromString : str -> res Version)
    (complexType : PacketField Version) (packetLength : Z) (st : EncoderStreamAdapter)
    (g : Gen (option Packet * PacketField Version)) (st' : EncoderStreamAdapter) :
  run (decode_locked FromString complexType packetLength) st = Waiting g st' ->
  exists n k, g = Await n k /\
              exceeds_max_size (set_max_size packetLength st) n = false /\
              (available st' < n)%nat.
Proof.
  unfold decode_locked. cbn [bindG run].
  match goal with
  | |- run ?body _ = _ -> _ => assert (Hr : reads_only body)
  end.
  { apply reads_only_bindG; [apply reads_only_unpack_int|]. intros nameLen.
    apply reads_only_bindG; [apply reads_only_unpackIterator|]. intros name.
    apply reads_only_bindG; [apply reads_only_liftG|]. intros name'.
    apply reads_only_bindG; [apply reads_only_unpack_int|]. intros versionLen.
    apply reads_only_bindG; [apply reads_only_unpackIterator|]. intros version.
    apply reads_only_bindG; [apply reads_only_liftG|]. intros version'.
    apply reads_only_bindG; [apply reads_only_liftG|]. intros version''.
    destruct (getDefinition complexType name' version'') as [packet|]; [|exact I].
    apply reads_only_bindG; [|intros raw; exact I].
    apply reads_only_PacketFieldsDecoder.
    apply Forall_forall. intros nf _. apply reads_only_decodeIterator. }
  intros Hrun. pose proof (reads_only_run _ _ Hr (set_max_size packetLength st)) as H.
  rewrite Hrun in H. destruct H as [_ H]. exact H.
Qed.

(** Once [PacketEncoder.decodeIterator] has locked on a frame of length
    [packetLength], every suspension is inside one read of at most
    [packetLength] bytes, of which the stream holds fewer: the decoder never
    waits for a chunk that the frame cannot contain. *)
Theorem locked_frame_waits_within_its_length (Version : Type)
    (FromString : str -> res Version) (fuel : nat) (receiver : PacketField Version)
    (st : EncoderStreamAdapter) (packetLength : Z) (rest tail : list byte)
    (g : Gen (PacketField Version)) (st' : EncoderStreamAdapter) :
  0 < packetLength < 2 ^ 64 ->
  exceeds_max_size st 8 = false ->
  holds st (be_bytes 8 packetLength ++
            be_bytes 8 (Z.lxor packetLength LENGTH_CHECK_MASK) ++ rest) tail ->
  run (PacketEncoder_decodeIterator FromString (S fuel) receiver) st = Waiting g st' ->
  exists n k, g = Await n k /\ Z.of_nat n <= packetLength /\ (available st' < n)%nat.
Proof.
  intros HL Hm Hh. unfold PacketEncoder_decodeIterator. cbn [run].
  assert (HLr : 0 <= packetLength < 2 ^ 64) by lia.
  rewrite (resync_locks _ fuel (tell st) _ st _ _ tail HLr Hm Hh).
  cbn [fst snd]. rewrite run_bindG.
  destruct (run (decode_locked FromString receiver packetLength) (advance 16 st))
    as [r s|e s|g0 s|] eqn:Hrun; cbn [bind_outcome]; intros H; try discriminate.
  - now apply run_frame_tail_not_Waiting in H.
  - injection H as <- <-.
    apply run_decode_locked_waits in Hrun as (n & k & -> & Hcap & Hav).
    cbn [bindG]. eexists n, _. split; [reflexivity|]. split; [|exact Hav].
    unfold exceeds_max_size in Hcap. cbn [set_max_size _max_size] in Hcap.
    destruct (packetLength =? 0) eqn:H0; [lia|]. cbn [negb andb] in Hcap. lia.
Qed.

Lemma locked_frame_waits_within_its_length_witness :
  exists g st',
    run (PacketEncoder_decodeIterator Ok 1 sample_receiver)
        (stream_of (take 20 sample_frame)) = Waiting g st' /\
    exists n k, g = Await n k /\ Z.of_nat n <= Z.of_nat (length sample_frame) /\
                (available st' < n)%nat.
Proof.
  assert (Hw : match run (PacketEncoder_decodeIterator Ok 1 sample_receiver)
                         (stream_of (take 20 sample_frame)) with
               | Waiting _ _ => true
               | _ => false
               end = true) by (vm_compute; reflexivity).
  destruct (run (PacketEncoder_decodeIterator Ok 1 sample_receiver)
                (stream_of (take 20 sample_frame))) as [r s|e s|g s|] eqn:Hrun;
    try discriminate Hw.
  exists g, s. split; [reflexivity|].
  apply (locked_frame_waits_within_its_length str Ok 0 sample_receiver
           (stream_of (take 20 sample_frame)) (Z.of_nat (length sample_frame))
           (drop 16 (take 20 sample_frame)) [] g s).
  - vm_compute. split; reflexivity.
  - reflexivity.
  - vm_compute. reflexivity.
  - exact Hrun.
Defined.
